(** * ez.py: column summaries, bins, ranking, active learning and trees

    A shallow embedding of [src/src/ez.py], the properties its
    specification states about it, and further properties of the code.

    Conventions of the embedding.
    - Python numbers that take part in arithmetic (cells of a row, [mu],
      [m2], [lo], [hi], likelihoods, entropies) are real numbers: floats are
      idealised, so rounding, overflow and NaN are outside the model.
      Counters such as [n] and the lengths of lists are natural numbers.
    - A Python exception is a value [Err e]. Columns and datasets outlive
      an error raised while a row is added, so their methods return the
      mutated object together with the error; a bin under construction
      is local to [bins] and is dropped with it.
    - The global settings object [the] is an explicit argument. *)

From Stdlib Require Import Reals Lra Lia ZArith String Ascii Bool Arith List.
From Stdlib Require Import Permutation Sorted.
From Equations Require Import Equations.
Import ListNotations.

Set Implicit Arguments.

(** ** Python values, exceptions and built-ins *)

Module Py.

Inductive exn : Set :=
| IndexError | TypeError | AttributeError | KeyError | ValueError
| ZeroDivisionError.

Inductive result (A : Type) : Type :=
| Ok (a : A)
| Err (e : exn).
Arguments Ok {A} a.
Arguments Err {A} e.

Definition bind {A B} (r : result A) (f : A -> result B) : result B :=
  match r with
  | Ok a => f a
  | Err e => Err e
  end.

Definition is_ok {A} (r : result A) : bool :=
  match r with Ok _ => true | Err _ => false end.

(** [for x in xs: f(x)] collecting the results, left to right. *)
Fixpoint mapM {A B} (f : A -> result B) (xs : list A) : result (list B) :=
  match xs with
  | [] => Ok []
  | x :: xs' =>
      match f x with
      | Err e => Err e
      | Ok y =>
          match mapM f xs' with
          | Err e => Err e
          | Ok ys => Ok (y :: ys)
          end
      end
  end.

(** A cell of a row: a number or a string; the string "?" marks a
    missing value. *)
Inductive cell : Type :=
| CNum (x : R)
| CStr (s : string).

(** [x == "?"] *)
Definition missing (c : cell) : bool :=
  match c with
  | CStr s => String.eqb s "?"
  | CNum _ => false
  end.

Definition Rleb (x y : R) : bool := if Rle_dec x y then true else false.
Definition Rltb (x y : R) : bool := if Rlt_dec x y then true else false.
Definition Reqb (x y : R) : bool := if Req_dec_T x y then true else false.

(** [a == b]: never raises; a number never equals a string. *)
Definition cell_eqb (a b : cell) : bool :=
  match a, b with
  | CNum x, CNum y => Reqb x y
  | CStr s, CStr t => String.eqb s t
  | _, _ => false
  end.

(** [a < b] and [a <= b]: numbers by value, strings lexicographically,
    a number against a string raises TypeError. *)
Definition cell_ltb (a b : cell) : result bool :=
  match a, b with
  | CNum x, CNum y => Ok (Rltb x y)
  | CStr s, CStr t => Ok (String.ltb s t)
  | _, _ => Err TypeError
  end.

Definition cell_leb (a b : cell) : result bool :=
  match a, b with
  | CNum x, CNum y => Ok (Rleb x y)
  | CStr s, CStr t => Ok (String.leb s t)
  | _, _ => Err TypeError
  end.

(** [min(a, b)] returns [a] unless [b < a]; [max(a, b)] returns [a]
    unless [b > a]. *)
Definition cell_min (a b : cell) : result cell :=
  bind (cell_ltb b a) (fun lt => Ok (if lt then b else a)).

Definition cell_max (a b : cell) : result cell :=
  bind (cell_ltb a b) (fun lt => Ok (if lt then b else a)).

(** Truth value of a cell, as tested by [x or y]. *)
Definition falsy (c : cell) : bool :=
  match c with
  | CNum x => Reqb x 0
  | CStr s => String.eqb s ""
  end.

(** [l[i]] for a non-negative index. *)
Definition index {A} (l : list A) (i : nat) : result A :=
  match nth_error l i with
  | Some a => Ok a
  | None => Err IndexError
  end.

(** [l[:k]] and [l[k:]] for any integer [k]. *)
Definition slice_to {A} (l : list A) (k : Z) : list A :=
  if (k <? 0)%Z then firstn (length l - Z.to_nat (- k)) l
  else firstn (Z.to_nat k) l.

Definition slice_from {A} (l : list A) (k : Z) : list A :=
  if (k <? 0)%Z then skipn (length l - Z.to_nat (- k)) l
  else skipn (Z.to_nat k) l.

(** [a / b] on numbers. *)
Definition div (a b : R) : result R :=
  if Req_dec_T b 0 then Err ZeroDivisionError else Ok (a / b)%R.

(** [int(x)]: truncation towards zero. *)
Definition int (x : R) : Z :=
  if Rle_dec 0 x then Int_part x else (- Int_part (- x))%Z.

(** [x ** .5] at a non-negative base (at a negative base Python leaves
    the real numbers; no path of the program reaches that case with
    the inputs the theorems consider). *)
Definition pow_half (x : R) : R := sqrt x.

(** [x ** 2] *)
Definition sq (x : R) : R := (x * x)%R.

(** [n ** p] for a length [n]: [0 ** p] is 0 for positive [p], 1 for
    [p = 0] and raises otherwise. *)
Definition len_pow (n : nat) (p : R) : result R :=
  match n with
  | O => if Rlt_dec 0 p then Ok 0%R
         else if Req_dec_T p 0 then Ok 1%R
         else Err ZeroDivisionError
  | S _ => Ok (Rpower (INR n) p)
  end.

(** [sum(xs)]: a left fold from 0. *)
Definition sum (xs : list R) : R := fold_left Rplus xs 0%R.

(** [math.log(x, 2)] *)
Definition log2 (x : R) : R := (ln x / ln 2)%R.

End Py.
Export Py.

Notation "x <- e ;; k" := (Py.bind e (fun x => k))
  (at level 61, e at next level, right associativity).
Notation "' p <- e ;; k" := (Py.bind e (fun p => k))
  (at level 61, p pattern, e at next level, right associativity).

(** Some globals *)
Definition big : R := 1e32.
Definition tiny : R := 1 / big.

(** The settings [the], with the types of the defaults in the help text. *)
Module The.
Record t : Type := mk {
  Bins : Z;
  k : R;
  m : R;
  budget0 : Z;
  Budget : Z;
  best : R;
  Top : R;
  leaf : Z
}.

Definition defaults : t :=
  {| Bins := 16; k := 1; m := 2; budget0 := 4; Budget := 16;
     best := 0.5; Top := 0.8; leaf := 2 |}.
End The.

Definition Row : Type := list cell.
Definition Rows : Type := list Row.

(** A dictionary with one key for each class, in insertion order. *)
Definition Classes : Type := list (string * Rows).

(** [d[key]] and [key in d] on such a dictionary. *)
Fixpoint lookup {V} (d : list (string * V)) (key : string) : option V :=
  match d with
  | [] => None
  | (k, v) :: d' => if String.eqb k key then Some v else lookup d' key
  end.

Definition getitem {V} (d : list (string * V)) (key : string) : result V :=
  match lookup d key with
  | Some v => Ok v
  | None => Err KeyError
  end.

(** First and last character of a string: [txt[0]], [txt[-1]]. *)
Definition first_char (s : string) : result ascii :=
  match s with
  | EmptyString => Err IndexError
  | String a _ => Ok a
  end.

Fixpoint last_char (s : string) : result ascii :=
  match s with
  | EmptyString => Err IndexError
  | String a EmptyString => Ok a
  | String _ s' => last_char s'
  end.

(** ** Counters and entropy *)

(** A [Counter] of class labels, in insertion order; counts only grow, so
    they are natural numbers. *)
Definition Counter : Type := list (string * nat).

Definition count (c : Counter) (y : string) : nat :=
  match lookup c y with
  | Some n => n
  | None => O
  end.

(** [c[y] += 1] *)
Fixpoint incr (c : Counter) (y : string) : Counter :=
  match c with
  | [] => [(y, 1)]
  | (k, n) :: c' =>
      if String.eqb k y then (k, S n) :: c' else (k, n) :: incr c' y
  end.

(** [a + b] on Counters: counts are added and only positive ones kept. *)
Definition counter_add (a b : Counter) : Counter :=
  filter (fun kv => 0 <? snd kv)
         (map (fun kv => (fst kv, snd kv + count b (fst kv))) a)
  ++ filter (fun kv => match lookup a (fst kv) with
                       | Some _ => false
                       | None => 0 <? snd kv
                       end) b.

(** [d.values()] *)
Definition values {K V} (d : list (K * V)) : list V := map snd d.

(** [entropy(d)], given [d.values()]: the pair of the entropy and of the
    total count [N]. *)
Definition entropy (vals : list nat) : R * nat :=
  let pos := filter (fun n => 0 <? n) vals in
  let N := list_sum pos in
  ((- Py.sum (map (fun n => INR n / INR N * log2 (INR n / INR N)) pos))%R, N).

(** ** BIN *)

(** The class-wide counter [BIN.id] only numbers the bins for display and
    is left out. *)
Module BIN.

Record t : Type := mk {
  at_ : nat;
  txt : string;
  lo : cell;
  hi : cell;
  ys : Counter
}.

(** [BIN(at, txt, lo, hi=None, ys=None)]: [hi or lo], [ys or Counter()]. *)
Definition new (at_ : nat) (txt : string) (lo : cell) (hi : option cell)
    (ys : option Counter) : t :=
  {| at_ := at_;
     txt := txt;
     lo := lo;
     hi := match hi with
           | Some h => if falsy h then lo else h
           | None => lo
           end;
     ys := match ys with
           | Some c => c
           | None => []
           end |}.

Definition add (i : t) (x : cell) (y : string) : result t :=
  lo' <- cell_min x (lo i) ;;
  hi' <- cell_max x (hi i) ;;
  Ok {| at_ := at_ i; txt := txt i; lo := lo'; hi := hi';
        ys := incr (ys i) y |}.

(** [merge]: [Ok None] is Python's [None], "nothing merged". *)
Definition merge (i j : t) (small : R) : result (option t) :=
  if Nat.eqb (at_ i) (at_ j) then
    lo' <- cell_min (lo i) (lo j) ;;
    hi' <- cell_max (hi i) (hi j) ;;
    let k := new (at_ i) (txt i) lo' (Some hi')
                 (Some (counter_add (ys i) (ys j))) in
    let '(ei, ni) := entropy (values (ys i)) in
    let '(ej, nj) := entropy (values (ys j)) in
    let '(ek, nk) := entropy (values (ys k)) in
    if Rltb (INR ni) small || Rltb (INR nj) small then Ok (Some k)
    else
      avg <- Py.div (INR ni * ei + INR nj * ej) (INR nk) ;;
      if Rleb ek avg then Ok (Some k) else Ok None
  else Ok None.

Definition selects (i : t) (row : Row) : result bool :=
  x <- index row (at_ i) ;;
  if missing x then Ok true
  else if cell_eqb (lo i) x && cell_eqb x (hi i) then Ok true
  else
    le <- cell_leb (lo i) x ;;
    if le then cell_ltb x (hi i) else Ok false.

(** [if klass not in what: what[klass] = []] *)
Definition setdefault (what : Classes) (klass : string) : Classes :=
  match lookup what klass with
  | Some _ => what
  | None => what ++ [(klass, [])]
  end.

(** [what.add(row)] on a dictionary: a [dict] has no attribute [add]. *)
Definition dict_add (what : Classes) (row : Row) : result Classes :=
  Err AttributeError.

(** The body of the inner loop of [selectsRejects], on the pair
    [(yes, no)]. *)
Definition selectsRejects_row (i : t) (klass : string)
    (yn : Classes * Classes) (row : Row) : result (Classes * Classes) :=
  sel <- selects i row ;;
  if (sel : bool) then
    yes' <- dict_add (setdefault (fst yn) klass) row ;;
    Ok (yes', snd yn)
  else
    no' <- dict_add (setdefault (snd yn) klass) row ;;
    Ok (fst yn, no').

Fixpoint selectsRejects_rows (i : t) (klass : string) (rows : Rows)
    (yn : Classes * Classes) : result (Classes * Classes) :=
  match rows with
  | [] => Ok yn
  | row :: rows' =>
      yn' <- selectsRejects_row i klass yn row ;;
      selectsRejects_rows i klass rows' yn'
  end.

Fixpoint selectsRejects_from (i : t) (classes : Classes)
    (yn : Classes * Classes) : result (Classes * Classes) :=
  match classes with
  | [] => Ok yn
  | (klass, rows) :: classes' =>
      yn' <- selectsRejects_rows i klass rows yn ;;
      selectsRejects_from i classes' yn'
  end.

Definition selectsRejects (i : t) (classes : Classes)
    : result (Classes * Classes) :=
  selectsRejects_from i classes ([], []).

End BIN.

(** [merges(b4, merge)]: one pass of the [while] loop, then the test that
    decides whether to go again. *)
Section Merges.
Variable merge : BIN.t -> BIN.t -> result (option BIN.t).

Fixpoint merges_pass (b4 : list BIN.t) : result (list BIN.t) :=
  match b4 with
  | [] => Ok []
  | a :: rest =>
      match rest with
      | [] => Ok [a]
      | b :: rest' =>
          tmp <- merge a b ;;
          match tmp with
          | Some ab => now <- merges_pass rest' ;; Ok (ab :: now)
          | None => now <- merges_pass rest ;; Ok (a :: now)
          end
      end
  end.

Definition inspect {A} (a : A) : {b : A | a = b} := exist _ a eq_refl.

Equations? merges (b4 : list BIN.t) : result (list BIN.t)
  by wf (length b4) lt :=
  merges b4 with inspect (merges_pass b4) := {
    | exist _ (Err e) _ := Err e;
    | exist _ (Ok now) Hnow with inspect (Nat.eqb (length now) (length b4)) := {
        | exist _ true _ := Ok b4;
        | exist _ false Hlen := merges now } }.
Proof.
  assert (L : forall n l now', length l = n ->
              merges_pass l = Ok now' -> length now' <= length l).
  { induction n as [n IH] using lt_wf_ind; intros l now' Hn H.
    destruct l as [|a [|b rest']].
    - inversion H; subst; simpl; lia.
    - inversion H; subst; simpl; lia.
    - change (merges_pass (a :: b :: rest')) with
        (tmp <- merge a b ;;
         match tmp with
         | Some ab => now <- merges_pass rest' ;; Ok (ab :: now)
         | None => now <- merges_pass (b :: rest') ;; Ok (a :: now)
         end) in H.
      destruct (merge a b) as [[ab|]|e]; cbn [bind] in H;
        try discriminate.
      + destruct (merges_pass rest') as [nw|e] eqn:E; cbn [bind] in H;
          try discriminate.
        inversion H; subst; simpl in *.
        assert (length nw <= length rest')
          by (apply (IH (length rest') ltac:(lia) rest' nw eq_refl E)).
        lia.
      + destruct (merges_pass (b :: rest')) as [nw|e] eqn:E;
          cbn [bind] in H; try discriminate.
        inversion H; subst.
        assert (length nw <= length (b :: rest'))
          by (apply (IH (S (length rest')) ltac:(simpl; lia) (b :: rest')
                        nw eq_refl E)).
        simpl in *. lia. }
  apply (L _ _ _ eq_refl) in Hnow.
  apply Nat.eqb_neq in Hlen. lia.
Qed.
End Merges.

(** ** Dictionaries keyed by cells, in insertion order *)

Fixpoint cget {V} (d : list (cell * V)) (x : cell) : option V :=
  match d with
  | [] => None
  | (k, v) :: d' => if cell_eqb k x then Some v else cget d' x
  end.

(** [d[x] = v] *)
Fixpoint cset {V} (d : list (cell * V)) (x : cell) (v : V) : list (cell * V) :=
  match d with
  | [] => [(x, v)]
  | (k, w) :: d' => if cell_eqb k x then (k, v) :: d' else (k, w) :: cset d' x v
  end.

(** ** [sorted(xs, key=...)]

    All keys are computed first, left to right; the list is then sorted
    with [<] on the keys. Python's sort is stable, so on keys that [<]
    orders totally its result is the one of any stable sort; insertion
    sort stands for it. *)
Section Sorted.
Variables (A K : Type).
Variable ltb : K -> K -> result bool.

Fixpoint insert_by (x : K * A) (l : list (K * A)) : result (list (K * A)) :=
  match l with
  | [] => Ok [x]
  | y :: l' =>
      lt <- ltb (fst y) (fst x) ;;
      if (lt : bool) then l'' <- insert_by x l' ;; Ok (y :: l'')
      else Ok (x :: y :: l')
  end.

Fixpoint sort_by (l : list (K * A)) : result (list (K * A)) :=
  match l with
  | [] => Ok []
  | x :: l' => s <- sort_by l' ;; insert_by x s
  end.

Definition sorted (key : A -> result K) (xs : list A) : result (list A) :=
  ks <- mapM (fun x => k <- key x ;; Ok (k, x)) xs ;;
  s <- sort_by ks ;;
  Ok (map snd s).
End Sorted.

(** [<] on floats never raises. *)
Definition float_ltb (x y : R) : result bool := Ok (Rltb x y).

(** ** SYM *)
Module SYM.

Record t : Type := mk {
  n : nat;
  at_ : nat;
  txt : string;
  has : list (cell * nat)
}.

Definition new (at_ : nat) (txt : string) : t :=
  {| n := 0; at_ := at_; txt := txt; has := [] |}.

(** [i.has.get(x, 0)] *)
Definition get (i : t) (x : cell) : nat :=
  match cget (has i) x with
  | Some v => v
  | None => O
  end.

Definition add (i : t) (x : cell) : t :=
  if missing x then i
  else {| n := n i + 1; at_ := at_ i; txt := txt i;
          has := cset (has i) x (get i x + 1) |}.

Definition bin (i : t) (x : cell) : cell := x.

Definition binsComplete (i : t) (bins : list BIN.t) : list BIN.t := bins.

(** [div] returns what [entropy] returns: a pair. *)
Definition div (i : t) : R * nat := entropy (values (has i)).

Definition like (the : The.t) (i : t) (x : cell) (prior : R) : result R :=
  Py.div (INR (get i x) + The.m the * prior) (INR (n i) + The.m the).

End SYM.

(** ** NUM *)
Module NUM.

Record t : Type := mk {
  n : nat;
  at_ : nat;
  txt : string;
  mu : R;
  m2 : R;
  lo : R;
  hi : R;
  heaven : R
}.

Definition new (at_ : nat) (txt : string) : result t :=
  z <- last_char txt ;;
  Ok {| n := 0; at_ := at_; txt := txt; mu := 0; m2 := 0;
        lo := big; hi := - big;
        heaven := if Ascii.eqb z "-" then 0 else 1 |}.

(** [add]: [n] is incremented before [x - mu] can raise on a string. *)
Definition add (i : t) (x : cell) : t * result unit :=
  if missing x then (i, Ok tt)
  else
    match x with
    | CStr _ =>
        ({| n := n i + 1; at_ := at_ i; txt := txt i; mu := mu i;
            m2 := m2 i; lo := lo i; hi := hi i; heaven := heaven i |},
         Err TypeError)
    | CNum v =>
        let d := (v - mu i)%R in
        let mu' := (mu i + d / INR (n i + 1))%R in
        ({| n := n i + 1; at_ := at_ i; txt := txt i; mu := mu';
            m2 := (m2 i + d * (v - mu'))%R;
            lo := Rmin v (lo i); hi := Rmax v (hi i);
            heaven := heaven i |},
         Ok tt)
    end.

(** [norm]: the missing mark is returned as it is. *)
Definition norm (i : t) (x : cell) : result cell :=
  if missing x then Ok x
  else
    match x with
    | CStr _ => Err TypeError
    | CNum v =>
        q <- Py.div (v - lo i) (hi i - lo i + tiny) ;;
        Ok (CNum q)
    end.

(** [bin]: on the missing mark, [the.Bins * "?"] is a string that [int]
    refuses. *)
Definition bin (the : The.t) (i : t) (x : cell) : result Z :=
  nx <- norm i x ;;
  match nx with
  | CStr _ => Err ValueError
  | CNum v => Ok (Z.min (The.Bins the - 1) (int (IZR (The.Bins the) * v)))
  end.

Definition d2h (i : t) (x : cell) : result R :=
  nx <- norm i x ;;
  match nx with
  | CStr _ => Err TypeError
  | CNum v => Ok (Rabs (v - heaven i))
  end.

Definition div (i : t) : R :=
  if n i <? 2 then 0%R else pow_half (m2 i / (INR (n i) - 1)).

Definition mid (i : t) : R := mu i.

Definition like (i : t) (x : cell) (prior : R) : result R :=
  let v := (sq (div i) + tiny)%R in
  match x with
  | CStr _ => Err TypeError
  | CNum xv =>
      e <- Py.div (-1 * sq (xv - mu i)) (2 * v) ;;
      let nom := (exp e + tiny)%R in
      let denom := pow_half (2 * PI * v) in
      q <- Py.div nom (denom + tiny) ;;
      Ok (Rmin 1 q)
  end.

Definition set_lo (b : BIN.t) (v : cell) : BIN.t :=
  {| BIN.at_ := BIN.at_ b; BIN.txt := BIN.txt b; BIN.lo := v;
     BIN.hi := BIN.hi b; BIN.ys := BIN.ys b |}.

Definition set_hi (b : BIN.t) (v : cell) : BIN.t :=
  {| BIN.at_ := BIN.at_ b; BIN.txt := BIN.txt b; BIN.lo := BIN.lo b;
     BIN.hi := v; BIN.ys := BIN.ys b |}.

(** [bins[0].lo = -big] *)
Definition set_first_lo (bins : list BIN.t) : result (list BIN.t) :=
  match bins with
  | [] => Err IndexError
  | b :: bs => Ok (set_lo b (CNum (- big)) :: bs)
  end.

(** [bins[-1].hi = big], on a list known not to be empty. *)
Fixpoint set_last_hi (bins : list BIN.t) : list BIN.t :=
  match bins with
  | [] => []
  | b :: bs =>
      match bs with
      | [] => [set_hi b (CNum big)]
      | _ :: _ => b :: set_last_hi bs
      end
  end.

(** [for j in range(1, len(bins)): bins[j].lo = bins[j-1].hi], with
    [prev] the bin at [j-1]. *)
Fixpoint stitch (prev : BIN.t) (bins : list BIN.t) : list BIN.t :=
  match bins with
  | [] => []
  | b :: bs => let b' := set_lo b (BIN.hi prev) in b' :: stitch b' bs
  end.

Definition binsComplete (i : t) (bins : list BIN.t) (small : R)
    : result (list BIN.t) :=
  bins1 <- merges (fun x y => BIN.merge x y small) bins ;;
  bins2 <- set_first_lo bins1 ;;
  match set_last_hi bins2 with
  | [] => Ok []
  | b :: bs => Ok (b :: stitch b bs)
  end.

End NUM.

(** ** COL: the two kinds of column *)
Module COL.

Inductive t : Type :=
| Num (c : NUM.t)
| Sym (c : SYM.t).

Definition at_ (i : t) : nat :=
  match i with Num c => NUM.at_ c | Sym c => SYM.at_ c end.

Definition txt (i : t) : string :=
  match i with Num c => NUM.txt c | Sym c => SYM.txt c end.

Definition n (i : t) : nat :=
  match i with Num c => NUM.n c | Sym c => SYM.n c end.

Definition add (i : t) (x : cell) : t * result unit :=
  match i with
  | Num c => let (c', r) := NUM.add c x in (Num c', r)
  | Sym c => (Sym (SYM.add c x), Ok tt)
  end.

(** What [div()] returns: a number, or the pair that [entropy] returns. *)
Inductive div_value : Type :=
| Number (x : R)
| Pair (e : R) (N : nat).

Definition div (i : t) : div_value :=
  match i with
  | Num c => Number (NUM.div c)
  | Sym c => let (e, N) := SYM.div c in Pair e N
  end.

Definition like (the : The.t) (i : t) (x : cell) (prior : R) : result R :=
  match i with
  | Num c => NUM.like c x prior
  | Sym c => SYM.like the c x prior
  end.

(** [d2h] exists on NUM only. *)
Definition d2h (i : t) (x : cell) : result R :=
  match i with
  | Num c => NUM.d2h c x
  | Sym _ => Err AttributeError
  end.

(** The key of the initial bin of [x]. *)
Definition bin (the : The.t) (i : t) (x : cell) : result cell :=
  match i with
  | Num c => k <- NUM.bin the c x ;; Ok (CNum (IZR k))
  | Sym c => Ok (SYM.bin c x)
  end.

Definition binsComplete (i : t) (bins : list BIN.t) (small : R)
    : result (list BIN.t) :=
  match i with
  | Num c => NUM.binsComplete c bins small
  | Sym c => Ok (SYM.binsComplete c bins)
  end.

Definition send2bin (the : The.t) (i : t) (out : list (cell * BIN.t))
    (x : cell) (y : string) : result (list (cell * BIN.t)) :=
  k <- bin the i x ;;
  let b := match cget out k with
           | Some b => b
           | None => BIN.new (at_ i) (txt i) x None None
           end in
  b' <- BIN.add b x y ;;
  Ok (cset out k b').

(** The comprehension of [bins] over the rows of one class. *)
Fixpoint send_rows (the : The.t) (i : t) (y : string) (lst : Rows)
    (out : list (cell * BIN.t)) : result (list (cell * BIN.t)) :=
  match lst with
  | [] => Ok out
  | row :: lst' =>
      x <- index row (at_ i) ;;
      out' <- (if missing x then Ok out else send2bin the i out x y) ;;
      send_rows the i y lst' out'
  end.

Fixpoint send_classes (the : The.t) (i : t) (classes : Classes)
    (out : list (cell * BIN.t)) : result (list (cell * BIN.t)) :=
  match classes with
  | [] => Ok out
  | (y, lst) :: classes' =>
      out' <- send_rows the i y lst out ;;
      send_classes the i classes' out'
  end.

(** [sum(len(lst) for lst in classes.values())] *)
Definition total (classes : Classes) : nat :=
  list_sum (map (fun kv => length (snd kv)) classes).

(** [small or (total / the.Bins)]: [None] and [0] are both false. *)
Definition small_or (the : The.t) (classes : Classes) (small : option R)
    : result R :=
  let default := Py.div (INR (total classes)) (IZR (The.Bins the)) in
  match small with
  | None => default
  | Some s => if Reqb s 0 then default else Ok s
  end.

Definition bins (the : The.t) (i : t) (classes : Classes)
    (small : option R) : result (list BIN.t) :=
  out <- send_classes the i classes [] ;;
  srt <- sorted cell_ltb (fun z => Ok (BIN.lo z)) (values out) ;;
  sm <- small_or the classes small ;;
  binsComplete i srt sm.

End COL.

(** ** COLS *)

(** [i.all] holds the columns. [i.x], [i.y] and [i.klass] refer to the
    same column objects, chosen once by the last character of [txt],
    which is never assigned again: they are views computed from [all]. *)
Module COLS.

Record t : Type := mk {
  all : list COL.t;
  names : Row
}.

(** [a.isupper()] on one character. *)
Definition isupper (a : ascii) : bool :=
  let c := nat_of_ascii a in (65 <=? c) && (c <=? 90).

(** [z in "!+-"] *)
Definition is_goal_char (z : ascii) : bool :=
  Ascii.eqb z "!" || Ascii.eqb z "+" || Ascii.eqb z "-".

Definition new_col (at_ : nat) (name : cell) : result COL.t :=
  match name with
  | CNum _ => Err TypeError
  | CStr txt =>
      a <- first_char txt ;;
      z <- last_char txt ;;
      if isupper a then c <- NUM.new at_ txt ;; Ok (COL.Num c)
      else Ok (COL.Sym (SYM.new at_ txt))
  end.

Fixpoint new_cols (at_ : nat) (names : Row) : result (list COL.t) :=
  match names with
  | [] => Ok []
  | name :: names' =>
      c <- new_col at_ name ;;
      cs <- new_cols (S at_) names' ;;
      Ok (c :: cs)
  end.

Definition new (names : Row) : result t :=
  cs <- new_cols 0 names ;;
  Ok {| all := cs; names := names |}.

Definition in_y (c : COL.t) : bool :=
  match last_char (COL.txt c) with
  | Ok z => negb (Ascii.eqb z "X") && is_goal_char z
  | Err _ => false
  end.

Definition in_x (c : COL.t) : bool :=
  match last_char (COL.txt c) with
  | Ok z => negb (Ascii.eqb z "X") && negb (is_goal_char z)
  | Err _ => false
  end.

Definition is_klass (c : COL.t) : bool :=
  match last_char (COL.txt c) with
  | Ok z => Ascii.eqb z "!"
  | Err _ => false
  end.

Definition x (i : t) : list COL.t := filter in_x (all i).
Definition y (i : t) : list COL.t := filter in_y (all i).

(** The last column whose name ends in "!", [None] without one. *)
Definition klass (i : t) : option COL.t :=
  last (map Some (filter is_klass (all i))) None.

(** The comprehension of [add], column by column; the columns already
    updated stay updated when a later one raises. *)
Fixpoint add_cols (cs : list COL.t) (row : Row) : list COL.t * result unit :=
  match cs with
  | [] => ([], Ok tt)
  | c :: cs' =>
      match index row (COL.at_ c) with
      | Err e => (c :: cs', Err e)
      | Ok v =>
          let (c', r) := if missing v then (c, Ok tt) else COL.add c v in
          match r with
          | Err e => (c' :: cs', Err e)
          | Ok _ => let (cs'', r') := add_cols cs' row in (c' :: cs'', r')
          end
      end
  end.

Definition add (i : t) (row : Row) : t * result Row :=
  let (cs, r) := add_cols (all i) row in
  ({| all := cs; names := names i |},
   match r with Ok _ => Ok row | Err e => Err e end).

End COLS.

(** ** DATA *)

(** The optional visitor [fun] of [DATA] and [DATA.add] is [None] on every
    path followed here and is left out; [NB.data_add] below is [DATA.add]
    with the visitor. *)
Module DATA.

Record t : Type := mk {
  rows : Rows;
  cols : option COLS.t
}.

Definition empty : t := {| rows := []; cols := None |}.

(** [i.cols] where an attribute of it is read next. *)
Definition the_cols (i : t) : result COLS.t :=
  match cols i with
  | Some c => Ok c
  | None => Err AttributeError
  end.

Definition add (i : t) (row : Row) : t * result unit :=
  match cols i with
  | Some c =>
      let (c', r) := COLS.add c row in
      match r with
      | Ok row' => ({| rows := rows i ++ [row']; cols := Some c' |}, Ok tt)
      | Err e => ({| rows := rows i; cols := Some c' |}, Err e)
      end
  | None =>
      match COLS.new row with
      | Ok c => ({| rows := rows i; cols := Some c |}, Ok tt)
      | Err e => (i, Err e)
      end
  end.

(** [[i.add(lst) for lst in src]] *)
Fixpoint adds (i : t) (src : list Row) : t * result unit :=
  match src with
  | [] => (i, Ok tt)
  | lst :: src' =>
      let (i', r) := add i lst in
      match r with
      | Ok _ => adds i' src'
      | Err e => (i', Err e)
      end
  end.

Definition d2h (i : t) (row : Row) : result R :=
  c <- the_cols i ;;
  ds <- mapM (fun col => v <- index row (COL.at_ col) ;;
                         d <- COL.d2h col v ;;
                         Ok (sq d)) (COLS.y c) ;;
  q <- Py.div (Py.sum ds) (INR (length (COLS.y c))) ;;
  Ok (pow_half q).

Definition order (i : t) : t * result Rows :=
  match sorted float_ltb (d2h i) (rows i) with
  | Ok rs => ({| rows := rs; cols := cols i |}, Ok rs)
  | Err e => (i, Err e)
  end.

(** [DATA(src, order)]: the object under construction, also when the
    construction raises. *)
Definition new (src : list Row) (ord : bool) : t * result unit :=
  let (i, r) := adds empty src in
  match r with
  | Err e => (i, Err e)
  | Ok _ =>
      if ord then
        let (i', r') := order i in
        (i', match r' with Ok _ => Ok tt | Err e => Err e end)
      else (i, Ok tt)
  end.

(** The likelihoods of the non-missing cells of the independent columns. *)
Fixpoint likes (the : The.t) (xs : list COL.t) (row : Row) (prior : R)
    : result (list R) :=
  match xs with
  | [] => Ok []
  | c :: xs' =>
      v <- index row (COL.at_ c) ;;
      if missing v then likes the xs' row prior
      else
        l <- COL.like the c v prior ;;
        ls <- likes the xs' row prior ;;
        Ok (l :: ls)
  end.

Definition loglike (the : The.t) (i : t) (row : Row) (nall nh : nat)
    : result R :=
  prior <- Py.div (INR (length (rows i)) + The.k the)
                  (INR nall + The.k the * INR nh) ;;
  c <- the_cols i ;;
  ls <- likes the (COLS.x c) row prior ;;
  Ok (Py.sum (map ln (filter (fun x => Rltb 0 x) (ls ++ [prior])))).

End DATA.

(** ** The store of DATA objects

    A DATA is a mutable object passed by reference: [smo] receives one,
    shuffles its rows in place and builds further DATA objects with
    [clone]. The store maps references to objects; [next] is the first
    reference not yet given out. Row lists and columns are owned by their
    DATA: slices, [[names] + lst] and [sorted] all build new lists, and
    [COLS(names)] builds new columns. *)
Module Store.

Record t : Type := mk {
  next : nat;
  obj : nat -> DATA.t
}.

Definition M (A : Type) : Type := t -> t * result A.

Definition ret {A} (a : A) : M A := fun h => (h, Ok a).

Definition raise {A} (e : exn) : M A := fun h => (h, Err e).

Definition lift {A} (r : result A) : M A := fun h => (h, r).

Definition bind {A B} (c : M A) (f : A -> M B) : M B :=
  fun h =>
    let (h', r) := c h in
    match r with
    | Ok a => f a h'
    | Err e => (h', Err e)
    end.

Definition upd (h : t) (l : nat) (d : DATA.t) : t :=
  {| next := next h;
     obj := fun l' => if Nat.eqb l' l then d else obj h l' |}.

(** Read the object behind a reference. *)
Definition read (l : nat) : M DATA.t := fun h => (h, Ok (obj h l)).

(** Run a method on the object behind a reference. *)
Definition on {A} (l : nat) (f : DATA.t -> DATA.t * result A) : M A :=
  fun h => let (d, r) := f (obj h l) in (upd h l d, r).

(** [DATA(src, order=ord)]: a new object. *)
Definition new (src : list Row) (ord : bool) : M nat :=
  fun h =>
    let l := next h in
    let (d, r) := DATA.new src ord in
    ({| next := S l;
        obj := fun l' => if Nat.eqb l' l then d else obj h l' |},
     match r with Ok _ => Ok l | Err e => Err e end).

(** [i.clone(lst, order=ord)] *)
Definition clone (i : nat) (lst : list Row) (ord : bool) : M nat :=
  bind (read i) (fun d =>
  bind (lift (DATA.the_cols d)) (fun c =>
  new (COLS.names c :: lst) ord)).

End Store.

Notation "x <~ e ;; k" := (Store.bind e (fun x => k))
  (at level 61, e at next level, right associativity).

(** ** [random.shuffle]

    The library's loop: for [i] from [len(x) - 1] down to 1, draw [j]
    below [i + 1] and exchange [x[i]] and [x[j]]. The draws of the
    generator are the list [js]. *)
Section Shuffle.
Variable A : Type.

Fixpoint set_nth (l : list A) (i : nat) (v : A) : list A :=
  match l, i with
  | [], _ => []
  | _ :: l', O => v :: l'
  | a :: l', S i' => a :: set_nth l' i' v
  end.

(** [x[i], x[j] = x[j], x[i]] *)
Definition swap (l : list A) (i j : nat) : list A :=
  match nth_error l i, nth_error l j with
  | Some a, Some b => set_nth (set_nth l i b) j a
  | _, _ => l
  end.

Fixpoint shuffle_from (i : nat) (js : list nat) (x : list A) : list A :=
  match i with
  | O => x
  | S i' => shuffle_from i' (tl js) (swap x i (hd 0 js mod (i + 1)))
  end.

Definition shuffle (js : list nat) (x : list A) : list A :=
  shuffle_from (length x - 1) js x.
End Shuffle.

(** ** smo *)
Module Smo.

Record state : Type := mk {
  done : Rows;
  todo : Rows;
  data1 : nat
}.

Section WithSettings.
Variable the : The.t.
Variable score : R -> R -> R.

(** The default [score]. *)
Definition B_minus_R (b r : R) : R := (b - r)%R.

Definition like (row : Row) (data : DATA.t) : result R :=
  DATA.loglike the data row (length (DATA.rows data)) 2.

Definition acquire (best rest : nat) (rows : Rows) : Store.M Rows :=
  let chop := int (INR (length rows) * The.Top the) in
  b <~ Store.read best ;;
  r <~ Store.read rest ;;
  s <~ Store.lift (sorted float_ltb
                     (fun row => lb <- like row b ;;
                                 lr <- like row r ;;
                                 Ok (- score lb lr)%R) rows) ;;
  Store.ret (slice_to s chop).

(** One turn of the [for] loop; [None] is [break]. *)
Definition step (data0 : nat) (st : state) : Store.M (option state) :=
  if length (todo st) <? 3 then Store.ret None
  else
    p <~ Store.lift (len_pow (length (done st)) (The.best the)) ;;
    let n := int (p + 0.5) in
    d1 <~ Store.read (data1 st) ;;
    best <~ Store.clone data0 (slice_to (DATA.rows d1) n) false ;;
    d1' <~ Store.read (data1 st) ;;
    rest <~ Store.clone data0 (slice_from (DATA.rows d1') n) false ;;
    acq <~ acquire best rest (todo st) ;;
    match acq with
    | [] => Store.raise ValueError
    | top :: todo' =>
        let done' := done st ++ [top] in
        d <~ Store.clone data0 done' true ;;
        Store.ret (Some {| done := done'; todo := todo'; data1 := d |})
    end.

Fixpoint loop (data0 : nat) (budget : nat) (st : state) : Store.M state :=
  match budget with
  | O => Store.ret st
  | S budget' =>
      o <~ step data0 st ;;
      match o with
      | None => Store.ret st
      | Some st' => loop data0 budget' st'
      end
  end.

(** [smo] up to the end of its loop. *)
Definition run (js : list nat) (data0 : nat) : Store.M state :=
  _ <~ Store.on data0 (fun d =>
         ({| DATA.rows := shuffle js (DATA.rows d);
             DATA.cols := DATA.cols d |}, Ok tt)) ;;
  d0 <~ Store.read data0 ;;
  let done := slice_to (DATA.rows d0) (The.budget0 the) in
  let todo := slice_from (DATA.rows d0) (The.budget0 the) in
  data1 <~ Store.clone data0 done true ;;
  loop data0 (Z.to_nat (The.Budget the))
       {| done := done; todo := todo; data1 := data1 |}.

Definition smo (js : list nat) (data0 : nat) : Store.M Row :=
  st <~ run js data0 ;;
  d1 <~ Store.read (data1 st) ;;
  Store.lift (index (DATA.rows d1) 0).

End WithSettings.
End Smo.

(** ** tree *)
Module Tree.

Inductive node : Type :=
| Leaf (yes : Classes) (lvl : nat)
| Branch (lvl : nat) (at_ : nat) (txt : string) (lo hi : cell)
         (yes no : node).

(** [max(xs, key=...)]: the first of the largest. *)
Fixpoint max_from {A} (key : A -> result R) (best : A) (kbest : R)
    (xs : list A) : result A :=
  match xs with
  | [] => Ok best
  | x :: xs' =>
      kx <- key x ;;
      if Rltb kbest kx then max_from key x kx xs'
      else max_from key best kbest xs'
  end.

Definition max_by {A} (key : A -> result R) (xs : list A) : result A :=
  match xs with
  | [] => Err ValueError
  | x :: xs' => kx <- key x ;; max_from key x kx xs'
  end.

Section WithSettings.
Variable the : The.t.
Variable score : R -> R -> R.
Variables best rest : string.
Variables BEST REST : nat.
Variable BINS : list BIN.t.

(** The counts [b] and [r] of [order], over the rows of one class and
    over all classes. *)
Fixpoint count_rows (bin : BIN.t) (k : string) (rows : Rows)
    (br : nat * nat) : result (nat * nat) :=
  match rows with
  | [] => Ok br
  | row :: rows' =>
      sel <- BIN.selects bin row ;;
      count_rows bin k rows'
        (if (sel : bool)
         then if String.eqb k best then (S (fst br), snd br)
              else (fst br, S (snd br))
         else br)
  end.

Fixpoint count_classes (bin : BIN.t) (classes : Classes) (br : nat * nat)
    : result (nat * nat) :=
  match classes with
  | [] => Ok br
  | (k, rows) :: classes' =>
      br' <- count_rows bin k rows br ;;
      count_classes bin classes' br'
  end.

Definition order (classes : Classes) (bin : BIN.t) : result R :=
  br <- count_classes bin classes (0, 0) ;;
  b <- Py.div (INR (fst br)) (INR BEST + tiny) ;;
  r <- Py.div (INR (snd br)) (INR REST + tiny) ;;
  Ok (score b r).

(** [grow]; [fuel] bounds the depth of the recursion. *)
Fixpoint grow (fuel : nat) (classes : Classes) (lvl : nat) (above : nat)
    : option (result node) :=
  match fuel with
  | O => None
  | S fuel' =>
      match getitem classes best with
      | Err e => Some (Err e)
      | Ok rows =>
          let nBest := length rows in
          if (Z.of_nat nBest <=? The.leaf the)%Z || Nat.eqb nBest above
          then Some (Ok (Leaf classes lvl))
          else
            match max_by (order classes) BINS with
            | Err e => Some (Err e)
            | Ok bin =>
                match BIN.selectsRejects bin classes with
                | Err e => Some (Err e)
                | Ok (yes, no) =>
                    match grow fuel' yes (lvl + 1) nBest with
                    | None => None
                    | Some (Err e) => Some (Err e)
                    | Some (Ok y) =>
                        match grow fuel' no (lvl + 1) nBest with
                        | None => None
                        | Some (Err e) => Some (Err e)
                        | Some (Ok n) =>
                            Some (Ok (Branch lvl (BIN.at_ bin) (BIN.txt bin)
                                             (BIN.lo bin) (BIN.hi bin) y n))
                        end
                    end
                end
            end
      end
  end.
End WithSettings.

(** [[bin for col in data.cols.x for bin in col.bins(classes)]] *)
Fixpoint all_bins (the : The.t) (xs : list COL.t) (classes : Classes)
    : result (list BIN.t) :=
  match xs with
  | [] => Ok []
  | col :: xs' =>
      bs <- COL.bins the col classes None ;;
      rest <- all_bins the xs' classes ;;
      Ok (bs ++ rest)
  end.

(** [tree]: [None] only when [fuel] runs out. *)
Definition tree (the : The.t) (score : R -> R -> R) (fuel : nat)
    (data : DATA.t) (classes : Classes) (best rest : string)
    : option (result node) :=
  match getitem classes best with
  | Err e => Some (Err e)
  | Ok rbest =>
      match getitem classes rest with
      | Err e => Some (Err e)
      | Ok rrest =>
          match (c <- DATA.the_cols data ;;
                 all_bins the (COLS.x c) classes) with
          | Err e => Some (Err e)
          | Ok BINS =>
              grow the score best (length rbest) (length rrest) BINS
                   fuel classes 0 (length rbest)
          end
      end
  end.

End Tree.

(** ** SYM.mid *)

(** [max(i.has, key=i.has.get)]: [max] walks the keys of the dictionary
    in insertion order; on an empty one it raises ValueError. *)
Definition SYM_mid (i : SYM.t) : result cell :=
  Tree.max_by (fun k => Ok (INR (SYM.get i k))) (map fst (SYM.has i)).

(** ** NB: the visitor that a DATA carries along

    [NB.run] is the [fun] that [DATA(src, fun=nb.run)] hands to
    [DATA.add]. The datasets that an NB keeps, one for each class, are
    reached through its dictionary [datas] only: each is a new object
    made by [clone], so the dictionary holds them by value. *)

(** [i.clone(lst, order)], as the new object alone. *)
Definition DATA_clone (i : DATA.t) (lst : Rows) (ord : bool)
    : result DATA.t :=
  c <- DATA.the_cols i ;;
  let (d, r) := DATA.new (COLS.names c :: lst) ord in
  _ <- r ;; Ok d.

Module NB.

Record t : Type := mk {
  nall : nat;
  datas : list (cell * DATA.t);
  acc : nat
}.

Definition new : t := {| nall := 0; datas := []; acc := 0 |}.

(** [i.datas[k]] *)
Definition data_of (i : t) (k : cell) : result DATA.t :=
  match cget (datas i) k with
  | Some d => Ok d
  | None => Err KeyError
  end.

Definition classify (the : The.t) (i : t) (data : DATA.t) (row : Row)
    : result cell :=
  Tree.max_by (fun k => d <- data_of i k ;;
                        DATA.loglike the d row (nall i) (length (datas i)))
              (map fst (datas i)).

(** [row[data.cols.klass.at]] *)
Definition want_of (data : DATA.t) (row : Row) : result cell :=
  c <- DATA.the_cols data ;;
  match COLS.klass c with
  | None => Err AttributeError
  | Some k => index row (COL.at_ k)
  end.

(** [run]: what has been assigned before an error stays assigned. *)
Definition run (the : The.t) (i : t) (data : DATA.t) (row : Row)
    : t * result unit :=
  match want_of data row with
  | Err e => (i, Err e)
  | Ok want =>
      let i1 := {| nall := nall i + 1; datas := datas i; acc := acc i |} in
      match (if 10 <? nall i1
             then got <- classify the i1 data row ;;
                  Ok (acc i1 + (if cell_eqb want got then 1 else 0))
             else Ok (acc i1)) with
      | Err e => (i1, Err e)
      | Ok acc' =>
          let i2 := {| nall := nall i1; datas := datas i1; acc := acc' |} in
          match (match cget (datas i2) want with
                 | Some d => Ok (datas i2, d)
                 | None => d <- DATA_clone data [] false ;;
                           Ok (cset (datas i2) want d, d)
                 end) with
          | Err e => (i2, Err e)
          | Ok (ds, d) =>
              let (d', r) := DATA.add d row in
              ({| nall := nall i2; datas := cset ds want d'; acc := acc' |},
               r)
          end
      end
  end.

(** [DATA.add(row, fun)] with [fun = nb.run]: the visitor sees the row
    before the DATA stores it, and not the header. *)
Definition data_add (the : The.t) (nb : t) (i : DATA.t) (row : Row)
    : (t * DATA.t) * result unit :=
  match DATA.cols i with
  | Some _ =>
      let (nb', r) := run the nb i row in
      match r with
      | Err e => ((nb', i), Err e)
      | Ok _ => let (i', r') := DATA.add i row in ((nb', i'), r')
      end
  | None => let (i', r') := DATA.add i row in ((nb, i'), r')
  end.

Fixpoint data_adds (the : The.t) (nb : t) (i : DATA.t) (src : list Row)
    : (t * DATA.t) * result unit :=
  match src with
  | [] => ((nb, i), Ok tt)
  | lst :: src' =>
      let (s, r) := data_add the nb i lst in
      match r with
      | Ok _ => data_adds the (fst s) (snd s) src'
      | Err e => (s, Err e)
      end
  end.

(** [DATA(src, order, fun=nb.run)] *)
Definition data_new (the : The.t) (nb : t) (src : list Row) (ord : bool)
    : (t * DATA.t) * result unit :=
  let (s, r) := data_adds the nb DATA.empty src in
  match r with
  | Err e => (s, Err e)
  | Ok _ =>
      if ord then
        let (i', r') := DATA.order (snd s) in
        ((fst s, i'), match r' with Ok _ => Ok tt | Err e => Err e end)
      else (s, Ok tt)
  end.

End NB.

(** * The vocabulary of the properties *)

Unset Implicit Arguments.

(** Every column sits at its own index, and there is one per name: what
    the constructor of COLS establishes. *)
Definition positioned (c : COLS.t) : Prop :=
  length (COLS.all c) = length (COLS.names c) /\
  forall i col, nth_error (COLS.all c) i = Some col -> COL.at_ col = i.

(** The total count and the entropy of a counter, as [entropy] returns
    them. *)
Definition total_count (c : Counter) : nat := snd (entropy (values c)).
Definition entropy_of (c : Counter) : R := fst (entropy (values c)).

(** The likelihood of a cell under a column summary, where it is defined:
    the m-estimate of a SYM, the clipped Gaussian density of a NUM. *)
Definition like_value (the : The.t) (col : COL.t) (v : cell) (prior : R) : R :=
  match col with
  | COL.Sym c =>
      ((INR (SYM.get c v) + The.m the * prior)
       / (INR (SYM.n c) + The.m the))%R
  | COL.Num c =>
      match v with
      | CNum x =>
          let var := (NUM.div c * NUM.div c + tiny)%R in
          Rmin 1 ((exp (-1 * ((x - NUM.mu c) * (x - NUM.mu c)) / (2 * var))
                   + tiny)
                  / (sqrt (2 * PI * var) + tiny))
      | CStr _ => 0%R
      end
  end.

(** The cells for which [like] does not raise. *)
Definition like_defined (the : The.t) (col : COL.t) (v : cell) : Prop :=
  match col with
  | COL.Sym c => (INR (SYM.n c) + The.m the)%R <> 0%R
  | COL.Num _ => exists x, v = CNum x
  end.

(** The natural log of a likelihood; a non-positive one contributes
    nothing. *)
Definition log_term (l : R) : R := if Rltb 0 l then ln l else 0%R.

(** The sum, over the independent columns, of the log-likelihoods of the
    row's non-missing cells, in the words of the specification. *)
Fixpoint sum_log_likes (the : The.t) (xs : list COL.t) (row : Row)
    (prior : R) : R :=
  match xs with
  | [] => 0%R
  | col :: xs' =>
      (match nth_error row (COL.at_ col) with
       | Some v => if missing v then 0
                   else log_term (like_value the col v prior)
       | None => 0
       end + sum_log_likes the xs' row prior)%R
  end.

(** The insertion sort that [sorted] runs when the keys are floats. *)
Fixpoint insert_key {A} (x : R * A) (l : list (R * A)) : list (R * A) :=
  match l with
  | [] => [x]
  | y :: l' =>
      if Rltb (fst y) (fst x) then y :: insert_key x l' else x :: y :: l'
  end.

Fixpoint isort {A} (l : list (R * A)) : list (R * A) :=
  match l with
  | [] => []
  | x :: l' => insert_key x (isort l')
  end.

Definition key_le {A} (a b : R * A) : Prop := (fst a <= fst b)%R.

Definition key_value {A} (key : A -> result R) (x : A) : R :=
  match key x with Ok v => v | Err _ => 0%R end.

Definition keyed {A} (key : A -> result R) (xs : list A) : list (R * A) :=
  map (fun x => (key_value key x, x)) xs.

Definition ranked {A} (key : A -> result R) (xs : list A) : list A :=
  map snd (isort (keyed key xs)).

(** The key of [order]: [d2h] where it is defined. *)
Definition d2h_value (d : DATA.t) (row : Row) : R :=
  key_value (DATA.d2h d) row.

(** The root of the mean of the squares, in the words of the
    specification. *)
Definition root_mean_square (ds : list R) : R :=
  sqrt (fold_right Rplus 0%R (map (fun x => x * x)%R ds)
        / INR (length ds)).

(** [h'] extends [h]: the objects of [h] are unchanged. *)
Definition extends (h h' : Store.t) : Prop :=
  Store.next h <= Store.next h' /\
  forall l, l < Store.next h -> Store.obj h' l = Store.obj h l.

(** A computation that only reads, and writes only to new objects. *)
Definition framed {A} (c : Store.M A) : Prop :=
  forall h, extends h (fst (c h)).

(** A bin of column [at_] over the numbers from [l] to [h], below [big],
    that has counted at least one row. *)
Definition good_bin (at_ : nat) (b : BIN.t) (l h : R) : Prop :=
  BIN.at_ b = at_ /\ BIN.lo b = CNum l /\ BIN.hi b = CNum h /\
  (l <= h)%R /\ (h < big)%R /\ 0 < total_count (BIN.ys b).

(** Bins in ascending order, each strictly above the one before it and
    above [prev]. *)
Fixpoint chain (at_ : nat) (prev : R) (bins : list BIN.t) : Prop :=
  match bins with
  | [] => True
  | b :: bs =>
      exists l h, good_bin at_ b l h /\ (prev < l)%R /\ chain at_ h bs
  end.

(** The upper bounds alone: strictly rising above [prev] and below [big]. *)
Fixpoint rising_below (at_ : nat) (prev : R) (bins : list BIN.t) : Prop :=
  match bins with
  | [] => True
  | b :: bs =>
      BIN.at_ b = at_ /\
      exists h, BIN.hi b = CNum h /\ (prev < h)%R /\ (h < big)%R /\
                rising_below at_ h bs
  end.

(** The same once the last upper bound is [big]. *)
Fixpoint rising_to_big (at_ : nat) (prev : R) (bins : list BIN.t) : Prop :=
  match bins with
  | [] => prev = big
  | b :: bs =>
      BIN.at_ b = at_ /\
      exists h, BIN.hi b = CNum h /\ (prev < h)%R /\ rising_to_big at_ h bs
  end.

(** The finished list: each bin starts where the one before it ends, the
    first at [prev], the last ending at [big]. *)
Fixpoint contiguous (at_ : nat) (prev : R) (bins : list BIN.t) : Prop :=
  match bins with
  | [] => prev = big
  | b :: bs =>
      BIN.at_ b = at_ /\ BIN.lo b = CNum prev /\
      exists h, BIN.hi b = CNum h /\ (prev < h)%R /\ contiguous at_ h bs
  end.

(** The key [NUM.bin] gives to a number. *)
Definition zkey (the : The.t) (c : NUM.t) (x : R) : Z :=
  Z.min (The.Bins the - 1)
        (Py.int (IZR (The.Bins the)
                 * ((x - NUM.lo c) / (NUM.hi c - NUM.lo c + tiny)))).

(** A cell that the Discretizer can take: missing, or a number strictly
    between [-big] and [big]. *)
Definition cell_in_range (v : cell) : Prop :=
  missing v = true \/ exists x, v = CNum x /\ (- big < x < big)%R.

(** An entry of the dictionary [out]: the bin's bounds are values of the
    column that both have the entry's key. *)
Definition entry_ok (the : The.t) (c : NUM.t) (kb : cell * BIN.t) : Prop :=
  exists l h, good_bin (NUM.at_ c) (snd kb) l h /\ (- big < l)%R /\
              fst kb = CNum (IZR (zkey the c l)) /\
              zkey the c h = zkey the c l.

Definition grouped (the : The.t) (c : NUM.t) (out : list (cell * BIN.t)) : Prop :=
  Forall (entry_ok the c) out /\ NoDup (map fst out).

Definition rows_in_range (c : NUM.t) (lst : Rows) : Prop :=
  Forall (fun row => exists v, nth_error row (NUM.at_ c) = Some v /\
                               cell_in_range v) lst.

Definition numkey {A} (p : R * A) : cell * A := (CNum (fst p), snd p).

Definition lo_num (b : BIN.t) : R :=
  match BIN.lo b with CNum l => l | CStr _ => 0%R end.

Definition by_lo (b : BIN.t) : result R := Ok (lo_num b).

(** What the finished list [bins] of the column at [at_] satisfies over
    the partition [classes]: it is not empty, starts at [-big], ends at
    [big], each bin starts where the one before it ends and strictly
    after that one starts, and each number of the column in [classes] is
    selected by one bin and rejected by all the others. *)
Definition finished (at_ : nat) (classes : Classes) (bins : list BIN.t)
    : Prop :=
  bins <> [] /\
  (forall b, nth_error bins 0 = Some b -> BIN.lo b = CNum (- big)) /\
  (forall b, nth_error bins (length bins - 1) = Some b ->
             BIN.hi b = CNum big) /\
  (forall i b1 b2,
     nth_error bins i = Some b1 -> nth_error bins (S i) = Some b2 ->
     BIN.lo b2 = BIN.hi b1 /\
     exists l1 l2, BIN.lo b1 = CNum l1 /\ BIN.lo b2 = CNum l2 /\
                   (l1 < l2)%R) /\
  (forall k rows row x,
     In (k, rows) classes -> In row rows ->
     nth_error row at_ = Some (CNum x) ->
     exists i b, nth_error bins i = Some b /\
                 BIN.selects b row = Ok true /\
                 forall j b', nth_error bins j = Some b' -> j <> i ->
                              BIN.selects b' row = Ok false).

(** Two columns of the same kind, at the same index, with the same name. *)
Definition same_shape (a b : COL.t) : Prop :=
  match a, b with
  | COL.Num x, COL.Num y => NUM.at_ x = NUM.at_ y /\ NUM.txt x = NUM.txt y
  | COL.Sym x, COL.Sym y => SYM.at_ x = SYM.at_ y /\ SYM.txt x = SYM.txt y
  | _, _ => False
  end.

(** A cell that a column accepts: a numeric column takes numbers, and the
    missing mark unless it is a goal; a symbolic column takes anything
    but cannot be a goal. *)
Definition cell_ok (col : COL.t) (v : cell) : Prop :=
  match col with
  | COL.Num _ =>
      (exists x, v = CNum x) \/ (missing v = true /\ COLS.in_y col = false)
  | COL.Sym _ => COLS.in_y col = false
  end.

Definition row_ok (cs : list COL.t) (row : Row) : Prop :=
  Forall (fun col => exists v, nth_error row (COL.at_ col) = Some v /\
                               cell_ok col v) cs.

(** A numeric column that has seen a value has [lo <= hi]. *)
Definition col_inv (col : COL.t) : Prop :=
  match col with
  | COL.Num c => 0 < NUM.n c -> (NUM.lo c <= NUM.hi c)%R
  | COL.Sym _ => True
  end.

(** A goal column has seen a value. *)
Definition col_seen (col : COL.t) : Prop :=
  COLS.in_y col = true -> 0 < COL.n col.

(** A dataset over the header [names] whose rows its columns accept. *)
Definition data_ok (names : Row) (cF : COLS.t) (d : DATA.t) : Prop :=
  Forall (row_ok (COLS.all cF)) (DATA.rows d) /\
  exists c, DATA.cols d = Some c /\ COLS.names c = names /\
            Forall2 same_shape (COLS.all cF) (COLS.all c) /\
            Forall col_inv (COLS.all c) /\
            (DATA.rows d <> [] -> Forall col_seen (COLS.all c)).

(** The store after a new object [d] is created. *)
Definition alloc (hs : Store.t) (d : DATA.t) : Store.t :=
  {| Store.next := S (Store.next hs);
     Store.obj := fun l => if Nat.eqb l (Store.next hs) then d
                           else Store.obj hs l |}.

(** [int(x + .5)] on a non-negative number rounds it, halves up. *)
Definition round_half_up (x : R) : Z := Int_part (x + 1 / 2).

(** The rows of [data1] are the rows of [done], ranked by [d2h] as the
    dataset built from them measures it. *)
Definition ranked_done (hs : Store.t) (st : Smo.state) : Prop :=
  let d1 := Store.obj hs (Smo.data1 st) in
  Permutation (DATA.rows d1) (Smo.done st) /\
  StronglySorted (fun a b => (d2h_value d1 a <= d2h_value d1 b)%R)
                 (DATA.rows d1).

(** The loop in the words of the specification: it ends when the budget
    is spent or fewer than 3 rows remain in [todo]; otherwise a turn
    splits the ranked [done] into a best prefix of [round(|done|^best)]
    rows and the rest, builds a dataset from each, and moves one row of
    [todo] to [done]. *)
Inductive iterates (the : The.t)
    : nat -> Store.t -> Smo.state -> Store.t -> Smo.state -> Prop :=
| iterates_spent hs st : iterates the 0 hs st hs st
| iterates_break budget hs st :
    length (Smo.todo st) < 3 -> iterates the budget hs st hs st
| iterates_turn budget hs st hs1 st1 hs' st' n best rest top :
    3 <= length (Smo.todo st) ->
    ranked_done hs st ->
    n = Z.to_nat (round_half_up (Rpower (INR (length (Smo.done st)))
                                        (The.best the))) ->
    DATA.rows (Store.obj hs1 best)
    = firstn n (DATA.rows (Store.obj hs (Smo.data1 st))) ->
    DATA.rows (Store.obj hs1 rest)
    = skipn n (DATA.rows (Store.obj hs (Smo.data1 st))) ->
    In top (Smo.todo st) ->
    Smo.done st1 = Smo.done st ++ [top] ->
    iterates the budget hs1 st1 hs' st' ->
    iterates the (S budget) hs st hs' st'.

(** What holds of the store and the state at the head of the loop. *)
Definition smo_inv (names : Row) (cF : COLS.t) (data0 : nat)
    (hs : Store.t) (st : Smo.state) : Prop :=
  data0 < Store.next hs /\
  (exists c, DATA.cols (Store.obj hs data0) = Some c /\
             COLS.names c = names) /\
  Smo.data1 st < Store.next hs /\
  data_ok names cF (Store.obj hs (Smo.data1 st)) /\
  ranked_done hs st /\
  Forall (row_ok (COLS.all cF)) (Smo.done st) /\
  Forall (row_ok (COLS.all cF)) (Smo.todo st) /\
  Smo.done st <> [].

(** A NUM after the numbers [xs] have been added to it one by one, and a
    SYM after the cells [vs] have been. *)
Definition num_adds (i : NUM.t) (xs : list R) : NUM.t :=
  fold_left (fun c x => fst (NUM.add c (CNum x))) xs i.

Definition sym_adds (i : SYM.t) (vs : list cell) : SYM.t :=
  fold_left SYM.add vs i.

(** The sum of a list of numbers, and the sum of the squares of their
    distances to [m]. *)
Definition sum_of (xs : list R) : R := fold_right Rplus 0%R xs.

Definition squares_about (m : R) (xs : list R) : R :=
  fold_right (fun x acc => ((x - m) * (x - m) + acc)%R) 0%R xs.

(** How often the cell [v] occurs in [vs]. *)
Definition occurrences (v : cell) (vs : list cell) : nat :=
  length (filter (fun w => cell_eqb w v) vs).

(** The cells that are not the missing mark. *)
Definition present (vs : list cell) : list cell :=
  filter (fun v => negb (missing v)) vs.

(** The rows that have a value, not the missing mark, at index [at_]. *)
Definition has_value (at_ : nat) (row : Row) : bool :=
  match nth_error row at_ with
  | Some v => negb (missing v)
  | None => false
  end.

Definition seen (at_ : nat) (rows : Rows) : nat :=
  length (filter (has_value at_) rows).

(** What feeding the rows [rows] to the column [a] makes of it: the same
    column, its count raised by the rows that have a value; for a NUM,
    bounds that have only widened and that hold the numbers of the rows. *)
Definition col_grown (rows : Rows) (a b : COL.t) : Prop :=
  COL.at_ b = COL.at_ a /\ COL.txt b = COL.txt a /\
  COL.n b = COL.n a + seen (COL.at_ a) rows /\
  match a, b with
  | COL.Num x, COL.Num y =>
      (NUM.lo y <= NUM.lo x)%R /\ (NUM.hi x <= NUM.hi y)%R /\
      NUM.heaven y = NUM.heaven x /\
      forall row v, In row rows ->
                    nth_error row (NUM.at_ x) = Some (CNum v) ->
                    (NUM.lo y <= v <= NUM.hi y)%R
  | COL.Sym _, COL.Sym _ => True
  | _, _ => False
  end.

(** The rows whose cell at index [at_] is the label [k]. *)
Definition labelled (at_ : nat) (k : cell) (row : Row) : bool :=
  match nth_error row at_ with
  | Some v => cell_eqb v k
  | None => false
  end.

(** The index of the class column, if there is one. *)
Definition klass_at (cs : list COL.t) : option nat :=
  option_map COL.at_ (last (map Some (filter COLS.is_klass cs)) None).

(** What an NB has counted once it has visited the rows [rows]: all of
    them, and as hits at most those after the tenth. *)
Definition nb_counts (rows : Rows) (nb : NB.t) : Prop :=
  NB.nall nb = length rows /\ NB.acc nb <= length rows - 10.

(** What it keeps, when the labels are at index [at_]: for each label
    that has come, a dataset with the rows of that label in the order of
    their visits; for the others, none. *)
Definition nb_datas (at_ : nat) (rows : Rows) (nb : NB.t) : Prop :=
  forall k, match cget (NB.datas nb) k with
            | Some d => DATA.cols d <> None /\
                        DATA.rows d = filter (labelled at_ k) rows /\
                        DATA.rows d <> []
            | None => filter (labelled at_ k) rows = []
            end.

(** An entry of the dictionary [out] for a symbolic column: under a value
    that is not the missing mark, the bin of that value alone, with at
    least one row counted. *)
Definition sym_entry (at_ : nat) (kb : cell * BIN.t) : Prop :=
  BIN.at_ (snd kb) = at_ /\ BIN.lo (snd kb) = fst kb /\
  BIN.hi (snd kb) = fst kb /\ missing (fst kb) = false /\
  0 < total_count (BIN.ys (snd kb)).

(** The values, not the missing mark, that the rows of [lst] and the rows
    of a partition have at index [at_]. *)
Definition value_of_rows (at_ : nat) (lst : Rows) (v : cell) : Prop :=
  missing v = false /\ exists row, In row lst /\ nth_error row at_ = Some v.

Definition value_of_classes (at_ : nat) (classes : Classes) (v : cell)
    : Prop :=
  exists k rows, In (k, rows) classes /\ value_of_rows at_ rows v.

(** Two numbers, or two strings: the cells that [<] compares. *)
Definition same_kind (a b : cell) : bool :=
  match a, b with
  | CNum _, CNum _ => true
  | CStr _, CStr _ => true
  | _, _ => false
  end.

(** The rows of a partition all have the missing mark at index [at_]. *)
Definition all_missing (at_ : nat) (classes : Classes) : Prop :=
  forall k rows row, In (k, rows) classes -> In row rows ->
    exists v, nth_error row at_ = Some v /\ missing v = true.

(** The rows that a list of bins has counted, and the rows of a partition
    that have a value at index [at_]. *)
Definition counted (bins : list BIN.t) : nat :=
  list_sum (map (fun b => total_count (BIN.ys b)) bins).

Definition valued (at_ : nat) (classes : Classes) : nat :=
  list_sum (map (fun kv => seen at_ (snd kv)) classes).

(** A bin whose counter has each label once. *)
Definition tidy (b : BIN.t) : Prop := NoDup (map fst (BIN.ys b)).

(** A symbolic column has counted no value more often than it has counted
    cells. *)
Definition col_bounded (col : COL.t) : Prop :=
  match col with
  | COL.Sym c => forall v, SYM.get c v <= SYM.n c
  | COL.Num _ => True
  end.

(** * Example data *)

(** A bin over column 0 spanning 0 to 10, and a partition with one row in
    each class. *)
Definition bin_0_10 : BIN.t :=
  BIN.new 0 "Clndrs" (CNum 0) (Some (CNum 10)) None.

Definition one_row_each : Classes :=
  [("best"%string, [[CNum 5]]); ("rest"%string, [[CNum 20]])].

(** A SYM that has seen "a" and "b" once each. *)
Definition sym_a_b : SYM.t :=
  SYM.add (SYM.add (SYM.new 4 "origin") (CStr "a")) (CStr "b").

(** Four cars: a symbolic column to split on and a goal to minimise.
    Three of them are "best", which is more than the default leaf size 2. *)
Definition cars_header : Row := [CStr "origin"; CStr "Lbs-"].

Definition cars_rows : Rows :=
  [ [CStr "a"; CNum 10]; [CStr "a"; CNum 20];
    [CStr "b"; CNum 30]; [CStr "b"; CNum 40] ].

Definition cars_origin : SYM.t :=
  SYM.add (SYM.add (SYM.add (SYM.add (SYM.new 0 "origin")
    (CStr "a")) (CStr "a")) (CStr "b")) (CStr "b").

Definition fresh_lbs : NUM.t :=
  {| NUM.n := 0; NUM.at_ := 1; NUM.txt := "Lbs-"; NUM.mu := 0;
     NUM.m2 := 0; NUM.lo := big; NUM.hi := - big; NUM.heaven := 0 |}.

Definition cars_lbs : NUM.t :=
  fst (NUM.add (fst (NUM.add (fst (NUM.add (fst (NUM.add fresh_lbs
    (CNum 10))) (CNum 20))) (CNum 30))) (CNum 40)).

Definition cars_cols : COLS.t :=
  {| COLS.all := [COL.Sym cars_origin; COL.Num cars_lbs];
     COLS.names := cars_header |}.

Definition cars : DATA.t :=
  {| DATA.rows := cars_rows; DATA.cols := Some cars_cols |}.

Definition cars_classes : Classes :=
  [("best"%string, [[CStr "a"; CNum 10]; [CStr "a"; CNum 20];
                    [CStr "b"; CNum 30]]);
   ("rest"%string, [[CStr "b"; CNum 40]])].

Definition cars_bins : list BIN.t :=
  [ {| BIN.at_ := 0; BIN.txt := "origin"; BIN.lo := CStr "a";
       BIN.hi := CStr "a"; BIN.ys := [("best"%string, 2)] |};
    {| BIN.at_ := 0; BIN.txt := "origin"; BIN.lo := CStr "b";
       BIN.hi := CStr "b";
       BIN.ys := [("best"%string, 1); ("rest"%string, 1)] |} ].

(** A dataset with two numeric columns and no row yet. *)
Definition data_A_B : DATA.t :=
  fst (DATA.new [[CStr "A"; CStr "B"]] false).

(** Two neighbouring bins of column 1, the left one with a single row. *)
Definition bin_1_3 : BIN.t :=
  {| BIN.at_ := 1; BIN.txt := "Volume"; BIN.lo := CNum 1; BIN.hi := CNum 3;
     BIN.ys := [("best"%string, 1)] |}.

Definition bin_4_9 : BIN.t :=
  {| BIN.at_ := 1; BIN.txt := "Volume"; BIN.lo := CNum 4; BIN.hi := CNum 9;
     BIN.ys := [("best"%string, 2); ("rest"%string, 3)] |}.

(** A numeric column that has seen 10 and 40, and a partition over it. *)
Definition fresh_volume : NUM.t :=
  {| NUM.n := 0; NUM.at_ := 0; NUM.txt := "Volume"; NUM.mu := 0;
     NUM.m2 := 0; NUM.lo := big; NUM.hi := - big; NUM.heaven := 1 |}.

Definition volume : NUM.t :=
  fst (NUM.add (fst (NUM.add fresh_volume (CNum 10))) (CNum 40)).

Definition volume_classes : Classes :=
  [("best"%string, [[CNum 10]; [CStr "?"]]); ("rest"%string, [[CNum 40]])].

(** A column whose only value is 2e32, twice [big]. *)
Definition volume_2e32 : NUM.t := fst (NUM.add fresh_volume (CNum 2e32)).

Definition classes_2e32 : Classes := [("best"%string, [[CNum 2e32]])].

(** A store that holds the four cars at reference 0. *)
Definition store_cars : Store.t :=
  {| Store.next := 1; Store.obj := fun _ => cars |}.

(** The four cars again: fresh columns for their header, and the checks
    that make [smo] and [order] run on them. *)
Definition cars_fresh : COLS.t :=
  {| COLS.all := [COL.Sym (SYM.new 0 "origin"); COL.Num fresh_lbs];
     COLS.names := cars_header |}.

(** The defaults with one initial evaluation, so that the loop turns. *)
Definition one_start : The.t :=
  {| The.Bins := 16; The.k := 1; The.m := 2; The.budget0 := 1;
     The.Budget := 16; The.best := 0.5; The.Top := 0.8; The.leaf := 2 |}.

(** Two neighbouring bins at or below 0, one row in each. *)
Definition bin_below_0 : BIN.t :=
  {| BIN.at_ := 0; BIN.txt := "Temp"; BIN.lo := CNum (-5);
     BIN.hi := CNum (-3); BIN.ys := [("best"%string, 1)] |}.

Definition bin_up_to_0 : BIN.t :=
  {| BIN.at_ := 0; BIN.txt := "Temp"; BIN.lo := CNum (-2);
     BIN.hi := CNum 0; BIN.ys := [("rest"%string, 1)] |}.

Definition bin_merged_at_0 : BIN.t :=
  {| BIN.at_ := 0; BIN.txt := "Temp"; BIN.lo := CNum (-5);
     BIN.hi := CNum (-5);
     BIN.ys := [("best"%string, 1); ("rest"%string, 1)] |}.

(** Three rows with their class in the last column. *)
Definition pets_header : Row := [CStr "coat"; CStr "kind!"].

Definition pets_rows : Rows :=
  [[CStr "short"; CStr "dog"]; [CStr "long"; CStr "cat"];
   [CStr "long"; CStr "dog"]].

(** An NB that has seen the four cars under two labels. *)
Definition nb_cars : NB.t :=
  {| NB.nall := 11; NB.datas := [(CStr "a", cars); (CStr "b", cars)];
     NB.acc := 0 |}.

(** A partition whose rows have no value in column 1. *)
Definition classes_no_lbs : Classes :=
  [("best"%string, [[CStr "a"; CStr "?"]]);
   ("rest"%string, [[CStr "b"; CStr "?"]])].

(** The dataset of the three rows. *)
Definition pets_cols : COLS.t :=
  {| COLS.all :=
       [COL.Sym (SYM.add (SYM.add (SYM.add (SYM.new 0 "coat")
          (CStr "short")) (CStr "long")) (CStr "long"));
        COL.Sym (SYM.add (SYM.add (SYM.add (SYM.new 1 "kind!")
          (CStr "dog")) (CStr "cat")) (CStr "dog"))];
     COLS.names := pets_header |}.

Definition pets : DATA.t :=
  {| DATA.rows := pets_rows; DATA.cols := Some pets_cols |}.

(** The defaults with a small [Top], and a state with three rows to do. *)
Definition small_top : The.t :=
  {| The.Bins := 16; The.k := 1; The.m := 2; The.budget0 := 4;
     The.Budget := 16; The.best := 0.5; The.Top := 0.3; The.leaf := 2 |}.

Definition three_to_do : Smo.state :=
  {| Smo.done := [[CStr "a"; CNum 10]];
     Smo.todo := [[CStr "a"; CNum 20]; [CStr "b"; CNum 30];
                  [CStr "b"; CNum 40]];
     Smo.data1 := 0 |}.

(** * Properties *)


(** ** Evaluating tests on real numbers *)

Lemma Rleb_true (x y : R) : (x <= y)%R -> Rleb x y = true.
Proof. unfold Rleb. destruct (Rle_dec x y); [reflexivity | contradiction]. Qed.

Lemma Rleb_false (x y : R) : (y < x)%R -> Rleb x y = false.
Proof. unfold Rleb. destruct (Rle_dec x y); [lra | reflexivity]. Qed.

Lemma Rltb_true (x y : R) : (x < y)%R -> Rltb x y = true.
Proof. unfold Rltb. destruct (Rlt_dec x y); [reflexivity | contradiction]. Qed.

Lemma Rltb_false (x y : R) : (y <= x)%R -> Rltb x y = false.
Proof. unfold Rltb. destruct (Rlt_dec x y); [lra | reflexivity]. Qed.

Lemma Reqb_true (x y : R) : x = y -> Reqb x y = true.
Proof. unfold Reqb. destruct (Req_dec_T x y); [reflexivity | contradiction]. Qed.

Lemma Reqb_false (x y : R) : x <> y -> Reqb x y = false.
Proof. unfold Reqb. destruct (Req_dec_T x y); [contradiction | reflexivity]. Qed.

Lemma Rleb_spec (x y : R) : Rleb x y = true <-> (x <= y)%R.
Proof. unfold Rleb. destruct (Rle_dec x y); split; intros; auto; discriminate. Qed.

Lemma Rltb_spec (x y : R) : Rltb x y = true <-> (x < y)%R.
Proof. unfold Rltb. destruct (Rlt_dec x y); split; intros; auto; discriminate. Qed.

Lemma div_ok (a b : R) : b <> 0%R -> Py.div a b = Ok (a / b)%R.
Proof. intro H. unfold Py.div. destruct (Req_dec_T b 0); [contradiction | reflexivity]. Qed.

Lemma div_zero (a : R) : Py.div a 0 = Err ZeroDivisionError.
Proof. unfold Py.div. destruct (Req_dec_T 0 0); [reflexivity | contradiction]. Qed.

Lemma big_pos : (0 < big)%R.
Proof. unfold big. lra. Qed.

Lemma tiny_pos : (0 < tiny)%R.
Proof. unfold tiny, big. lra. Qed.

(** ** BIN.selectsRejects *)

Lemma selectsRejects_row_err (i : BIN.t) (klass : string)
    (yn : Classes * Classes) (row : Row) :
  exists e, BIN.selectsRejects_row i klass yn row = Err e.
Proof.
  unfold BIN.selectsRejects_row.
  destruct (BIN.selects i row) as [[|]|e]; cbn; eauto.
Qed.

Lemma selectsRejects_rows_ok (i : BIN.t) (klass : string) (rows : Rows)
    (yn yn' : Classes * Classes) :
  BIN.selectsRejects_rows i klass rows yn = Ok yn' -> rows = [] /\ yn' = yn.
Proof.
  destruct rows as [|row rows']; cbn.
  - intros H; inversion H; auto.
  - destruct (selectsRejects_row_err i klass yn row) as [e ->].
    cbn. discriminate.
Qed.

Lemma selectsRejects_from_ok (i : BIN.t) (classes : Classes)
    (yn yn' : Classes * Classes) :
  BIN.selectsRejects_from i classes yn = Ok yn' ->
  yn' = yn /\ forall k rows, In (k, rows) classes -> rows = [].
Proof.
  revert yn. induction classes as [|[k rows] classes IH]; intros yn; cbn.
  - intros H; inversion H; split; [reflexivity | intros ? ? []].
  - destruct (BIN.selectsRejects_rows i k rows yn) as [yn1|e] eqn:E; cbn;
      [|discriminate].
    apply selectsRejects_rows_ok in E. destruct E as [-> ->].
    intros H. apply IH in H. destruct H as [-> H]. split; [reflexivity|].
    intros k' rows' [Heq|Hin].
    + inversion Heq; reflexivity.
    + eauto.
Qed.

(** C3. As written, [selectsRejects] cannot place a row: as soon as the
    class mapping holds one row, the call raises instead of returning the
    two mappings. *)
Theorem selectsRejects_raises (i : BIN.t) (classes : Classes)
    (k : string) (row : Row) (rows : Rows) :
  In (k, row :: rows) classes ->
  exists e, BIN.selectsRejects i classes = Err e.
Proof.
  intros Hin. unfold BIN.selectsRejects.
  destruct (BIN.selectsRejects_from i classes ([], [])) as [yn|e] eqn:E.
  - apply selectsRejects_from_ok in E. destruct E as [_ E].
    apply E in Hin. discriminate.
  - eauto.
Qed.

Lemma selectsRejects_raises_witness :
  exists e, BIN.selectsRejects bin_0_10 one_row_each = Err e.
Proof.
  apply (selectsRejects_raises bin_0_10 one_row_each "best" [CNum 5] []).
  simpl. left. reflexivity.
Defined.

(** On that input the row is selected, and the error is the missing
    attribute [add] of a dictionary. *)
Lemma selectsRejects_one_row_each :
  BIN.selects bin_0_10 [CNum 5] = Ok true /\
  BIN.selectsRejects bin_0_10 one_row_each = Err AttributeError.
Proof.
  assert (S : BIN.selects bin_0_10 [CNum 5] = Ok true).
  { unfold BIN.selects, bin_0_10, BIN.new. cbn.
    rewrite (Reqb_false 10 0) by lra. cbn.
    rewrite (Reqb_false 0 5) by lra. cbn.
    rewrite (Rleb_true 0 5) by lra. cbn.
    rewrite (Rltb_true 5 10) by lra. reflexivity. }
  split; [exact S|].
  unfold BIN.selectsRejects, one_row_each.
  cbn [BIN.selectsRejects_from BIN.selectsRejects_rows].
  unfold BIN.selectsRejects_row at 1. rewrite S. reflexivity.
Qed.

(** ** div *)

(** C7. [div()] of a NUM is one number, the sample standard deviation
    (0 below two values); [div()] of a SYM is not a number but the pair
    that [entropy] returns: the entropy and the total count. *)
Theorem div_number_or_pair :
  (forall c : NUM.t,
     COL.div (COL.Num c)
     = COL.Number (if NUM.n c <? 2 then 0%R
                   else sqrt (NUM.m2 c / (INR (NUM.n c) - 1)))) /\
  (forall c : SYM.t,
     COL.div (COL.Sym c)
     = COL.Pair (fst (entropy (values (SYM.has c))))
                (list_sum (filter (fun n => 0 <? n) (values (SYM.has c))))) /\
  (forall (c : SYM.t) (x : R), COL.div (COL.Sym c) <> COL.Number x).
Proof.
  split; [|split].
  - intros c. reflexivity.
  - intros c. reflexivity.
  - intros c x. cbn. destruct (SYM.div c). discriminate.
Qed.

Lemma log2_half : log2 (1 / 2) = (-1)%R.
Proof.
  unfold log2. replace (1 / 2)%R with (/ 2)%R by lra.
  rewrite ln_Rinv by lra.
  assert (0 < ln 2)%R by (rewrite <- ln_1; apply ln_increasing; lra).
  field. lra.
Qed.

Lemma div_sym_a_b : COL.div (COL.Sym sym_a_b) = COL.Pair 1 2.
Proof.
  cbn. unfold Py.sum. cbn.
  replace (1 / (1 + 1))%R with (1 / 2)%R by lra.
  rewrite log2_half. f_equal. lra.
Qed.

(** ** tree *)

(** C1. The root is compared with itself: [tree] starts [grow] with
    [above] equal to the root's own "best" count, so the root is a leaf
    holding the whole partition at depth 0 whatever the leaf threshold is,
    and no bin is ever chosen. *)
Theorem tree_root_is_leaf (the : The.t) (score : R -> R -> R) (fuel : nat)
    (data : DATA.t) (classes : Classes) (best rest : string)
    (rb rr : Rows) (c : COLS.t) (BINS : list BIN.t) :
  getitem classes best = Ok rb ->
  getitem classes rest = Ok rr ->
  DATA.cols data = Some c ->
  Tree.all_bins the (COLS.x c) classes = Ok BINS ->
  Tree.tree the score (S fuel) data classes best rest
  = Some (Ok (Tree.Leaf classes 0)).
Proof.
  intros Hb Hr Hc HB. unfold Tree.tree.
  rewrite Hb, Hr. unfold DATA.the_cols. rewrite Hc. cbn [Py.bind].
  rewrite HB. cbn [Tree.grow]. rewrite Hb.
  rewrite Nat.eqb_refl, orb_true_r. reflexivity.
Qed.

(** [cars] is what [DATA] builds from the header and the four rows. *)
Lemma cars_built : DATA.new (cars_header :: cars_rows) false = (cars, Ok tt).
Proof. reflexivity. Qed.

Lemma cars_all_bins :
  exists c, DATA.cols cars = Some c /\
            Tree.all_bins The.defaults (COLS.x c) cars_classes = Ok cars_bins.
Proof.
  eexists. split; [reflexivity|].
  cbn. unfold COL.small_or. cbn.
  rewrite div_ok by lra. reflexivity.
Qed.

Lemma tree_root_is_leaf_witness :
  (The.leaf The.defaults < 3)%Z /\
  Tree.tree The.defaults Smo.B_minus_R 1 cars cars_classes "best" "rest"
  = Some (Ok (Tree.Leaf cars_classes 0)).
Proof.
  split; [reflexivity|].
  destruct cars_all_bins as [c [Hc HB]].
  apply (tree_root_is_leaf The.defaults Smo.B_minus_R 0 cars cars_classes
           "best" "rest"
           [[CStr "a"; CNum 10]; [CStr "a"; CNum 20]; [CStr "b"; CNum 30]]
           [[CStr "b"; CNum 40]] c cars_bins);
    [reflexivity | reflexivity | exact Hc | exact HB].
Defined.

(** ** Adding a row *)

Lemma new_cols_positioned (names : Row) :
  forall k cs, COLS.new_cols k names = Ok cs ->
    length cs = length names /\
    forall i col, nth_error cs i = Some col -> COL.at_ col = k + i.
Proof.
  induction names as [|name names IH]; intros k cs H; cbn in H.
  - inversion H; subst. split; [reflexivity|].
    intros [|i] col Hn; discriminate.
  - destruct (COLS.new_col k name) as [c|e] eqn:Ec; cbn in H; [|discriminate].
    destruct (COLS.new_cols (S k) names) as [cs'|e] eqn:Ecs; cbn in H;
      [|discriminate].
    inversion H; subst cs. destruct (IH _ _ Ecs) as [Hl Hat].
    split; [cbn; congruence|].
    intros [|i] col Hn; cbn in Hn.
    + inversion Hn; subst col.
      unfold COLS.new_col in Ec. destruct name as [x|txt]; [discriminate|].
      destruct (first_char txt); cbn in Ec; [|discriminate].
      destruct (last_char txt) eqn:El; cbn in Ec; [|discriminate].
      destruct (COLS.isupper a).
      * unfold NUM.new in Ec. rewrite El in Ec. cbn in Ec.
        inversion Ec; subst c. cbn. lia.
      * inversion Ec; subst c. cbn. lia.
    + apply Hat in Hn. lia.
Qed.

Lemma new_positioned (names : Row) (c : COLS.t) :
  COLS.new names = Ok c -> positioned c.
Proof.
  unfold COLS.new. destruct (COLS.new_cols 0 names) as [cs|e] eqn:E; cbn;
    [|discriminate].
  intros H; inversion H; subst c. apply new_cols_positioned in E.
  destruct E as [Hl Hat]. split; [exact Hl|]. exact Hat.
Qed.

Lemma add_cols_short (row : Row) (cs : list COL.t) :
  forall k,
    (forall i col, nth_error cs i = Some col -> COL.at_ col = k + i) ->
    k <= length row < k + length cs ->
    (exists e, snd (COLS.add_cols cs row) = Err e) /\
    forall j, length row <= k + j ->
      nth_error (fst (COLS.add_cols cs row)) j = nth_error cs j.
Proof.
  induction cs as [|c cs IH]; intros k Hat Hlen.
  - cbn in Hlen. lia.
  - cbn [COLS.add_cols]. unfold index.
    assert (Hk : COL.at_ c = k) by (rewrite (Hat 0 c eq_refl); lia).
    rewrite Hk.
    destruct (nth_error row k) as [v|] eqn:Ev.
    + assert (k < length row) by (apply nth_error_Some; congruence).
      destruct (if missing v then (c, Ok tt) else COL.add c v) as [c' r].
      destruct r as [[]|e].
      * destruct (IH (S k)) as [He Hu].
        { intros i col Hn. rewrite (Hat (S i) col Hn). lia. }
        { cbn in Hlen. lia. }
        destruct (COLS.add_cols cs row) as [cs'' r'] eqn:E. cbn in *.
        split; [exact He|].
        intros [|j] Hj; [lia|]. cbn. apply Hu. lia.
      * cbn. split; [eauto|]. intros [|j] Hj; [lia|reflexivity].
    + cbn. split; [eauto|]. reflexivity.
Qed.

(** C9, as the code has it. A row shorter than the header fails where it
    is added and is not appended to the rows; the columns from the row's
    length onwards are untouched (those before it have already taken the
    row's values). *)
Theorem add_short_row_fails (d : DATA.t) (c : COLS.t) (row : Row) :
  DATA.cols d = Some c ->
  positioned c ->
  length row < length (COLS.names c) ->
  (exists e, snd (DATA.add d row) = Err e) /\
  DATA.rows (fst (DATA.add d row)) = DATA.rows d /\
  exists c', DATA.cols (fst (DATA.add d row)) = Some c' /\
             COLS.names c' = COLS.names c /\
             forall j, length row <= j ->
               nth_error (COLS.all c') j = nth_error (COLS.all c) j.
Proof.
  intros Hc [Hl Hat] Hlen. unfold DATA.add. rewrite Hc.
  unfold COLS.add.
  destruct (add_cols_short row (COLS.all c) 0) as [[e He] Hu].
  - intros i col Hn. rewrite (Hat i col Hn). reflexivity.
  - lia.
  - destruct (COLS.add_cols (COLS.all c) row) as [cs r] eqn:E.
    cbn in He, Hu. subst r. cbn.
    split; [eauto|]. split; [reflexivity|].
    eexists. split; [reflexivity|]. cbn. split; [reflexivity|].
    intros j Hj. apply Hu. lia.
Qed.

Lemma add_short_row_fails_witness :
  (exists e, snd (DATA.add data_A_B [CNum 1]) = Err e) /\
  DATA.rows (fst (DATA.add data_A_B [CNum 1])) = DATA.rows data_A_B /\
  exists c', DATA.cols (fst (DATA.add data_A_B [CNum 1])) = Some c' /\
             COLS.names c' = [CStr "A"; CStr "B"] /\
             forall j, 1 <= j ->
               nth_error (COLS.all c') j
               = nth_error [COL.Num {| NUM.n := 0; NUM.at_ := 0;
                                       NUM.txt := "A"; NUM.mu := 0;
                                       NUM.m2 := 0; NUM.lo := big;
                                       NUM.hi := - big; NUM.heaven := 1 |};
                            COL.Num {| NUM.n := 0; NUM.at_ := 1;
                                       NUM.txt := "B"; NUM.mu := 0;
                                       NUM.m2 := 0; NUM.lo := big;
                                       NUM.hi := - big; NUM.heaven := 1 |}] j.
Proof.
  apply (add_short_row_fails data_A_B
           {| COLS.all := [COL.Num {| NUM.n := 0; NUM.at_ := 0;
                                      NUM.txt := "A"; NUM.mu := 0;
                                      NUM.m2 := 0; NUM.lo := big;
                                      NUM.hi := - big; NUM.heaven := 1 |};
                           COL.Num {| NUM.n := 0; NUM.at_ := 1;
                                      NUM.txt := "B"; NUM.mu := 0;
                                      NUM.m2 := 0; NUM.lo := big;
                                      NUM.hi := - big; NUM.heaven := 1 |}];
              COLS.names := [CStr "A"; CStr "B"] |} [CNum 1]).
  - reflexivity.
  - apply (new_positioned [CStr "A"; CStr "B"]). reflexivity.
  - simpl. lia.
Defined.

(** The claim as the specification words it fails both ways: a short row
    is rejected after the first column has counted it, and a row longer
    than the header is not rejected at all. *)
Lemma add_not_all_or_nothing :
  (length [CNum 1] <> 2 /\
   snd (DATA.add data_A_B [CNum 1]) = Err IndexError /\
   DATA.cols (fst (DATA.add data_A_B [CNum 1])) <> DATA.cols data_A_B) /\
  (length [CNum 1; CNum 2; CNum 3] <> 2 /\
   snd (DATA.add data_A_B [CNum 1; CNum 2; CNum 3]) = Ok tt).
Proof.
  split; split.
  - simpl. lia.
  - split; [reflexivity|].
    intros H.
    apply (f_equal (fun o => match o with
                             | Some c => match COLS.all c with
                                         | COL.Num a :: _ => NUM.n a
                                         | _ => 0
                                         end
                             | None => 0
                             end)) in H.
    cbn in H. discriminate.
  - simpl. lia.
  - reflexivity.
Qed.

(** ** BIN.merge *)

Lemma list_sum_cons (n : nat) (l : list nat) :
  list_sum (n :: l) = n + list_sum l.
Proof. reflexivity. Qed.

Lemma list_sum_filter_pos (l : list nat) :
  list_sum (filter (fun n => 0 <? n) l) = list_sum l.
Proof.
  induction l as [|n l IH]; [reflexivity|].
  cbn [filter]. destruct (0 <? n) eqn:E.
  - rewrite !list_sum_cons, IH. reflexivity.
  - apply Nat.ltb_ge in E. rewrite list_sum_cons, IH. lia.
Qed.

Lemma total_count_sum (c : Counter) : total_count c = list_sum (values c).
Proof. unfold total_count, entropy. cbn. apply list_sum_filter_pos. Qed.

Lemma values_filter_pos (c : Counter) :
  list_sum (values (filter (fun kv => 0 <? snd kv) c)) = list_sum (values c).
Proof.
  induction c as [|[k n] c IH]; [reflexivity|].
  unfold values in *.
  cbn [filter snd]. destruct (0 <? n) eqn:E; cbn [map snd].
  - rewrite !list_sum_cons, IH. reflexivity.
  - apply Nat.ltb_ge in E. rewrite list_sum_cons, IH. lia.
Qed.

Lemma lookup_None_count (c : Counter) (k : string) :
  ~ In k (map fst c) -> count c k = 0.
Proof.
  unfold count. induction c as [|[k' n] c IH]; intros H; [reflexivity|].
  cbn in *. destruct (String.eqb_spec k' k); [tauto|]. apply IH. tauto.
Qed.

Lemma lookup_In {V} (a : list (string * V)) (k : string) :
  (exists v, lookup a k = Some v) <-> In k (map fst a).
Proof.
  induction a as [|[k' v'] a IH]; cbn.
  - split; [intros [v H]; discriminate | intros []].
  - destruct (String.eqb_spec k' k).
    + split; eauto.
    + rewrite IH. split; [tauto | intros [?|?]; [contradiction|assumption]].
Qed.

(** Summing, over the keys of [a], a function that is [n0] at the key [k0]
    and [g] elsewhere. *)
Lemma sum_one_key (a : Counter) (k0 : string) (n0 : nat)
    (g : string -> nat) :
  NoDup (map fst a) -> g k0 = 0 ->
  list_sum (map (fun kv => if String.eqb k0 (fst kv) then n0
                           else g (fst kv)) a)
  = (if in_dec string_dec k0 (map fst a) then n0 else 0)
    + list_sum (map (fun kv => g (fst kv)) a).
Proof.
  intros Hnd Hg. induction a as [|[k n] a IH].
  - reflexivity.
  - inversion Hnd as [|? ? Hk Hnd']; subst.
    cbn [map fst]. rewrite !list_sum_cons, (IH Hnd').
    destruct (String.eqb_spec k0 k) as [->|Hne].
    + destruct (in_dec string_dec k (k :: map fst a)) as [_|Hout];
        [|exfalso; apply Hout; left; reflexivity].
      destruct (in_dec string_dec k (map fst a)); [contradiction|].
      rewrite Hg. lia.
    + destruct (in_dec string_dec k0 (k :: map fst a)) as [Hin|Hout];
        destruct (in_dec string_dec k0 (map fst a)) as [Hin'|Hout'];
        try lia.
      * destruct Hin; [congruence|contradiction].
      * exfalso. apply Hout. right. exact Hin'.
Qed.

Lemma counter_add_split (a b : Counter) :
  NoDup (map fst a) -> NoDup (map fst b) ->
  list_sum (map (fun kv => count b (fst kv)) a)
  + list_sum (values (filter (fun kv => match lookup a (fst kv) with
                                        | Some _ => false
                                        | None => true
                                        end) b))
  = list_sum (values b).
Proof.
  intros Ha Hb. induction b as [|[k0 n0] b IH].
  - cbn [filter values map]. clear Ha.
    induction a as [|kv a IHa]; [reflexivity|].
    cbn [map]. rewrite list_sum_cons.
    change (count [] (fst kv)) with 0. exact IHa.
  - inversion Hb as [|? ? Hk Hb']; subst. specialize (IH Hb').
    assert (E : forall kv : string * nat,
              count ((k0, n0) :: b) (fst kv)
              = if String.eqb k0 (fst kv) then n0 else count b (fst kv)).
    { intros kv. unfold count. cbn. destruct (String.eqb k0 (fst kv)); auto. }
    rewrite (map_ext _ _ E).
    rewrite (sum_one_key a k0 n0 (count b) Ha (lookup_None_count b k0 Hk)).
    unfold values in *. cbn [filter fst].
    destruct (in_dec string_dec k0 (map fst a)) as [Hin|Hout].
    + apply lookup_In in Hin. destruct Hin as [v ->].
      cbn [map snd]. rewrite list_sum_cons. lia.
    + destruct (lookup a k0) eqn:El.
      * exfalso. apply Hout. apply lookup_In. eauto.
      * cbn [map snd]. rewrite !list_sum_cons. lia.
Qed.

(** The merged counter holds the counts of both bins. *)
Lemma counter_add_total (a b : Counter) :
  NoDup (map fst a) -> NoDup (map fst b) ->
  total_count (counter_add a b) = total_count a + total_count b.
Proof.
  intros Ha Hb. rewrite !total_count_sum. unfold counter_add, values.
  rewrite map_app, list_sum_app.
  fold (values (filter (fun kv => 0 <? snd kv)
                  (map (fun kv => (fst kv, snd kv + count b (fst kv))) a))).
  rewrite values_filter_pos.
  pose proof (counter_add_split a b Ha Hb) as Hs. unfold values in *.
  assert (E1 : list_sum (map snd (map (fun kv => (fst kv, snd kv + count b (fst kv))) a))
               = list_sum (map snd a)
                 + list_sum (map (fun kv => count b (fst kv)) a)).
  { clear. induction a as [|[k n] a IH]; [reflexivity|].
    cbn [map fst snd]. rewrite !list_sum_cons, IH. lia. }
  rewrite E1.
  assert (E2 : forall c : Counter,
             list_sum (map snd (filter (fun kv => match lookup a (fst kv) with
                                                  | Some _ => false
                                                  | None => 0 <? snd kv
                                                  end) c))
             = list_sum (map snd (filter (fun kv => match lookup a (fst kv) with
                                                    | Some _ => false
                                                    | None => true
                                                    end) c))).
  { clear. induction c as [|[k n] c IH]; [reflexivity|].
    cbn [filter fst snd]. destruct (lookup a k).
    - exact IH.
    - destruct (0 <? n) eqn:E; cbn [map snd].
      + rewrite !list_sum_cons, IH. reflexivity.
      + apply Nat.ltb_ge in E. rewrite list_sum_cons, IH. lia. }
  rewrite E2. lia.
Qed.

(** The equations of one pass of [merges] over a pair. *)
Lemma merges_pass_pair (mg : BIN.t -> BIN.t -> result (option BIN.t))
    (a b : BIN.t) (rest : list BIN.t) :
  merges_pass mg (a :: b :: rest)
  = (tmp <- mg a b ;;
     match tmp with
     | Some ab => now <- merges_pass mg rest ;; Ok (ab :: now)
     | None => now <- merges_pass mg (b :: rest) ;; Ok (a :: now)
     end).
Proof. reflexivity. Qed.

(** C5. For two bins of one column whose bounds can be compared and that
    are not both empty, [merge] returns the merged bin exactly when one of
    the two counts is below [small] or the entropy of the merged bin is
    at most the count-weighted mean of the two entropies; otherwise it
    returns None, without an error, and a pass of [merges] then keeps the
    left bin as it is and goes on from the right one. *)
Theorem merge_iff (i j : BIN.t) (small : R) (lo' hi' : cell) :
  BIN.at_ i = BIN.at_ j ->
  NoDup (map fst (BIN.ys i)) ->
  NoDup (map fst (BIN.ys j)) ->
  cell_min (BIN.lo i) (BIN.lo j) = Ok lo' ->
  cell_max (BIN.hi i) (BIN.hi j) = Ok hi' ->
  0 < total_count (BIN.ys i) + total_count (BIN.ys j) ->
  let k := BIN.new (BIN.at_ i) (BIN.txt i) lo' (Some hi')
                   (Some (counter_add (BIN.ys i) (BIN.ys j))) in
  let ni := INR (total_count (BIN.ys i)) in
  let nj := INR (total_count (BIN.ys j)) in
  let simpler :=
    (entropy_of (BIN.ys k)
     <= (ni * entropy_of (BIN.ys i) + nj * entropy_of (BIN.ys j))
        / (ni + nj))%R in
  ((ni < small)%R \/ (nj < small)%R \/ simpler ->
   BIN.merge i j small = Ok (Some k)) /\
  (~ ((ni < small)%R \/ (nj < small)%R \/ simpler) ->
   BIN.merge i j small = Ok None /\
   forall rest,
     merges_pass (fun x y => BIN.merge x y small) (i :: j :: rest)
     = (now <- merges_pass (fun x y => BIN.merge x y small) (j :: rest) ;;
        Ok (i :: now))).
Proof.
  intros Hat Hi Hj Hlo Hhi Hpos k ni nj simpler.
  assert (Hnk : INR (total_count (BIN.ys k)) = (ni + nj)%R).
  { subst k ni nj. cbn [BIN.new BIN.ys].
    rewrite (counter_add_total _ _ Hi Hj). apply plus_INR. }
  assert (Hne : (ni + nj)%R <> 0%R).
  { subst ni nj. rewrite <- plus_INR. apply not_0_INR. lia. }
  assert (M : BIN.merge i j small
              = if Rltb ni small || Rltb nj small then Ok (Some k)
                else if Rleb (entropy_of (BIN.ys k))
                             ((ni * entropy_of (BIN.ys i)
                               + nj * entropy_of (BIN.ys j)) / (ni + nj))
                     then Ok (Some k) else Ok None).
  { unfold BIN.merge. rewrite <- Hat, Nat.eqb_refl, Hlo, Hhi. cbn [Py.bind].
    fold k. unfold ni, nj, entropy_of, total_count in *.
    destruct (entropy (values (BIN.ys i))) as [ei ni'].
    destruct (entropy (values (BIN.ys j))) as [ej nj'].
    destruct (entropy (values (BIN.ys k))) as [ek nk'].
    cbn [fst snd] in *.
    destruct (Rltb (INR ni') small || Rltb (INR nj') small); [reflexivity|].
    rewrite Hnk. rewrite div_ok by exact Hne. reflexivity. }
  split.
  - intros H. rewrite M.
    destruct (Rltb ni small) eqn:E1; [reflexivity|].
    destruct (Rltb nj small) eqn:E2; [reflexivity|]. cbn [orb].
    destruct H as [H|[H|H]].
    + apply Rltb_spec in H. congruence.
    + apply Rltb_spec in H. congruence.
    + apply Rleb_spec in H. unfold simpler in H. rewrite H. reflexivity.
  - intros H.
    assert (M' : BIN.merge i j small = Ok None).
    { rewrite M.
      destruct (Rltb ni small) eqn:E1;
        [apply Rltb_spec in E1; tauto|].
      destruct (Rltb nj small) eqn:E2;
        [apply Rltb_spec in E2; tauto|]. cbn [orb].
      destruct (Rleb _ _) eqn:E3; [apply Rleb_spec in E3; tauto|].
      reflexivity. }
    split; [exact M'|].
    intros rest. rewrite merges_pass_pair, M'. reflexivity.
Qed.

Lemma merge_iff_witness :
  BIN.merge bin_1_3 bin_4_9 2
  = Ok (Some {| BIN.at_ := 1; BIN.txt := "Volume"; BIN.lo := CNum 1;
                BIN.hi := CNum 9;
                BIN.ys := [("best"%string, 3); ("rest"%string, 3)] |}).
Proof.
  assert (F : falsy (CNum 9) = false)
    by (apply Reqb_false; lra).
  replace {| BIN.at_ := 1; BIN.txt := "Volume"; BIN.lo := CNum 1;
             BIN.hi := CNum 9;
             BIN.ys := [("best"%string, 3); ("rest"%string, 3)] |}
    with (BIN.new (BIN.at_ bin_1_3) (BIN.txt bin_1_3) (CNum 1)
            (Some (CNum 9))
            (Some (counter_add (BIN.ys bin_1_3) (BIN.ys bin_4_9))))
    by (unfold BIN.new; rewrite F; reflexivity).
  apply (proj1 (merge_iff bin_1_3 bin_4_9 2 (CNum 1) (CNum 9)
                  eq_refl
                  ltac:(repeat constructor; simpl; intuition discriminate)
                  ltac:(repeat constructor; simpl; intuition discriminate)
                  ltac:(unfold cell_min; cbn; rewrite Rltb_false by lra;
                        reflexivity)
                  ltac:(unfold cell_max; cbn; rewrite Rltb_true by lra;
                        reflexivity)
                  ltac:(cbn; lia))).
  left. cbn. lra.
Defined.

(** ** DATA.loglike *)

Lemma NUM_var_pos (c : NUM.t) : (0 < sq (NUM.div c) + tiny)%R.
Proof.
  unfold sq. pose proof tiny_pos.
  pose proof (Rle_0_sqr (NUM.div c)) as H0. unfold Rsqr in H0. lra.
Qed.

Lemma like_ok (the : The.t) (col : COL.t) (v : cell) (prior : R) :
  like_defined the col v ->
  COL.like the col v prior = Ok (like_value the col v prior).
Proof.
  destruct col as [c|c]; cbn.
  - intros [x ->]. unfold NUM.like.
    pose proof (NUM_var_pos c) as Hv.
    rewrite div_ok by lra. cbn [Py.bind].
    rewrite div_ok.
    + reflexivity.
    + pose proof tiny_pos. pose proof (sqrt_pos (2 * PI * (sq (NUM.div c) + tiny))).
      unfold pow_half. lra.
  - intros H. unfold SYM.like. rewrite div_ok by exact H. reflexivity.
Qed.

Lemma sum_fold_right (l : list R) : Py.sum l = fold_right Rplus 0%R l.
Proof.
  unfold Py.sum. apply fold_symmetric; intros; lra.
Qed.

Lemma sum_app_one (l : list R) (x : R) :
  Py.sum (l ++ [x]) = (Py.sum l + x)%R.
Proof. unfold Py.sum. rewrite fold_left_app. reflexivity. Qed.

Lemma sum_logs_filter (l : list R) :
  Py.sum (map ln (filter (fun x => Rltb 0 x) l))
  = fold_right Rplus 0%R (map log_term l).
Proof.
  rewrite sum_fold_right. induction l as [|x l IH]; [reflexivity|].
  cbn [filter map fold_right]. unfold log_term at 1.
  destruct (Rltb 0 x); cbn [map fold_right]; rewrite IH; lra.
Qed.

Lemma likes_ok (the : The.t) (xs : list COL.t) (row : Row) (prior : R) :
  Forall (fun col => exists v, nth_error row (COL.at_ col) = Some v /\
                               (missing v = false ->
                                like_defined the col v)) xs ->
  exists ls, DATA.likes the xs row prior = Ok ls /\
             fold_right Rplus 0%R (map log_term ls)
             = sum_log_likes the xs row prior.
Proof.
  induction 1 as [|col xs [v [Hv Hd]] _ [ls [IH1 IH2]]].
  - exists []. split; reflexivity.
  - cbn [DATA.likes sum_log_likes]. unfold index. rewrite Hv. cbn [Py.bind].
    destruct (missing v) eqn:Em.
    + exists ls. split; [exact IH1|]. rewrite IH2. lra.
    + rewrite (like_ok the col v prior (Hd eq_refl)). cbn [Py.bind].
      rewrite IH1. cbn [Py.bind].
      eexists. split; [reflexivity|]. cbn [map fold_right].
      rewrite IH2. reflexivity.
Qed.

(** C6. Where the prior and every likelihood are defined, [loglike] is the
    sum of the natural logs of the likelihoods of the row's non-missing
    independent cells plus the natural log of the prior
    [(|rows| + k) / (nall + k * nh)], a non-positive term being left out. *)
Theorem loglike_sum (the : The.t) (d : DATA.t) (c : COLS.t) (row : Row)
    (nall nh : nat) :
  DATA.cols d = Some c ->
  (INR nall + The.k the * INR nh)%R <> 0%R ->
  let prior := ((INR (length (DATA.rows d)) + The.k the)
                / (INR nall + The.k the * INR nh))%R in
  Forall (fun col => exists v, nth_error row (COL.at_ col) = Some v /\
                               (missing v = false ->
                                like_defined the col v)) (COLS.x c) ->
  DATA.loglike the d row nall nh
  = Ok (sum_log_likes the (COLS.x c) row prior + log_term prior)%R.
Proof.
  intros Hc Hden prior Hx. unfold DATA.loglike.
  rewrite div_ok by exact Hden. cbn [Py.bind]. fold prior.
  unfold DATA.the_cols. rewrite Hc. cbn [Py.bind].
  destruct (likes_ok the (COLS.x c) row prior Hx) as [ls [H1 H2]].
  rewrite H1. cbn [Py.bind]. f_equal.
  rewrite sum_logs_filter, map_app, fold_right_app. cbn [map fold_right].
  rewrite <- H2. clear.
  induction (map log_term ls) as [|x l IH]; cbn [fold_right]; [lra|].
  rewrite IH. lra.
Qed.

(** With a positive prior the last term is its natural log. *)
Lemma log_term_pos (p : R) : (0 < p)%R -> log_term p = ln p.
Proof. intros H. unfold log_term. rewrite Rltb_true by exact H. reflexivity. Qed.

Lemma loglike_sum_witness :
  exists c, DATA.cols cars = Some c /\
    DATA.loglike The.defaults cars [CStr "a"; CNum 10] 4 2
    = Ok (sum_log_likes The.defaults (COLS.x c) [CStr "a"; CNum 10]
            ((INR (length (DATA.rows cars)) + The.k The.defaults)
             / (INR 4 + The.k The.defaults * INR 2))
          + log_term ((INR (length (DATA.rows cars)) + The.k The.defaults)
                      / (INR 4 + The.k The.defaults * INR 2)))%R.
Proof.
  eexists. split; [reflexivity|].
  apply (loglike_sum The.defaults cars _ [CStr "a"; CNum 10] 4 2 eq_refl).
  - cbn. lra.
  - constructor; [|constructor].
    exists (CStr "a"). split; [reflexivity|].
    intros _. cbn. lra.
Defined.

(** ** Sorting by a numeric key *)

Section SortFacts.
Variable A : Type.

Lemma insert_by_float (x : R * A) (l : list (R * A)) :
  insert_by float_ltb x l = Ok (insert_key x l).
Proof.
  induction l as [|y l IH]; [reflexivity|].
  cbn [insert_by insert_key]. unfold float_ltb at 1. cbn [Py.bind].
  destruct (Rltb (fst y) (fst x)); [|reflexivity].
  rewrite IH. reflexivity.
Qed.

Lemma sort_by_float (l : list (R * A)) :
  sort_by float_ltb l = Ok (isort l).
Proof.
  induction l as [|x l IH]; [reflexivity|].
  cbn [sort_by isort]. rewrite IH. cbn [Py.bind]. apply insert_by_float.
Qed.

Lemma insert_key_perm (x : R * A) (l : list (R * A)) :
  Permutation (insert_key x l) (x :: l).
Proof.
  induction l as [|y l IH]; [reflexivity|].
  cbn [insert_key]. destruct (Rltb (fst y) (fst x)); [|reflexivity].
  rewrite IH. apply perm_swap.
Qed.

Lemma isort_perm (l : list (R * A)) : Permutation (isort l) l.
Proof.
  induction l as [|x l IH]; [reflexivity|].
  cbn [isort]. rewrite insert_key_perm. constructor. exact IH.
Qed.

Lemma insert_key_sorted (x : R * A) (l : list (R * A)) :
  StronglySorted key_le l -> StronglySorted key_le (insert_key x l).
Proof.
  induction l as [|y l IH]; intros Hs.
  - repeat constructor.
  - cbn [insert_key]. inversion Hs as [|? ? Hs' Hall]; subst.
    destruct (Rltb (fst y) (fst x)) eqn:E.
    + apply Rltb_spec in E. constructor; [apply IH; exact Hs'|].
      apply (Permutation_Forall (Permutation_sym (insert_key_perm x l))).
      constructor; [unfold key_le; lra | exact Hall].
    + assert (Hxy : (fst x <= fst y)%R).
      { unfold Rltb in E. destruct (Rlt_dec (fst y) (fst x));
          [discriminate | lra]. }
      constructor; [exact Hs|].
      constructor; [exact Hxy|].
      eapply Forall_impl; [|exact Hall].
      unfold key_le. intros a Ha. lra.
Qed.

Lemma isort_sorted (l : list (R * A)) : StronglySorted key_le (isort l).
Proof.
  induction l as [|x l IH]; [constructor|].
  cbn [isort]. apply insert_key_sorted. exact IH.
Qed.

(** Stability: the elements with one given key keep their order. *)
Lemma insert_key_filter (k : R) (x : R * A) (l : list (R * A)) :
  filter (fun p => Reqb (fst p) k) (insert_key x l)
  = filter (fun p => Reqb (fst p) k) (x :: l).
Proof.
  induction l as [|y l IH]; [reflexivity|].
  cbn [insert_key]. destruct (Rltb (fst y) (fst x)) eqn:E; [|reflexivity].
  apply Rltb_spec in E.
  cbn [filter] in *. rewrite IH.
  destruct (Reqb (fst x) k) eqn:Ex; [|reflexivity].
  destruct (Reqb (fst y) k) eqn:Ey; [|reflexivity].
  unfold Reqb in Ex, Ey.
  destruct (Req_dec_T (fst x) k); [|discriminate].
  destruct (Req_dec_T (fst y) k); [|discriminate]. lra.
Qed.

Lemma isort_filter (k : R) (l : list (R * A)) :
  filter (fun p => Reqb (fst p) k) (isort l)
  = filter (fun p => Reqb (fst p) k) l.
Proof.
  induction l as [|x l IH]; [reflexivity|].
  cbn [isort]. rewrite insert_key_filter. cbn [filter]. rewrite IH.
  reflexivity.
Qed.

(** A sorted list is left as it is. *)
Lemma isort_fixed (l : list (R * A)) : StronglySorted key_le l -> isort l = l.
Proof.
  induction 1 as [|x l Hs IH Hall]; [reflexivity|].
  cbn [isort]. rewrite IH. destruct l as [|y l]; [reflexivity|].
  cbn [insert_key]. inversion Hall as [|? ? Hxy _]; subst.
  rewrite Rltb_false by exact Hxy. reflexivity.
Qed.

(** [sorted] on a key that never raises. *)
Variable key : A -> result R.

Lemma mapM_keyed (xs : list A) :
  Forall (fun x => exists v, key x = Ok v) xs ->
  mapM (fun x => k <- key x ;; Ok (k, x)) xs = Ok (keyed key xs).
Proof.
  induction 1 as [|x xs [v Hv] _ IH]; [reflexivity|].
  cbn [mapM keyed map]. unfold key_value. rewrite Hv. cbn [Py.bind].
  fold (keyed key xs). rewrite IH. reflexivity.
Qed.

Lemma sorted_float (xs : list A) :
  Forall (fun x => exists v, key x = Ok v) xs ->
  sorted float_ltb key xs = Ok (map snd (isort (keyed key xs))).
Proof.
  intros H. unfold sorted. rewrite (mapM_keyed xs H). cbn [Py.bind].
  rewrite sort_by_float. reflexivity.
Qed.

Lemma keyed_snd (s : list (R * A)) :
  Forall (fun p => fst p = key_value key (snd p)) s -> keyed key (map snd s) = s.
Proof.
  induction 1 as [|[k x] s Hk _ IH]; [reflexivity|].
  cbn in *. unfold keyed in IH. rewrite IH. subst k. reflexivity.
Qed.

Lemma keyed_forall (xs : list A) :
  Forall (fun p => fst p = key_value key (snd p)) (keyed key xs).
Proof. induction xs; constructor; auto. Qed.

Lemma isort_keyed_forall (xs : list A) :
  Forall (fun p => fst p = key_value key (snd p)) (isort (keyed key xs)).
Proof.
  apply (Permutation_Forall (Permutation_sym (isort_perm (keyed key xs)))).
  apply keyed_forall.
Qed.

Lemma keyed_ranked (xs : list A) : keyed key (ranked key xs) = isort (keyed key xs).
Proof. apply keyed_snd. apply isort_keyed_forall. Qed.

Lemma ranked_perm (xs : list A) : Permutation (ranked key xs) xs.
Proof.
  unfold ranked.
  rewrite (Permutation_map snd (isort_perm (keyed key xs))).
  unfold keyed. rewrite map_map. cbn. rewrite map_id. reflexivity.
Qed.

Lemma sorted_keyed (xs : list A) :
  StronglySorted key_le (keyed key xs) ->
  StronglySorted (fun a b => (key_value key a <= key_value key b)%R) xs.
Proof.
  induction xs as [|x xs IH]; intros H; [constructor|].
  cbn in H. inversion H as [|? ? Hs Hall]; subst.
  constructor; [apply IH; exact Hs|].
  rewrite Forall_map in Hall. exact Hall.
Qed.

Lemma keyed_sorted (xs : list A) :
  StronglySorted (fun a b => (key_value key a <= key_value key b)%R) xs ->
  StronglySorted key_le (keyed key xs).
Proof.
  induction 1 as [|x xs Hs IH Hall]; [constructor|].
  cbn. constructor; [exact IH|]. rewrite Forall_map. exact Hall.
Qed.

Lemma ranked_sorted (xs : list A) :
  StronglySorted (fun a b => (key_value key a <= key_value key b)%R) (ranked key xs).
Proof.
  apply sorted_keyed. rewrite keyed_ranked. apply isort_sorted.
Qed.

Lemma filter_keyed (k : R) (xs : list A) :
  map snd (filter (fun p => Reqb (fst p) k) (keyed key xs))
  = filter (fun x => Reqb (key_value key x) k) xs.
Proof.
  induction xs as [|x xs IH]; [reflexivity|].
  cbn [keyed map filter fst]. fold (keyed key xs).
  destruct (Reqb (key_value key x) k); cbn [map snd]; rewrite IH; reflexivity.
Qed.

Lemma ranked_stable (k : R) (xs : list A) :
  filter (fun x => Reqb (key_value key x) k) (ranked key xs)
  = filter (fun x => Reqb (key_value key x) k) xs.
Proof.
  rewrite <- (filter_keyed k (ranked key xs)), keyed_ranked, isort_filter.
  apply filter_keyed.
Qed.

Lemma ranked_fixed (xs : list A) :
  StronglySorted (fun a b => (key_value key a <= key_value key b)%R) xs ->
  ranked key xs = xs.
Proof.
  intros H. unfold ranked. rewrite (isort_fixed _ (keyed_sorted xs H)).
  unfold keyed. rewrite map_map. cbn. apply map_id.
Qed.

End SortFacts.

Arguments isort_perm {A} l.
Arguments isort_sorted {A} l.
Arguments sorted_float {A} key xs _.
Arguments ranked_perm {A} key xs.
Arguments ranked_sorted {A} key xs.
Arguments ranked_stable {A} key k xs.
Arguments ranked_fixed {A} key xs _.

(** ** DATA.order *)

Lemma mapM_Forall2 {A B} (f : A -> result B) (xs : list A) (ys : list B) :
  mapM f xs = Ok ys -> Forall2 (fun x y => f x = Ok y) xs ys.
Proof.
  revert ys. induction xs as [|x xs IH]; intros ys H; cbn in H.
  - inversion H. constructor.
  - destruct (f x) as [y|e] eqn:E; [|discriminate].
    destruct (mapM f xs) as [ys'|e]; [|discriminate].
    inversion H; subst. constructor; auto.
Qed.

Lemma d2h_root_mean_square (d : DATA.t) (c : COLS.t) (row : Row) (v : R) :
  DATA.cols d = Some c ->
  DATA.d2h d row = Ok v ->
  exists ds,
    Forall2 (fun col dist => exists x, nth_error row (COL.at_ col) = Some x /\
                                       COL.d2h col x = Ok dist)
            (COLS.y c) ds /\
    v = root_mean_square ds.
Proof.
  intros Hc H. unfold DATA.d2h, DATA.the_cols in H. rewrite Hc in H.
  cbn [Py.bind] in H.
  destruct (mapM _ (COLS.y c)) as [sqs|e] eqn:E; cbn [Py.bind] in H;
    [|discriminate].
  apply mapM_Forall2 in E.
  assert (G : exists ds,
             Forall2 (fun col dist =>
                        exists x, nth_error row (COL.at_ col) = Some x /\
                                  COL.d2h col x = Ok dist) (COLS.y c) ds /\
             sqs = map (fun x => x * x)%R ds).
  { clear H. induction E as [|col s cs ss Hs _ [ds [F1 F2]]].
    - exists []. split; constructor.
    - unfold index in Hs.
      destruct (nth_error row (COL.at_ col)) as [x|] eqn:Ex; cbn in Hs;
        [|discriminate].
      destruct (COL.d2h col x) as [dist|e] eqn:Ed; cbn in Hs; [|discriminate].
      inversion Hs; subst. exists (dist :: ds). split.
      + constructor; [eauto | exact F1].
      + reflexivity. }
  destruct G as [ds [F1 F2]]. exists ds. split; [exact F1|].
  unfold Py.div in H.
  destruct (Req_dec_T (INR (length (COLS.y c))) 0); [discriminate|].
  inversion H. unfold root_mean_square, pow_half.
  rewrite sum_fold_right, F2.
  rewrite <- (Forall2_length F1). reflexivity.
Qed.

Lemma order_ranked (d : DATA.t) :
  Forall (fun r => exists v, DATA.d2h d r = Ok v) (DATA.rows d) ->
  DATA.order d
  = ({| DATA.rows := ranked (DATA.d2h d) (DATA.rows d);
        DATA.cols := DATA.cols d |},
     Ok (ranked (DATA.d2h d) (DATA.rows d))).
Proof.
  intros H. unfold DATA.order. rewrite (sorted_float _ _ H). reflexivity.
Qed.

(** C8. Where [d2h] is defined on the rows, [order] replaces the row list
    by a permutation of it that ascends in [d2h], rows of equal [d2h]
    keeping their relative order; ordering once more changes nothing; and
    [d2h] is the root of the mean, over the goal columns, of the squared
    distances to heaven. *)
Theorem order_stable_idempotent (d : DATA.t) (c : COLS.t) :
  DATA.cols d = Some c ->
  Forall (fun r => exists v, DATA.d2h d r = Ok v) (DATA.rows d) ->
  exists rs,
    DATA.order d = ({| DATA.rows := rs; DATA.cols := DATA.cols d |}, Ok rs) /\
    Permutation rs (DATA.rows d) /\
    StronglySorted (fun a b => (d2h_value d a <= d2h_value d b)%R) rs /\
    (forall k, filter (fun r => Reqb (d2h_value d r) k) rs
               = filter (fun r => Reqb (d2h_value d r) k) (DATA.rows d)) /\
    DATA.order (fst (DATA.order d)) = DATA.order d /\
    (forall r v, DATA.d2h d r = Ok v ->
       exists ds,
         Forall2 (fun col dist =>
                    exists x, nth_error r (COL.at_ col) = Some x /\
                              COL.d2h col x = Ok dist) (COLS.y c) ds /\
         v = root_mean_square ds).
Proof.
  intros Hc H. exists (ranked (DATA.d2h d) (DATA.rows d)).
  split; [apply order_ranked; exact H|].
  split; [apply ranked_perm|].
  split; [apply ranked_sorted|].
  split; [intros k; apply ranked_stable|].
  split.
  - rewrite (order_ranked d H). cbn [fst].
    set (rs := ranked (DATA.d2h d) (DATA.rows d)).
    set (d1 := {| DATA.rows := rs; DATA.cols := DATA.cols d |}).
    assert (H1 : Forall (fun r => exists v, DATA.d2h d1 r = Ok v)
                        (DATA.rows d1)).
    { cbn [DATA.rows d1].
      apply (Permutation_Forall
               (Permutation_sym (ranked_perm (DATA.d2h d) (DATA.rows d)))).
      exact H. }
    rewrite (order_ranked d1 H1). cbn [DATA.rows DATA.cols d1].
    change (DATA.d2h d1) with (DATA.d2h d).
    rewrite (ranked_fixed (DATA.d2h d) rs (ranked_sorted _ _)).
    reflexivity.
  - intros r v Hv. apply (d2h_root_mean_square d c r v Hc Hv).
Qed.

(** ** shuffle *)

Section ShuffleFacts.
Variable A : Type.

Lemma set_nth_same (l : list A) (i : nat) (a : A) :
  nth_error l i = Some a -> set_nth l i a = l.
Proof.
  revert i. induction l as [|x l IH]; intros [|i] H; cbn in *;
    try discriminate.
  - inversion H. reflexivity.
  - rewrite (IH i H). reflexivity.
Qed.

Lemma set_nth_other (l : list A) (i j : nat) (a : A) :
  i <> j -> nth_error (set_nth l i a) j = nth_error l j.
Proof.
  revert i j. induction l as [|x l IH]; intros [|i] [|j] H; cbn;
    try reflexivity; try congruence.
  apply IH. congruence.
Qed.

Lemma set_nth_perm (l : list A) (j : nat) (x y : A) :
  nth_error l j = Some y -> Permutation (y :: set_nth l j x) (x :: l).
Proof.
  revert j. induction l as [|a l IH]; intros [|j] H; cbn in *;
    try discriminate.
  - inversion H. apply perm_swap.
  - rewrite perm_swap. rewrite (IH j H). apply perm_swap.
Qed.

Lemma swap_perm (l : list A) (i j : nat) : Permutation (swap l i j) l.
Proof.
  unfold swap.
  destruct (nth_error l i) as [a|] eqn:Ei; [|reflexivity].
  destruct (nth_error l j) as [b|] eqn:Ej; [|reflexivity].
  destruct (Nat.eq_dec i j) as [->|Hne].
  - assert (a = b) by congruence. subst b.
    rewrite (set_nth_same l j a Ei). rewrite (set_nth_same l j a Ei).
    reflexivity.
  - apply (Permutation_cons_inv (a := b)).
    rewrite (set_nth_perm (set_nth l i b) j a b).
    + apply (set_nth_perm l i b a Ei).
    + rewrite set_nth_other by exact Hne. exact Ej.
Qed.

Lemma shuffle_from_perm (i : nat) (js : list nat) (x : list A) :
  Permutation (shuffle_from i js x) x.
Proof.
  revert js x. induction i as [|i IH]; intros js x; [reflexivity|].
  cbn [shuffle_from]. rewrite IH. apply swap_perm.
Qed.

Lemma shuffle_perm (js : list nat) (x : list A) :
  Permutation (shuffle js x) x.
Proof. apply shuffle_from_perm. Qed.

Lemma shuffle_two (a b : A) : shuffle [0] [a; b] = [b; a].
Proof. reflexivity. Qed.

End ShuffleFacts.

Arguments shuffle_perm {A} js x.
Arguments shuffle_two {A} a b.

(** ** The store: what a computation leaves alone *)

Lemma extends_refl (h : Store.t) : extends h h.
Proof. split; [lia | reflexivity]. Qed.

Lemma extends_trans (h1 h2 h3 : Store.t) :
  extends h1 h2 -> extends h2 h3 -> extends h1 h3.
Proof.
  intros [N1 O1] [N2 O2]. split; [lia|].
  intros l Hl. rewrite O2 by lia. apply O1. exact Hl.
Qed.

Lemma framed_ret {A} (a : A) : framed (Store.ret a).
Proof. intros h. apply extends_refl. Qed.

Lemma framed_raise {A} (e : exn) : framed (@Store.raise A e).
Proof. intros h. apply extends_refl. Qed.

Lemma framed_lift {A} (r : result A) : framed (Store.lift r).
Proof. intros h. apply extends_refl. Qed.

Lemma framed_read (l : nat) : framed (Store.read l).
Proof. intros h. apply extends_refl. Qed.

Lemma framed_bind {A B} (c : Store.M A) (f : A -> Store.M B) :
  framed c -> (forall a, framed (f a)) -> framed (Store.bind c f).
Proof.
  intros Hc Hf h. unfold Store.bind. specialize (Hc h).
  destruct (c h) as [h1 [a|e]]; cbn [fst] in *.
  - eapply extends_trans; [exact Hc | apply Hf].
  - exact Hc.
Qed.

Lemma framed_new (src : list Row) (ord : bool) : framed (Store.new src ord).
Proof.
  intros h. unfold Store.new. destruct (DATA.new src ord) as [d r].
  cbn [fst]. split; cbn; [lia|].
  intros l Hl. destruct (Nat.eqb_spec l (Store.next h)); [lia | reflexivity].
Qed.

Lemma framed_clone (i : nat) (lst : list Row) (ord : bool) :
  framed (Store.clone i lst ord).
Proof.
  unfold Store.clone. apply framed_bind; [apply framed_read|].
  intros d. apply framed_bind; [apply framed_lift|].
  intros c. apply framed_new.
Qed.

Lemma framed_acquire (the : The.t) (score : R -> R -> R) (best rest : nat)
    (rows : Rows) : framed (Smo.acquire the score best rest rows).
Proof.
  unfold Smo.acquire.
  apply framed_bind; [apply framed_read|]. intros b.
  apply framed_bind; [apply framed_read|]. intros r.
  apply framed_bind; [apply framed_lift|]. intros s.
  apply framed_ret.
Qed.

Lemma framed_step (the : The.t) (score : R -> R -> R) (data0 : nat)
    (st : Smo.state) : framed (Smo.step the score data0 st).
Proof.
  unfold Smo.step. destruct (length (Smo.todo st) <? 3);
    [apply framed_ret|].
  apply framed_bind; [apply framed_lift|]. intros p.
  apply framed_bind; [apply framed_read|]. intros d1.
  apply framed_bind; [apply framed_clone|]. intros best.
  apply framed_bind; [apply framed_read|]. intros d1'.
  apply framed_bind; [apply framed_clone|]. intros rest.
  apply framed_bind; [apply framed_acquire|]. intros [|top todo'].
  - apply framed_raise.
  - apply framed_bind; [apply framed_clone|]. intros d. apply framed_ret.
Qed.

Lemma framed_loop (the : The.t) (score : R -> R -> R) (data0 budget : nat)
    (st : Smo.state) : framed (Smo.loop the score data0 budget st).
Proof.
  revert st. induction budget as [|budget IH]; intros st; cbn [Smo.loop].
  - apply framed_ret.
  - apply framed_bind; [apply framed_step|]. intros [st'|].
    + apply IH.
    + apply framed_ret.
Qed.

(** What [smo] does to the store: the rows of [data0] are shuffled, and
    everything after that is framed. *)
Lemma smo_store (the : The.t) (score : R -> R -> R) (js : list nat)
    (data0 : nat) (h : Store.t) :
  extends
    (Store.upd h data0
       {| DATA.rows := shuffle js (DATA.rows (Store.obj h data0));
          DATA.cols := DATA.cols (Store.obj h data0) |})
    (fst (Smo.smo the score js data0 h)).
Proof.
  unfold Smo.smo, Smo.run.
  set (h1 := Store.upd h data0 _).
  set (rest := fun st : Smo.state =>
                 d1 <~ Store.read (Smo.data1 st) ;;
                 Store.lift (index (DATA.rows d1) 0)).
  set (body := d0 <~ Store.read data0 ;;
               data1 <~ Store.clone data0
                          (slice_to (DATA.rows d0) (The.budget0 the)) true ;;
               Smo.loop the score data0 (Z.to_nat (The.Budget the))
                 {| Smo.done := slice_to (DATA.rows d0) (The.budget0 the);
                    Smo.todo := slice_from (DATA.rows d0) (The.budget0 the);
                    Smo.data1 := data1 |}).
  assert (F : framed (Store.bind body rest)).
  { apply framed_bind.
    - unfold body. apply framed_bind; [apply framed_read|]. intros d0.
      apply framed_bind; [apply framed_clone|]. intros data1.
      apply framed_loop.
    - intros st. unfold rest.
      apply framed_bind; [apply framed_read|]. intros d1. apply framed_lift. }
  specialize (F h1).
  unfold Store.bind in *. unfold Store.on at 1. fold h1.
  destruct (body h1) as [h2 [st|e]]; exact F.
Qed.

(** C10. [smo] shuffles the row list of the dataset it is given, in
    place: afterwards that dataset holds a permutation of its rows (which
    need not be the original order) and its columns as they were. *)
Theorem smo_permutes_rows_in_place (the : The.t) (score : R -> R -> R)
    (js : list nat) (data0 : nat) (h : Store.t) :
  data0 < Store.next h ->
  let before := Store.obj h data0 in
  let after := Store.obj (fst (Smo.smo the score js data0 h)) data0 in
  DATA.rows after = shuffle js (DATA.rows before) /\
  Permutation (DATA.rows after) (DATA.rows before) /\
  DATA.cols after = DATA.cols before /\
  (forall a b : Row, shuffle [0] [a; b] = [b; a]).
Proof.
  intros Hl before after.
  destruct (smo_store the score js data0 h) as [_ Hobj].
  assert (E : after = {| DATA.rows := shuffle js (DATA.rows before);
                         DATA.cols := DATA.cols before |}).
  { unfold after. rewrite Hobj by (cbn; exact Hl).
    cbn. rewrite Nat.eqb_refl. reflexivity. }
  rewrite E. cbn [DATA.rows DATA.cols].
  split; [reflexivity|]. split; [apply shuffle_perm|].
  split; [reflexivity|]. intros a b. apply shuffle_two.
Qed.

(** ** The Discretizer on a numeric column *)

Lemma merges_step (mg : BIN.t -> BIN.t -> result (option BIN.t))
    (b4 : list BIN.t) :
  merges mg b4
  = match merges_pass mg b4 with
    | Err e => Err e
    | Ok now =>
        if Nat.eqb (length now) (length b4) then Ok b4 else merges mg now
    end.
Proof.
  funelim (merges mg b4).
  - match goal with H : merges_pass _ _ = Err _ |- _ => rewrite H end.
    reflexivity.
  - match goal with H : merges_pass _ _ = Ok _ |- _ => rewrite H end.
    match goal with H : Nat.eqb _ _ = true |- _ => rewrite H end.
    reflexivity.
  - match goal with H : merges_pass _ _ = Ok _ |- _ => rewrite H end.
    match goal with H : Nat.eqb _ _ = false |- _ => rewrite H end.
    reflexivity.
Qed.

Lemma chain_weaken (at_ : nat) (p p' : R) (bins : list BIN.t) :
  (p' <= p)%R -> chain at_ p bins -> chain at_ p' bins.
Proof.
  destruct bins as [|b bs]; [auto|].
  intros Hp [l [h [G [Hl C]]]]. exists l, h. split; [exact G|].
  split; [lra | exact C].
Qed.

Lemma counter_add_pos (a b : Counter) :
  0 < total_count a -> 0 < total_count (counter_add a b).
Proof.
  rewrite !total_count_sum. unfold counter_add, values.
  rewrite map_app, list_sum_app. intros H.
  pose proof (values_filter_pos
                (map (fun kv => (fst kv, snd kv + count b (fst kv))) a)) as E.
  unfold values in E. rewrite E.
  assert (L : list_sum (map snd a)
              <= list_sum (map snd (map (fun kv => (fst kv, snd kv + count b (fst kv))) a))).
  { clear. induction a as [|[k n] a IH]; [apply le_n|].
    cbn [map fst snd]. rewrite !list_sum_cons. lia. }
  lia.
Qed.

Lemma merge_good (at_ : nat) (a b : BIN.t) (la ha lb hb small : R) :
  good_bin at_ a la ha -> good_bin at_ b lb hb -> (ha < lb)%R ->
  exists r, BIN.merge a b small = Ok r /\
            (r = None \/
             exists k hk, r = Some k /\ good_bin at_ k la hk /\ (hk <= hb)%R).
Proof.
  intros [Aa [Al [Ah [Ale [Ab Ap]]]]] [Ba [Bl [Bh [Ble [Bb Bp]]]]] Hlt.
  unfold BIN.merge. rewrite Aa, Ba, Nat.eqb_refl, Al, Bl, Ah, Bh.
  unfold cell_min, cell_max. cbn [cell_ltb Py.bind].
  rewrite (Rltb_false lb la) by lra. rewrite (Rltb_true ha hb) by lra.
  set (k := BIN.new at_ (BIN.txt a) (CNum la) (Some (CNum hb))
                    (Some (counter_add (BIN.ys a) (BIN.ys b)))).
  assert (Gk : exists hk, good_bin at_ k la hk /\ (hk <= hb)%R).
  { unfold k, BIN.new. destruct (falsy (CNum hb)).
    - exists la. split; [|lra].
      repeat split; cbn; try reflexivity; try lra.
      apply counter_add_pos. exact Ap.
    - exists hb. split; [|lra].
      repeat split; cbn; try reflexivity; try lra.
      apply counter_add_pos. exact Ap. }
  destruct Gk as [hk [Gk Hk]].
  assert (Hnk : INR (total_count (BIN.ys k)) <> 0%R).
  { apply not_0_INR. destruct Gk as [_ [_ [_ [_ [_ P]]]]]. lia. }
  unfold total_count in Hnk.
  destruct (entropy (values (BIN.ys a))) as [ei ni].
  destruct (entropy (values (BIN.ys b))) as [ej nj].
  destruct (entropy (values (BIN.ys k))) as [ek nk]. cbn [snd] in Hnk.
  destruct (Rltb (INR ni) small || Rltb (INR nj) small).
  - eexists. split; [reflexivity|]. right. exists k, hk. auto.
  - rewrite div_ok by exact Hnk. cbn [Py.bind].
    destruct (Rleb ek _).
    + eexists. split; [reflexivity|]. right. exists k, hk. auto.
    + eexists. split; [reflexivity|]. left. reflexivity.
Qed.

Lemma merges_pass_chain (at_ : nat) (small : R) :
  forall n b4 p,
    length b4 <= n -> chain at_ p b4 ->
    exists now, merges_pass (fun x y => BIN.merge x y small) b4 = Ok now /\
                chain at_ p now /\ (b4 <> [] -> now <> []).
Proof.
  induction n as [|n IH]; intros b4 p Hn C.
  - destruct b4; [|cbn in Hn; lia]. exists []. auto.
  - destruct b4 as [|a [|b rest]].
    + exists []. auto.
    + exists [a]. split; [reflexivity|]. split; [exact C|]. discriminate.
    + rewrite merges_pass_pair.
      destruct C as [la [ha [Ga [Hp [lb [hb [Gb [Hab C]]]]]]]].
      destruct (merge_good at_ a b la ha lb hb small Ga Gb Hab)
        as [r [Hr [->|[k [hk [-> [Gk Hk]]]]]]]; rewrite Hr; cbn [Py.bind].
      * destruct (IH (b :: rest) ha) as [now [Hnow [Cn _]]].
        { cbn in *. lia. }
        { exists lb, hb. auto. }
        rewrite Hnow. cbn [Py.bind]. eexists. split; [reflexivity|].
        split; [|discriminate]. exists la, ha. auto.
      * destruct (IH rest hb) as [now [Hnow [Cn _]]].
        { cbn in *. lia. }
        { exact C. }
        rewrite Hnow. cbn [Py.bind]. eexists. split; [reflexivity|].
        split; [|discriminate]. exists la, hk.
        split; [exact Gk|]. split; [exact Hp|].
        apply (chain_weaken at_ hb hk now Hk Cn).
Qed.

Lemma merges_chain (at_ : nat) (small : R) :
  forall n b4 p,
    length b4 <= n -> chain at_ p b4 ->
    exists r, merges (fun x y => BIN.merge x y small) b4 = Ok r /\
              chain at_ p r /\ (b4 <> [] -> r <> []).
Proof.
  induction n as [|n IH]; intros b4 p Hn C.
  - destruct b4; [|cbn in Hn; lia]. exists [].
    rewrite merges_step. cbn. auto.
  - rewrite merges_step.
    destruct (merges_pass_chain at_ small (length b4) b4 p (le_n _) C)
      as [now [Hnow [Cn Hne]]].
    rewrite Hnow.
    destruct (Nat.eqb_spec (length now) (length b4)) as [_|Hlen].
    + exists b4. auto.
    + assert (Hle : length now <= length b4).
      { clear - Hnow. revert now Hnow.
        induction b4 as [b4 IHl] using (induction_ltof1 _ (@length _)).
        unfold ltof in IHl. intros now Hnow.
        destruct b4 as [|a [|b rest]].
        - inversion Hnow. apply le_n.
        - inversion Hnow. apply le_n.
        - rewrite merges_pass_pair in Hnow.
          destruct (BIN.merge a b small) as [[ab|]|e]; cbn [Py.bind] in Hnow;
            try discriminate.
          + destruct (merges_pass _ rest) as [nw|e] eqn:E;
              cbn [Py.bind] in Hnow; try discriminate.
            inversion Hnow; subst. apply IHl in E; cbn in *; lia.
          + destruct (merges_pass _ (b :: rest)) as [nw|e] eqn:E;
              cbn [Py.bind] in Hnow; try discriminate.
            inversion Hnow; subst. apply IHl in E; cbn in *; lia. }
      destruct (IH now p) as [r [Hr [Cr Hr']]]; [lia | exact Cn |].
      exists r. split; [exact Hr|]. split; [exact Cr|].
      intros Hb. apply Hr'. apply Hne. exact Hb.
Qed.

Lemma chain_rising (at_ : nat) (bins : list BIN.t) :
  forall p, chain at_ p bins -> rising_below at_ p bins.
Proof.
  induction bins as [|b bs IH]; intros p C; [exact I|].
  destruct C as [l [h [[Ha [Hl [Hh [Hle [Hb _]]]]] [Hp C]]]].
  split; [exact Ha|]. exists h. split; [exact Hh|].
  split; [lra|]. split; [exact Hb|]. apply IH. exact C.
Qed.

Lemma set_last_hi_rising (at_ : nat) (bins : list BIN.t) :
  forall p, rising_below at_ p bins -> bins <> [] ->
            rising_to_big at_ p (NUM.set_last_hi bins).
Proof.
  induction bins as [|b bs IH]; intros p Hr Hne; [congruence|].
  destruct Hr as [Ha [h [Hh [Hp [Hb Hr]]]]].
  cbn [NUM.set_last_hi]. destruct bs as [|b2 bs].
  - split; [exact Ha|]. exists big. split; [reflexivity|].
    split; [lra | reflexivity].
  - split; [exact Ha|]. exists h. split; [exact Hh|]. split; [exact Hp|].
    apply IH; [exact Hr | discriminate].
Qed.

Lemma set_last_hi_head (b : BIN.t) (bs : list BIN.t) :
  exists b' bs', NUM.set_last_hi (b :: bs) = b' :: bs' /\
                 BIN.lo b' = BIN.lo b.
Proof.
  cbn [NUM.set_last_hi]. destruct bs; eexists; eexists; split; reflexivity.
Qed.

Lemma stitch_contiguous (at_ : nat) (bs : list BIN.t) :
  forall b q, rising_to_big at_ q (b :: bs) -> BIN.lo b = CNum q ->
              contiguous at_ q (b :: NUM.stitch b bs).
Proof.
  induction bs as [|b2 bs IH]; intros b q [Ha [h [Hh [Hq Hr]]]] Hl.
  - split; [exact Ha|]. split; [exact Hl|]. exists h. auto.
  - split; [exact Ha|]. split; [exact Hl|]. exists h.
    split; [exact Hh|]. split; [exact Hq|].
    cbn [NUM.stitch]. apply IH.
    + destruct Hr as [Ha2 [h2 [Hh2 [Hlt Hr]]]].
      split; [exact Ha2|]. exists h2. auto.
    + cbn. exact Hh.
Qed.

(** [binsComplete] on a chain of bins above [-big]. *)
Lemma binsComplete_contiguous (c : NUM.t) (bins : list BIN.t) (small : R)
    (at_ : nat) :
  chain at_ (- big) bins -> bins <> [] ->
  exists r, NUM.binsComplete c bins small = Ok r /\ r <> [] /\
            contiguous at_ (- big) r.
Proof.
  intros C Hne. unfold NUM.binsComplete.
  destruct (merges_chain at_ small (length bins) bins (- big) (le_n _) C)
    as [bins1 [Hm [C1 Hne1]]].
  rewrite Hm. cbn [Py.bind]. specialize (Hne1 Hne).
  destruct bins1 as [|b bs]; [congruence|].
  cbn [NUM.set_first_lo Py.bind].
  assert (R1 : rising_below at_ (- big) (NUM.set_lo b (CNum (- big)) :: bs)).
  { apply chain_rising in C1. exact C1. }
  apply set_last_hi_rising in R1; [|discriminate].
  destruct (set_last_hi_head (NUM.set_lo b (CNum (- big))) bs)
    as [b' [bs' [E Hlo]]].
  rewrite E in *. eexists. split; [reflexivity|]. split; [discriminate|].
  apply stitch_contiguous; [exact R1 | exact Hlo].
Qed.

Lemma selects_interval (b : BIN.t) (row : Row) (l h x : R) :
  BIN.lo b = CNum l -> BIN.hi b = CNum h -> (l < h)%R ->
  nth_error row (BIN.at_ b) = Some (CNum x) ->
  BIN.selects b row = Ok (Rleb l x && Rltb x h).
Proof.
  intros Hl Hh Hlt Hx. unfold BIN.selects, index. rewrite Hx, Hl, Hh.
  cbn [Py.bind missing cell_eqb cell_leb cell_ltb].
  assert (E : Reqb l x && Reqb x h = false).
  { unfold Reqb. destruct (Req_dec_T l x); [|reflexivity].
    destruct (Req_dec_T x h); [lra | reflexivity]. }
  rewrite E. destruct (Rleb l x); reflexivity.
Qed.

Lemma contiguous_above (at_ : nat) (row : Row) (x : R) (bins : list BIN.t) :
  nth_error row at_ = Some (CNum x) ->
  forall p, contiguous at_ p bins -> (x < p)%R ->
    forall j b, nth_error bins j = Some b -> BIN.selects b row = Ok false.
Proof.
  intros Hx. induction bins as [|b0 bs IH]; intros p C Hp j b Hj.
  - destruct j; discriminate.
  - destruct C as [Ha [Hl [h [Hh [Hlt C]]]]]. destruct j as [|j].
    + inversion Hj; subst b0.
      rewrite (selects_interval b row p h x Hl Hh Hlt)
        by (rewrite Ha; exact Hx).
      rewrite (Rleb_false p x) by lra. reflexivity.
    + apply (IH h C ltac:(lra) j b Hj).
Qed.

(** A number from [prev] up to [big] falls in exactly one bin. *)
Lemma contiguous_selects_one (at_ : nat) (row : Row) (x : R)
    (bins : list BIN.t) :
  nth_error row at_ = Some (CNum x) ->
  forall p, contiguous at_ p bins -> (p <= x < big)%R ->
    exists i b, nth_error bins i = Some b /\
                BIN.selects b row = Ok true /\
                forall j b', nth_error bins j = Some b' -> j <> i ->
                             BIN.selects b' row = Ok false.
Proof.
  intros Hx. induction bins as [|b0 bs IH]; intros p C Hp.
  - cbn in C. lra.
  - destruct C as [Ha [Hl [h [Hh [Hlt C]]]]].
    assert (S0 : BIN.selects b0 row = Ok (Rleb p x && Rltb x h)).
    { apply selects_interval; auto. rewrite Ha. exact Hx. }
    destruct (Rlt_dec x h) as [Hxh|Hxh].
    + exists 0, b0. split; [reflexivity|]. split.
      * rewrite S0, Rleb_true, Rltb_true by lra. reflexivity.
      * intros [|j] b' Hj Hne; [congruence|].
        apply (contiguous_above at_ row x bs Hx h C Hxh j b' Hj).
    + destruct (IH h C ltac:(lra)) as [i [b [Hi [Hs Hu]]]].
      exists (S i), b. split; [exact Hi|]. split; [exact Hs|].
      intros [|j] b' Hj Hne.
      * inversion Hj; subst b'. rewrite S0, (Rltb_false x h) by lra.
        rewrite andb_false_r. reflexivity.
      * apply (Hu j b' Hj). congruence.
Qed.

(** What [contiguous] says bin by bin. *)
Lemma contiguous_first (at_ : nat) (p : R) (b : BIN.t) (bins : list BIN.t) :
  contiguous at_ p (b :: bins) -> BIN.lo b = CNum p.
Proof. intros [_ [H _]]. exact H. Qed.

Lemma contiguous_last (at_ : nat) (bins : list BIN.t) :
  forall p b, contiguous at_ p bins ->
    nth_error bins (length bins - 1) = Some b -> BIN.hi b = CNum big.
Proof.
  induction bins as [|b0 bs IH]; intros p b C Hn; [discriminate|].
  destruct C as [_ [_ [h [Hh [_ C]]]]]. destruct bs as [|b1 bs].
  - cbn in Hn, C. inversion Hn. congruence.
  - apply (IH h b C). cbn in *. rewrite Nat.sub_0_r in *. exact Hn.
Qed.

Lemma contiguous_adjacent (at_ : nat) (bins : list BIN.t) :
  forall p i b1 b2, contiguous at_ p bins ->
    nth_error bins i = Some b1 -> nth_error bins (S i) = Some b2 ->
    BIN.lo b2 = BIN.hi b1 /\
    exists l1 l2, BIN.lo b1 = CNum l1 /\ BIN.lo b2 = CNum l2 /\ (l1 < l2)%R.
Proof.
  induction bins as [|b0 bs IH]; intros p i b1 b2 C H1 H2;
    [destruct i; discriminate|].
  destruct C as [_ [Hl [h [Hh [Hlt C]]]]]. destruct i as [|i].
  - inversion H1; subst b0. destruct bs as [|b bs]; [discriminate|].
    inversion H2; subst b. destruct C as [_ [Hl2 _]].
    split; [congruence|]. exists p, h. auto.
  - apply (IH h i b1 b2 C H1 H2).
Qed.

(** *** Equal-width keys rise with the value *)

Lemma Int_part_mono (x y : R) : (x <= y)%R -> (Int_part x <= Int_part y)%Z.
Proof.
  intros H. destruct (base_Int_part x) as [X1 X2].
  destruct (base_Int_part y) as [Y1 Y2].
  destruct (Z_le_gt_dec (Int_part x) (Int_part y)) as [L|G]; [exact L|].
  exfalso. assert (Hz : (Int_part y + 1 <= Int_part x)%Z) by lia.
  apply IZR_le in Hz. rewrite plus_IZR in Hz. lra.
Qed.

Lemma Int_part_nonneg (x : R) : (0 <= x)%R -> (0 <= Int_part x)%Z.
Proof.
  intros H. destruct (base_Int_part x) as [X1 X2].
  destruct (Z_le_gt_dec 0 (Int_part x)) as [L|G]; [exact L|].
  exfalso. assert (Hz : (Int_part x <= -1)%Z) by lia.
  apply IZR_le in Hz. lra.
Qed.

Lemma int_mono (x y : R) : (x <= y)%R -> (Py.int x <= Py.int y)%Z.
Proof.
  intros H. unfold Py.int.
  destruct (Rle_dec 0 x) as [Hx|Hx]; destruct (Rle_dec 0 y) as [Hy|Hy].
  - apply Int_part_mono. exact H.
  - lra.
  - pose proof (Int_part_nonneg (- x) ltac:(lra)).
    pose proof (Int_part_nonneg y Hy). lia.
  - pose proof (Int_part_mono (- y) (- x) ltac:(lra)). lia.
Qed.

Lemma bin_zkey (the : The.t) (c : NUM.t) (x : R) :
  (0 < NUM.hi c - NUM.lo c + tiny)%R ->
  COL.bin the (COL.Num c) (CNum x) = Ok (CNum (IZR (zkey the c x))).
Proof.
  intros H. unfold COL.bin, NUM.bin, NUM.norm. cbn [missing].
  rewrite div_ok by lra. reflexivity.
Qed.

Lemma zkey_mono (the : The.t) (c : NUM.t) (x y : R) :
  (0 < The.Bins the)%Z -> (0 < NUM.hi c - NUM.lo c + tiny)%R ->
  (x <= y)%R -> (zkey the c x <= zkey the c y)%Z.
Proof.
  intros HB Hd Hxy. unfold zkey. apply Z.min_le_compat_l. apply int_mono.
  apply Rmult_le_compat_l; [apply IZR_le; lia|].
  unfold Rdiv. apply Rmult_le_compat_r; [|lra].
  apply Rlt_le. apply Rinv_0_lt_compat. exact Hd.
Qed.

(** *** Dictionaries keyed by cells *)

Lemma cell_eqb_eq (a b : cell) : cell_eqb a b = true -> a = b.
Proof.
  destruct a as [x|s]; destruct b as [y|t]; cbn; try discriminate.
  - unfold Reqb. destruct (Req_dec_T x y); [congruence | discriminate].
  - intros H. apply String.eqb_eq in H. congruence.
Qed.

Lemma cell_eqb_refl (a : cell) : cell_eqb a a = true.
Proof.
  destruct a as [x|s]; cbn; [apply Reqb_true; reflexivity|].
  apply String.eqb_refl.
Qed.

Lemma cget_Some_In {V} (d : list (cell * V)) (k : cell) (v : V) :
  cget d k = Some v -> In (k, v) d.
Proof.
  induction d as [|[k' v'] d IH]; cbn; [discriminate|].
  destruct (cell_eqb k' k) eqn:E.
  - intros H. inversion H; subst. apply cell_eqb_eq in E. subst. auto.
  - auto.
Qed.

Lemma cget_None_notin {V} (d : list (cell * V)) (k : cell) :
  cget d k = None -> ~ In k (map fst d).
Proof.
  induction d as [|[k' v'] d IH]; cbn; [tauto|].
  destruct (cell_eqb k' k) eqn:E; [discriminate|].
  intros H [Hk|Hin]; [|exact (IH H Hin)].
  subst. rewrite cell_eqb_refl in E. discriminate.
Qed.

Lemma cset_absent {V} (d : list (cell * V)) (k : cell) (v : V) :
  cget d k = None -> cset d k v = d ++ [(k, v)].
Proof.
  induction d as [|[k' v'] d IH]; cbn; [reflexivity|].
  destruct (cell_eqb k' k); [discriminate|].
  intros H. rewrite (IH H). reflexivity.
Qed.

Lemma cset_present {V} (d : list (cell * V)) (k : cell) (v v0 : V)
    (P : cell * V -> Prop) :
  cget d k = Some v0 ->
  map fst (cset d k v) = map fst d /\
  (Forall P d -> P (k, v) -> Forall P (cset d k v)).
Proof.
  induction d as [|[k' v'] d IH]; cbn; [discriminate|].
  destruct (cell_eqb k' k) eqn:E.
  - intros _. apply cell_eqb_eq in E. subst k'. split; [reflexivity|].
    intros HF HP. inversion HF; subst. constructor; assumption.
  - intros H. destruct (IH H) as [IH1 IH2]. split.
    + cbn. rewrite IH1. reflexivity.
    + intros HF HP. inversion HF; subst. constructor; auto.
Qed.

Lemma NoDup_keys_unique {K V} (d : list (K * V)) (k : K) (v1 v2 : V) :
  NoDup (map fst d) -> In (k, v1) d -> In (k, v2) d -> v1 = v2.
Proof.
  induction d as [|[k' v'] d IH]; cbn; [tauto|].
  intros Hnd H1 H2. inversion Hnd as [|? ? Hk Hnd']; subst.
  destruct H1 as [H1|H1]; destruct H2 as [H2|H2].
  - congruence.
  - inversion H1; subst. exfalso. apply Hk.
    apply (in_map fst) in H2. exact H2.
  - inversion H2; subst. exfalso. apply Hk.
    apply (in_map fst) in H1. exact H1.
  - apply (IH Hnd' H1 H2).
Qed.

Lemma total_count_incr (c : Counter) (y : string) :
  0 < total_count (incr c y).
Proof.
  rewrite total_count_sum. unfold values.
  induction c as [|[k n] c IH]; cbn [incr].
  - cbn. lia.
  - destruct (String.eqb k y); cbn [map snd]; rewrite list_sum_cons; lia.
Qed.

(** *** Grouping the values of a numeric column into initial bins *)

Section Grouping.
Variable the : The.t.
Variable c : NUM.t.
Hypothesis HB : (0 < The.Bins the)%Z.
Hypothesis Hd : (0 < NUM.hi c - NUM.lo c + tiny)%R.

Lemma send2bin_grouped (out : list (cell * BIN.t)) (x : R) (y : string) :
  grouped the c out -> (- big < x < big)%R ->
  exists out', COL.send2bin the (COL.Num c) out (CNum x) y = Ok out' /\
               grouped the c out' /\ out' <> [].
Proof.
  intros [HF HN] Hx. unfold COL.send2bin. rewrite (bin_zkey the c x Hd).
  cbn [Py.bind]. set (k := CNum (IZR (zkey the c x))).
  destruct (cget out k) as [b|] eqn:E.
  - pose proof (cget_Some_In out k b E) as Hin.
    pose proof (proj1 (Forall_forall _ _) HF _ Hin) as Hok.
    destruct Hok as [l [h [[Ga [Gl [Gh [Gle [Gb Gp]]]]] [Hl [Hk Hz]]]]].
    cbn [fst snd] in *.
    assert (Zl : zkey the c l = zkey the c x).
    { unfold k in Hk. inversion Hk as [Hk']. apply eq_IZR in Hk'. auto. }
    unfold BIN.add. rewrite Gl, Gh. unfold cell_min, cell_max.
    cbn [cell_ltb Py.bind].
    set (b' := {| BIN.at_ := BIN.at_ b; BIN.txt := BIN.txt b;
                  BIN.lo := if Rltb l x then CNum l else CNum x;
                  BIN.hi := if Rltb x h then CNum h else CNum x;
                  BIN.ys := incr (BIN.ys b) y |}).
    assert (Hb' : (entry_ok the c) (k, b')).
    { exists (if Rltb l x then l else x), (if Rltb x h then h else x).
      cbn [fst snd]. split; [|split; [|split]].
      - unfold good_bin, b'. cbn [BIN.at_ BIN.lo BIN.hi BIN.ys].
        split; [exact Ga|].
        split; [destruct (Rltb l x); reflexivity|].
        split; [destruct (Rltb x h); reflexivity|].
        split; [|split; [|apply total_count_incr]].
        + destruct (Rltb l x) eqn:E1; destruct (Rltb x h) eqn:E2;
            try apply Rltb_spec in E1; try apply Rltb_spec in E2; lra.
        + destruct (Rltb x h); lra.
      - destruct (Rltb l x); lra.
      - unfold k. destruct (Rltb l x); congruence.
      - destruct (Rltb l x); destruct (Rltb x h); congruence. }
    destruct (cset_present out k b' b (entry_ok the c) E) as [Hkeys HFs].
    exists (cset out k b'). split; [reflexivity|]. split.
    + split; [apply HFs; assumption | rewrite Hkeys; exact HN].
    + intros Hnil. apply (f_equal (map fst)) in Hnil. rewrite Hkeys in Hnil.
      destruct out; [discriminate E | discriminate Hnil].
  - unfold BIN.add, BIN.new. cbn [BIN.lo BIN.hi BIN.ys BIN.at_ BIN.txt].
    unfold cell_min, cell_max. cbn [cell_ltb Py.bind].
    rewrite (Rltb_false x x) by lra.
    rewrite (cset_absent out k _ E).
    eexists. split; [reflexivity|]. split.
    + split.
      * apply Forall_app. split; [exact HF|]. constructor; [|constructor].
        exists x, x. cbn [fst snd]. split; [|split; [lra|split; reflexivity]].
        unfold good_bin. cbn. repeat split; try lra.
        apply (total_count_incr [] y).
      * rewrite map_app. cbn [map fst].
        apply (Permutation_NoDup (Permutation_cons_append (map fst out) k)).
        constructor; [apply cget_None_notin; exact E | exact HN].
    + intros Hnil. apply app_eq_nil in Hnil. destruct Hnil. discriminate.
Qed.

Lemma send_rows_grouped (y : string) (lst : Rows) :
  forall out,
    grouped the c out -> rows_in_range c lst ->
    exists out', COL.send_rows the (COL.Num c) y lst out = Ok out' /\
                 grouped the c out' /\ (out <> [] -> out' <> []) /\
                 ((exists row x, In row lst /\
                                 nth_error row (NUM.at_ c) = Some (CNum x)) ->
                  out' <> []).
Proof.
  induction lst as [|row lst IH]; intros out G HR.
  - exists out. split; [reflexivity|]. split; [exact G|].
    split; [auto|]. intros [r [x [[] _]]].
  - inversion HR as [|? ? [v [Hv Hc]] HR']; subst.
    cbn [COL.send_rows COL.at_]. unfold index. rewrite Hv. cbn [Py.bind].
    destruct Hc as [Hm|[x [-> Hx]]].
    + rewrite Hm. cbn [Py.bind].
      destruct (IH out G HR') as [out' [E [G' [N1 N2]]]].
      exists out'. split; [exact E|]. split; [exact G'|].
      split; [exact N1|].
      intros [r [x [[Hr|Hr] Hn]]].
      * subst r. rewrite Hv in Hn. inversion Hn; subst. discriminate.
      * apply N2. eauto.
    + cbn [missing].
      destruct (send2bin_grouped out x y G Hx) as [out1 [E1 [G1 N1]]].
      rewrite E1. cbn [Py.bind].
      destruct (IH out1 G1 HR') as [out' [E [G' [N2 _]]]].
      exists out'. split; [exact E|]. split; [exact G'|].
      split; intros _; apply N2; exact N1.
Qed.

Lemma send_classes_grouped (classes : Classes) :
  forall out,
    grouped the c out ->
    (forall k rows, In (k, rows) classes -> rows_in_range c rows) ->
    exists out', COL.send_classes the (COL.Num c) classes out = Ok out' /\
                 grouped the c out' /\ (out <> [] -> out' <> []) /\
                 ((exists k rows row x,
                     In (k, rows) classes /\ In row rows /\
                     nth_error row (NUM.at_ c) = Some (CNum x)) ->
                  out' <> []).
Proof.
  induction classes as [|[y lst] classes IH]; intros out G HR.
  - exists out. split; [reflexivity|]. split; [exact G|].
    split; [auto|]. intros [k [rows [r [x [[] _]]]]].
  - cbn [COL.send_classes].
    destruct (send_rows_grouped y lst out G (HR y lst (or_introl eq_refl)))
      as [out1 [E1 [G1 [N1 M1]]]].
    rewrite E1. cbn [Py.bind].
    destruct (IH out1 G1) as [out' [E [G' [N2 M2]]]].
    { intros k rows Hin. apply (HR k rows). right. exact Hin. }
    exists out'. split; [exact E|]. split; [exact G'|].
    split; [intros H; apply N2, N1, H|].
    intros [k [rows [r [x [[Hk|Hk] [Hr Hn]]]]]].
    + inversion Hk; subst. apply N2, M1. eauto.
    + apply M2. eauto 8.
Qed.

(** Two bins of [out] are the same bin or lie apart. *)
Lemma grouped_apart (out : list (cell * BIN.t)) (b1 b2 : BIN.t) :
  grouped the c out -> In b1 (values out) -> In b2 (values out) ->
  b1 = b2 \/
  forall l1 h1 l2 h2, good_bin (NUM.at_ c) b1 l1 h1 ->
                      good_bin (NUM.at_ c) b2 l2 h2 ->
                      (h1 < l2)%R \/ (h2 < l1)%R.
Proof.
  intros [HF HN] H1 H2. unfold values in *.
  apply in_map_iff in H1. destruct H1 as [[k1 b1'] [E1 I1]].
  apply in_map_iff in H2. destruct H2 as [[k2 b2'] [E2 I2]].
  cbn in E1, E2. subst b1' b2'.
  pose proof (proj1 (Forall_forall _ _) HF _ I1) as O1.
  pose proof (proj1 (Forall_forall _ _) HF _ I2) as O2.
  destruct O1 as [l1 [h1 [G1 [_ [K1 Z1]]]]].
  destruct O2 as [l2 [h2 [G2 [_ [K2 Z2]]]]]. cbn [fst snd] in *.
  destruct (Z.eq_dec (zkey the c l1) (zkey the c l2)) as [Hz|Hz].
  - left. assert (E12 : k2 = k1) by congruence. rewrite E12 in I2.
    apply (NoDup_keys_unique out k1 b1 b2 HN I1 I2).
  - right. intros l1' h1' l2' h2' G1' G2'.
    assert (l1' = l1 /\ h1' = h1).
    { destruct G1 as [_ [A [B _]]]. destruct G1' as [_ [A' [B' _]]].
      split; congruence. }
    assert (l2' = l2 /\ h2' = h2).
    { destruct G2 as [_ [A [B _]]]. destruct G2' as [_ [A' [B' _]]].
      split; congruence. }
    destruct H as [-> ->]. destruct H0 as [-> ->].
    destruct (Rlt_dec h1 l2) as [|N1]; [left; assumption|].
    destruct (Rlt_dec h2 l1) as [|N2]; [right; assumption|].
    exfalso.
    pose proof (zkey_mono the c l2 h1 HB Hd ltac:(lra)).
    pose proof (zkey_mono the c l1 h2 HB Hd ltac:(lra)).
    lia.
Qed.

End Grouping.

(** *** Sorting the initial bins by [lo] *)

Lemma insert_by_cell {A} (x : R * A) (l : list (R * A)) :
  insert_by cell_ltb (numkey x) (map numkey l)
  = Ok (map numkey (insert_key x l)).
Proof.
  induction l as [|y l IH]; [reflexivity|].
  cbn [map insert_by insert_key numkey fst snd cell_ltb Py.bind].
  destruct (Rltb (fst y) (fst x)); [|reflexivity].
  fold (numkey x). rewrite IH. reflexivity.
Qed.

Lemma sort_by_cell {A} (l : list (R * A)) :
  sort_by cell_ltb (map numkey l) = Ok (map numkey (isort l)).
Proof.
  induction l as [|x l IH]; [reflexivity|].
  cbn [map sort_by isort]. rewrite IH. cbn [Py.bind].
  apply insert_by_cell.
Qed.

Lemma mapM_total {A K} (f : A -> K) (L : list A) :
  mapM (fun x => Ok (f x, x)) L = Ok (map (fun x => (f x, x)) L).
Proof.
  induction L as [|b L IH]; [reflexivity|].
  cbn [mapM map]. rewrite IH. reflexivity.
Qed.

Lemma sorted_by_lo (L : list BIN.t) :
  Forall (fun b => exists l, BIN.lo b = CNum l) L ->
  sorted cell_ltb (fun z => Ok (BIN.lo z)) L = Ok (ranked by_lo L).
Proof.
  intros H. unfold sorted.
  assert (E : map (fun x => (BIN.lo x, x)) L = map numkey (keyed by_lo L)).
  { induction H as [|b L [l Hl] _ IH]; [reflexivity|].
    cbn [keyed map numkey fst snd]. fold (keyed by_lo L). rewrite <- IH.
    unfold key_value, by_lo, lo_num. rewrite Hl. reflexivity. }
  change (mapM (fun x => k <- Ok (BIN.lo x) ;; Ok (k, x)) L)
    with (mapM (fun x => Ok (BIN.lo x, x)) L).
  rewrite (mapM_total BIN.lo L), E. cbn [Py.bind].
  rewrite sort_by_cell. cbn [Py.bind].
  unfold ranked. rewrite map_map. reflexivity.
Qed.

Lemma sorted_chain (at_ : nat) (S : list BIN.t) :
  forall p,
    StronglySorted (fun a b => (lo_num a <= lo_num b)%R) S ->
    NoDup S ->
    (forall b, In b S -> exists l h, good_bin at_ b l h /\ (p < l)%R) ->
    (forall b1 b2, In b1 S -> In b2 S ->
       b1 = b2 \/
       forall l1 h1 l2 h2, good_bin at_ b1 l1 h1 -> good_bin at_ b2 l2 h2 ->
                           (h1 < l2)%R \/ (h2 < l1)%R) ->
    chain at_ p S.
Proof.
  induction S as [|b S IH]; intros p Hs Hn Hg Ha; [exact I|].
  inversion Hs as [|? ? Hs' Hall]; subst.
  inversion Hn as [|? ? Hnb Hn']; subst.
  destruct (Hg b (or_introl eq_refl)) as [l [h [G Hp]]].
  exists l, h. split; [exact G|]. split; [exact Hp|].
  apply IH; [exact Hs' | exact Hn' | | ].
  - intros b' Hb'.
    destruct (Hg b' (or_intror Hb')) as [l' [h' [G' Hp']]].
    exists l', h'. split; [exact G'|].
    destruct (Ha b b' (or_introl eq_refl) (or_intror Hb')) as [Heq|Hap].
    + subst b'. contradiction.
    + destruct (Hap l h l' h' G G') as [H1|H1]; [exact H1|].
      exfalso.
      pose proof (proj1 (Forall_forall _ _) Hall b' Hb') as Hle.
      unfold lo_num in Hle.
      destruct G as [_ [Gl _]]. destruct G' as [_ [Gl' [_ [Gle' _]]]].
      rewrite Gl, Gl' in Hle. lra.
  - intros b1 b2 H1 H2. apply Ha; right; assumption.
Qed.

(** *** The finished bins of a numeric column *)

Lemma small_or_ok (the : The.t) (classes : Classes) (small : option R) :
  (0 < The.Bins the)%Z -> exists s, COL.small_or the classes small = Ok s.
Proof.
  intros HB. unfold COL.small_or.
  assert (IZR (The.Bins the) <> 0%R).
  { apply not_0_IZR. lia. }
  destruct small as [s|]; [destruct (Reqb s 0)|]; rewrite ?div_ok by assumption;
    eauto.
Qed.

(** C4, as the code has it. For a numeric column that has a positive
    range and a partition whose cells in that column are missing or
    numbers strictly between [-big] and [big] (with [big] = 1e32 standing
    for infinity), at least one of them a number, the Discretizer returns
    a list of bins that is ordered by [lo] and contiguous: the first
    [lo] is [-big], the last [hi] is [big], each later [lo] is the [hi]
    before it, and every number of the column is selected by exactly one
    bin. *)
Theorem bins_contiguous_within_big (the : The.t) (c : NUM.t)
    (classes : Classes) (small : option R) :
  (0 < The.Bins the)%Z ->
  (0 < NUM.hi c - NUM.lo c + tiny)%R ->
  (forall k rows row, In (k, rows) classes -> In row rows ->
     exists v, nth_error row (NUM.at_ c) = Some v /\ cell_in_range v) ->
  (exists k rows row x, In (k, rows) classes /\ In row rows /\
                        nth_error row (NUM.at_ c) = Some (CNum x)) ->
  exists bins, COL.bins the (COL.Num c) classes small = Ok bins /\
               finished (NUM.at_ c) classes bins.
Proof.
  intros HB Hd Hrows Hsome. unfold COL.bins.
  destruct (send_classes_grouped the c Hd classes [])
    as [out [E [G [_ Hne]]]].
  { split; constructor. }
  { intros k rows Hin. apply Forall_forall. intros row Hr.
    apply (Hrows k rows row Hin Hr). }
  rewrite E. cbn [Py.bind]. specialize (Hne Hsome).
  assert (Hgood : forall b, In b (values out) ->
            exists l h, good_bin (NUM.at_ c) b l h /\ (- big < l)%R).
  { intros b Hb. unfold values in Hb. apply in_map_iff in Hb.
    destruct Hb as [[k b'] [Eb Hin]]. cbn in Eb. subst b'.
    destruct G as [HF _].
    destruct (proj1 (Forall_forall _ _) HF _ Hin) as [l [h [Gb [Hl _]]]].
    exists l, h. auto. }
  assert (Hnum : Forall (fun b => exists l, BIN.lo b = CNum l) (values out)).
  { apply Forall_forall. intros b Hb.
    destruct (Hgood b Hb) as [l [h [[_ [Gl _]] _]]]. eauto. }
  rewrite (sorted_by_lo (values out) Hnum). cbn [Py.bind].
  destruct (small_or_ok the classes small HB) as [s ->]. cbn [Py.bind].
  assert (Hnd : NoDup (values out)).
  { destruct G as [HF HN]. unfold values. clear - HF HN.
    induction out as [|[k b] out IH]; [constructor|].
    inversion HF as [|? ? Hk HF']; subst.
    inversion HN as [|? ? Hnk HN']; subst.
    cbn [map snd]. constructor; [|apply IH; assumption].
    intros Hin. apply in_map_iff in Hin.
    destruct Hin as [[k' b'] [Eb Hin]]. cbn in Eb. subst b'.
    apply Hnk. apply in_map_iff. exists (k', b). split; [|exact Hin].
    cbn. destruct Hk as [l [h [[_ [Gl _]] [_ [Kk _]]]]].
    destruct (proj1 (Forall_forall _ _) HF' _ Hin)
      as [l' [h' [[_ [Gl' _]] [_ [Kk' _]]]]].
    cbn [fst snd] in *. congruence. }
  pose proof (ranked_perm by_lo (values out)) as Hperm.
  assert (C : chain (NUM.at_ c) (- big) (ranked by_lo (values out))).
  { apply sorted_chain.
    - apply (ranked_sorted by_lo).
    - apply (Permutation_NoDup (Permutation_sym Hperm)). exact Hnd.
    - intros b Hb. apply Hgood.
      apply (Permutation_in _ Hperm). exact Hb.
    - intros b1 b2 H1 H2.
      apply (grouped_apart the c HB Hd out b1 b2 G);
        apply (Permutation_in _ Hperm); assumption. }
  assert (Hne' : ranked by_lo (values out) <> []).
  { intros Hnil. rewrite Hnil in Hperm. apply Permutation_nil in Hperm.
    unfold values in Hperm. destruct out; [congruence | discriminate]. }
  destruct (binsComplete_contiguous c _ s (NUM.at_ c) C Hne')
    as [bins [Eb [Hb Hc]]].
  exists bins. split; [exact Eb|].
  split; [exact Hb|]. split; [|split; [|split]].
  - intros b H0. destruct bins as [|b0 bins]; [discriminate|].
    inversion H0; subst. apply (contiguous_first _ _ _ _ Hc).
  - intros b Hl. apply (contiguous_last _ _ _ _ Hc Hl).
  - intros i b1 b2 H1 H2. apply (contiguous_adjacent _ _ _ _ _ _ Hc H1 H2).
  - intros k rows row x Hin Hr Hx.
    destruct (Hrows k rows row Hin Hr) as [v [Hv Hrange]].
    rewrite Hx in Hv. inversion Hv; subst v.
    destruct Hrange as [Hm|[x' [Ex Hx']]]; [discriminate|].
    inversion Ex; subst x'.
    apply (contiguous_selects_one _ row x bins Hx (- big) Hc). lra.
Qed.

Lemma bins_contiguous_within_big_witness :
  exists bins,
    COL.bins The.defaults (COL.Num volume) volume_classes None = Ok bins /\
    finished 0 volume_classes bins.
Proof.
  apply (bins_contiguous_within_big The.defaults volume volume_classes None).
  - reflexivity.
  - cbn. unfold Rmax, Rmin, tiny, big.
    repeat match goal with
           | |- context [Rle_dec ?a ?b] => destruct (Rle_dec a b)
           end; lra.
  - intros k rows row Hin Hr. unfold volume_classes in Hin.
    assert (Hrow : row = [CNum 10] \/ row = [CStr "?"] \/ row = [CNum 40]).
    { destruct Hin as [H|[H|H]]; [| |destruct H]; inversion H; subst;
        cbn in Hr; intuition auto. }
    destruct Hrow as [-> | [-> | ->]]; eexists; (split; [reflexivity|]).
    + right. exists 10%R. split; [reflexivity|]. unfold big. lra.
    + left. reflexivity.
    + right. exists 40%R. split; [reflexivity|]. unfold big. lra.
  - exists "best"%string, [[CNum 10]; [CStr "?"]], [CNum 10], 10%R.
    split; [left; reflexivity|]. split; [left; reflexivity|]. reflexivity.
Defined.

(** The claim as the specification words it fails there: the only bin
    runs from -1e32 to 1e32, not over the whole line, and the value of
    the column is selected by no bin. *)
Lemma bins_miss_2e32 :
  COL.bins The.defaults (COL.Num volume_2e32) classes_2e32 None
  = Ok [ {| BIN.at_ := 0; BIN.txt := "Volume"; BIN.lo := CNum (- big);
            BIN.hi := CNum big; BIN.ys := [("best"%string, 1)] |} ] /\
  BIN.selects {| BIN.at_ := 0; BIN.txt := "Volume"; BIN.lo := CNum (- big);
                 BIN.hi := CNum big; BIN.ys := [("best"%string, 1)] |}
              [CNum 2e32] = Ok false.
Proof.
  split.
  - assert (Hd : (0 < NUM.hi volume_2e32 - NUM.lo volume_2e32 + tiny)%R).
    { unfold volume_2e32, fresh_volume, NUM.add.
      cbn [missing fst NUM.hi NUM.lo]. unfold Rmax, Rmin, tiny, big.
      repeat match goal with
             | |- context [Rle_dec ?a ?b] => destruct (Rle_dec a b)
             end; lra. }
    unfold COL.bins, classes_2e32.
    cbn [COL.send_classes COL.send_rows COL.at_ Py.bind].
    change (NUM.at_ volume_2e32) with 0.
    cbn [index nth_error missing Py.bind].
    unfold COL.send2bin. rewrite (bin_zkey The.defaults volume_2e32 _ Hd).
    cbn [Py.bind cget]. unfold BIN.add, BIN.new, cell_min, cell_max.
    cbn [BIN.lo BIN.hi cell_ltb Py.bind].
    rewrite (Rltb_false 2e32 2e32) by lra.
    cbn [cset values map snd Py.bind].
    unfold sorted. cbn [mapM Py.bind sort_by insert_by map snd].
    unfold COL.small_or, COL.total.
    cbn [map snd length list_sum fold_right Nat.add The.Bins The.defaults].
    rewrite div_ok by lra. cbn [Py.bind].
    unfold COL.binsComplete, NUM.binsComplete.
    rewrite merges_step. cbn [merges_pass length Nat.eqb Py.bind].
    reflexivity.
  - unfold BIN.selects. cbn [index nth_error BIN.at_ Py.bind missing
                             BIN.lo BIN.hi cell_eqb cell_leb cell_ltb].
    rewrite (Reqb_false (- big) 2e32) by (unfold big; lra).
    cbn [andb]. rewrite (Rleb_true (- big) 2e32) by (unfold big; lra).
    cbn [Py.bind]. rewrite (Rltb_false 2e32 big) by (unfold big; lra).
    reflexivity.
Qed.

Lemma smo_permutes_rows_in_place_witness :
  DATA.rows (Store.obj (fst (Smo.smo The.defaults Smo.B_minus_R [1; 0; 1] 0
                                     store_cars)) 0)
  = shuffle [1; 0; 1] (DATA.rows cars) /\
  Permutation
    (DATA.rows (Store.obj (fst (Smo.smo The.defaults Smo.B_minus_R [1; 0; 1]
                                        0 store_cars)) 0))
    (DATA.rows cars) /\
  DATA.cols (Store.obj (fst (Smo.smo The.defaults Smo.B_minus_R [1; 0; 1] 0
                                     store_cars)) 0)
  = DATA.cols cars /\
  (forall a b : Row, shuffle [0] [a; b] = [b; a]).
Proof.
  apply (smo_permutes_rows_in_place The.defaults Smo.B_minus_R [1; 0; 1] 0
           store_cars).
  simpl. lia.
Defined.

(** ** Datasets on which nothing raises *)

Lemma same_shape_at (a b : COL.t) :
  same_shape a b -> COL.at_ a = COL.at_ b /\ COL.txt a = COL.txt b.
Proof. destruct a, b; cbn; tauto. Qed.

Lemma same_shape_in_y (a b : COL.t) :
  same_shape a b -> COLS.in_y a = COLS.in_y b.
Proof.
  intros H. apply same_shape_at in H. unfold COLS.in_y.
  destruct H as [_ ->]. reflexivity.
Qed.

Lemma same_shape_in_x (a b : COL.t) :
  same_shape a b -> COLS.in_x a = COLS.in_x b.
Proof.
  intros H. apply same_shape_at in H. unfold COLS.in_x.
  destruct H as [_ ->]. reflexivity.
Qed.

Lemma same_shape_refl (a : COL.t) : same_shape a a.
Proof. destruct a; cbn; auto. Qed.

Lemma same_shape_trans (a b c : COL.t) :
  same_shape a b -> same_shape b c -> same_shape a c.
Proof. destruct a, b, c; cbn; intuition congruence. Qed.

Lemma same_shape_cell_ok (a b : COL.t) (v : cell) :
  same_shape a b -> cell_ok a v -> cell_ok b v.
Proof.
  intros H. pose proof (same_shape_in_y a b H) as Hy.
  destruct a, b; cbn in H; try contradiction; unfold cell_ok;
    rewrite <- Hy; auto.
Qed.

Lemma row_ok_shape (cs cs' : list COL.t) (row : Row) :
  Forall2 same_shape cs cs' -> row_ok cs row -> row_ok cs' row.
Proof.
  unfold row_ok. induction 1 as [|a b cs cs' Hab _ IH]; intros H;
    [constructor|].
  inversion H as [|? ? [v [Hv Hc]] H']; subst. constructor; [|auto].
  exists v. destruct (same_shape_at a b Hab) as [<- _].
  split; [exact Hv|]. apply (same_shape_cell_ok a b v Hab Hc).
Qed.

Lemma Forall2_same_shape_refl (cs : list COL.t) : Forall2 same_shape cs cs.
Proof. induction cs; constructor; auto using same_shape_refl. Qed.

Lemma Forall2_same_shape_trans (a b c : list COL.t) :
  Forall2 same_shape a b -> Forall2 same_shape b c -> Forall2 same_shape a c.
Proof.
  intros H. revert c. induction H; intros c Hc; inversion Hc; subst;
    constructor; eauto using same_shape_trans.
Qed.

Lemma filter_in_y_shape (a b : list COL.t) :
  Forall2 same_shape a b ->
  Forall2 same_shape (filter COLS.in_y a) (filter COLS.in_y b).
Proof.
  induction 1 as [|x y a b Hxy _ IH]; [constructor|].
  cbn [filter]. rewrite <- (same_shape_in_y x y Hxy).
  destruct (COLS.in_y x); [constructor|]; assumption.
Qed.

Lemma col_add_ok (col : COL.t) (v : cell) :
  cell_ok col v -> missing v = false -> col_inv col ->
  exists col', COL.add col v = (col', Ok tt) /\ same_shape col col' /\
               col_inv col' /\ col_seen col'.
Proof.
  intros Hc Hm Hi. destruct col as [c|c]; cbn [COL.add].
  - destruct Hc as [[x ->]|[Hm' _]]; [|congruence].
    unfold NUM.add. cbn [missing].
    eexists. split; [reflexivity|]. split; [cbn; auto|]. split.
    + cbn. intros _. pose proof (Rmin_l x (NUM.lo c)).
      pose proof (Rmax_l x (NUM.hi c)). lra.
    + intros _. cbn. lia.
  - eexists. split; [reflexivity|]. split.
    + unfold SYM.add. rewrite Hm. cbn. auto.
    + split; [exact I|]. intros Hy. unfold cell_ok in Hc.
      unfold COLS.in_y, COL.txt in *. unfold SYM.add in Hy.
      rewrite Hm in Hy. cbn in Hy. congruence.
Qed.

Lemma add_cols_ok (row : Row) (cs : list COL.t) :
  row_ok cs row -> Forall col_inv cs ->
  exists cs', COLS.add_cols cs row = (cs', Ok tt) /\
              Forall2 same_shape cs cs' /\ Forall col_inv cs' /\
              Forall col_seen cs'.
Proof.
  induction cs as [|col cs IH]; intros Hr Hi.
  - exists []. repeat split; constructor.
  - inversion Hr as [|? ? [v [Hv Hc]] Hr']; subst.
    inversion Hi as [|? ? Hic Hi']; subst.
    destruct (IH Hr' Hi') as [cs' [E [S1 [I1 N1]]]].
    cbn [COLS.add_cols]. unfold index. rewrite Hv.
    destruct (missing v) eqn:Hm.
    + rewrite E. exists (col :: cs'). split; [reflexivity|].
      split; [constructor; [apply same_shape_refl | exact S1]|].
      split; [constructor; assumption|].
      constructor; [|exact N1].
      intros Hy. destruct col as [c|c]; cbn in Hc.
      * destruct Hc as [[x ->]|[_ Hc]]; [discriminate | congruence].
      * congruence.
    + destruct (col_add_ok col v Hc Hm Hic) as [col' [Ea [Sa [Ia Na]]]].
      rewrite Ea, E. exists (col' :: cs'). split; [reflexivity|].
      split; [constructor; assumption|].
      split; constructor; assumption.
Qed.

Lemma mapM_ok {A B} (f : A -> result B) (xs : list A) :
  Forall (fun x => exists y, f x = Ok y) xs -> exists ys, mapM f xs = Ok ys.
Proof.
  induction 1 as [|x xs [y Hy] _ [ys IH]]; [exists []; reflexivity|].
  exists (y :: ys). cbn [mapM]. rewrite Hy, IH. reflexivity.
Qed.

Lemma new_cols_fresh (names : Row) :
  forall k cs, COLS.new_cols k names = Ok cs -> Forall col_inv cs.
Proof.
  induction names as [|name names IH]; intros k cs H; cbn in H.
  - inversion H. constructor.
  - destruct (COLS.new_col k name) as [c|e] eqn:Ec; cbn in H; [|discriminate].
    destruct (COLS.new_cols (S k) names) as [cs'|e] eqn:Ecs; cbn in H;
      [|discriminate].
    inversion H; subst cs. constructor; [|apply (IH _ _ Ecs)].
    unfold COLS.new_col in Ec. destruct name as [x|txt]; [discriminate|].
    destruct (first_char txt); cbn in Ec; [|discriminate].
    destruct (last_char txt) eqn:El; cbn in Ec; [|discriminate].
    destruct (COLS.isupper a).
    + unfold NUM.new in Ec. rewrite El in Ec. cbn in Ec.
      inversion Ec; subst c. cbn. lia.
    + inversion Ec; subst c. exact I.
Qed.

Section WellFormed.
Variable the : The.t.
Variable names : Row.
Variable cF : COLS.t.
Hypothesis Hnew : COLS.new names = Ok cF.
Hypothesis Hgoal : COLS.y cF <> [].

Lemma fresh_names : COLS.names cF = names.
Proof.
  unfold COLS.new in Hnew. destruct (COLS.new_cols 0 names); cbn in Hnew;
    [|discriminate].
  inversion Hnew. reflexivity.
Qed.

Lemma fresh_inv : Forall col_inv (COLS.all cF).
Proof.
  unfold COLS.new in Hnew.
  destruct (COLS.new_cols 0 names) as [cs|e] eqn:E; cbn in Hnew;
    [|discriminate].
  inversion Hnew. cbn. apply (new_cols_fresh names 0 cs E).
Qed.

Lemma add_ok (d : DATA.t) (row : Row) :
  data_ok names cF d -> row_ok (COLS.all cF) row ->
  exists d', DATA.add d row = (d', Ok tt) /\ data_ok names cF d' /\
             DATA.rows d' = DATA.rows d ++ [row].
Proof.
  intros [Hr [c [Hc [Hn [Hs [Hi _]]]]]] Hrow. unfold DATA.add. rewrite Hc.
  unfold COLS.add.
  destruct (add_cols_ok row (COLS.all c) (row_ok_shape _ _ row Hs Hrow) Hi)
    as [cs' [E [S1 [I1 N1]]]].
  rewrite E. eexists. split; [reflexivity|]. split; [|reflexivity].
  split.
  - cbn. apply Forall_app. split; [exact Hr|]. constructor; [exact Hrow|].
    constructor.
  - eexists. split; [reflexivity|]. cbn.
    split; [exact Hn|].
    split; [apply (Forall2_same_shape_trans _ _ _ Hs S1)|].
    split; [exact I1|]. intros _. exact N1.
Qed.

Lemma adds_ok (lst : Rows) :
  forall d, data_ok names cF d -> Forall (row_ok (COLS.all cF)) lst ->
    exists d', DATA.adds d lst = (d', Ok tt) /\ data_ok names cF d' /\
               DATA.rows d' = DATA.rows d ++ lst.
Proof.
  induction lst as [|row lst IH]; intros d Hd Hl.
  - exists d. split; [reflexivity|]. split; [exact Hd|].
    rewrite app_nil_r. reflexivity.
  - inversion Hl as [|? ? Hrow Hl']; subst.
    destruct (add_ok d row Hd Hrow) as [d1 [E1 [Hd1 R1]]].
    destruct (IH d1 Hd1 Hl') as [d' [E [Hd' R]]].
    exists d'. cbn [DATA.adds]. rewrite E1. split; [exact E|].
    split; [exact Hd'|]. rewrite R, R1, <- app_assoc. reflexivity.
Qed.

(** [DATA([names] + lst)] without ordering. *)
Lemma new_unordered (lst : Rows) :
  Forall (row_ok (COLS.all cF)) lst ->
  exists d, DATA.new (names :: lst) false = (d, Ok tt) /\ data_ok names cF d /\
            DATA.rows d = lst.
Proof.
  intros Hl. unfold DATA.new. cbn [DATA.adds].
  unfold DATA.add at 1. cbn [DATA.cols DATA.empty]. rewrite Hnew.
  destruct (adds_ok lst {| DATA.rows := []; DATA.cols := Some cF |})
    as [d [E [Hd R]]]; [|exact Hl|].
  { split; [constructor|]. exists cF. split; [reflexivity|].
    split; [apply fresh_names|].
    split; [apply Forall2_same_shape_refl|].
    split; [apply fresh_inv|]. cbn. congruence. }
  cbn [DATA.rows DATA.empty] in *. rewrite E. exists d. auto.
Qed.

Lemma d2h_ok (d : DATA.t) (row : Row) :
  data_ok names cF d -> DATA.rows d <> [] -> row_ok (COLS.all cF) row ->
  exists v, DATA.d2h d row = Ok v.
Proof.
  intros [_ [c [Hc [_ [Hs [Hi Hseen]]]]]] Hne Hrow.
  specialize (Hseen Hne).
  pose proof (row_ok_shape _ _ row Hs Hrow) as Hrow'.
  unfold DATA.d2h, DATA.the_cols. rewrite Hc. cbn [Py.bind].
  destruct (mapM_ok (fun col => v <- index row (COL.at_ col) ;;
                                d <- COL.d2h col v ;; Ok (sq d))
                    (COLS.y c)) as [ds E].
  { unfold COLS.y. apply Forall_forall. intros col Hin.
    apply filter_In in Hin. destruct Hin as [Hin Hy].
    destruct (proj1 (Forall_forall _ _) Hrow' col Hin) as [v [Hv Hcell]].
    pose proof (proj1 (Forall_forall _ _) Hi col Hin) as Hinv.
    pose proof (proj1 (Forall_forall _ _) Hseen col Hin Hy) as Hn.
    unfold index. rewrite Hv. cbn [Py.bind].
    destruct col as [n|s]; cbn in Hcell.
    - destruct Hcell as [[x ->]|[_ Hcell]]; [|congruence].
      cbn in Hinv, Hn. specialize (Hinv Hn). cbn [COL.d2h].
      unfold NUM.d2h, NUM.norm. cbn [missing].
      pose proof tiny_pos. rewrite div_ok by lra. cbn [Py.bind]. eauto.
    - congruence. }
  rewrite E. cbn [Py.bind].
  assert (Hlen : INR (length (COLS.y c)) <> 0%R).
  { apply not_0_INR. pose proof (filter_in_y_shape _ _ Hs) as F.
    apply Forall2_length in F. fold (COLS.y cF) in F. fold (COLS.y c) in F.
    destruct (COLS.y cF); [congruence|]. cbn in F. lia. }
  rewrite div_ok by exact Hlen. cbn [Py.bind]. eauto.
Qed.

(** [DATA([names] + lst, order=True)]: the rows of [lst], ranked. *)
Lemma new_ordered (lst : Rows) :
  Forall (row_ok (COLS.all cF)) lst ->
  exists d, DATA.new (names :: lst) true = (d, Ok tt) /\ data_ok names cF d /\
            Permutation (DATA.rows d) lst /\
            StronglySorted (fun a b => (d2h_value d a <= d2h_value d b)%R)
                           (DATA.rows d).
Proof.
  intros Hl. destruct (new_unordered lst Hl) as [d [E [Hd R]]].
  unfold DATA.new in *.
  destruct (DATA.adds DATA.empty (names :: lst)) as [d' r].
  destruct r as [[]|e]; [|discriminate]. inversion E; subst d'.
  assert (Hall : Forall (fun r => exists v, DATA.d2h d r = Ok v)
                        (DATA.rows d)).
  { apply Forall_forall. intros r Hr. apply d2h_ok; [exact Hd | |].
    - intros Hnil. rewrite Hnil in Hr. exact Hr.
    - destruct Hd as [Hd _]. apply (proj1 (Forall_forall _ _) Hd r Hr). }
  rewrite (order_ranked d Hall).
  eexists. split; [reflexivity|]. cbn [DATA.rows].
  pose proof (ranked_perm (DATA.d2h d) (DATA.rows d)) as Hp.
  split; [|split].
  - destruct Hd as [Hrows [c [Hc [Hn [Hs [Hi Hseen]]]]]]. split.
    + cbn [DATA.rows].
      apply (Permutation_Forall (Permutation_sym Hp)). exact Hrows.
    + exists c. cbn [DATA.cols DATA.rows]. split; [exact Hc|].
      split; [exact Hn|]. split; [exact Hs|]. split; [exact Hi|].
      intros Hne. apply Hseen. intros Hnil. apply Hne.
      rewrite Hnil. reflexivity.
  - rewrite <- R. exact Hp.
  - apply (ranked_sorted (DATA.d2h d)).
Qed.

Lemma loglike_ok (d : DATA.t) (row : Row) (nall : nat) :
  (0 < The.k the)%R -> (0 < The.m the)%R ->
  data_ok names cF d -> row_ok (COLS.all cF) row ->
  exists v, DATA.loglike the d row nall 2 = Ok v.
Proof.
  intros Hk Hm [_ [c [Hc [_ [Hs _]]]]] Hrow.
  pose proof (row_ok_shape _ _ row Hs Hrow) as Hrow'.
  unfold DATA.loglike.
  assert (Hden : (INR nall + The.k the * INR 2)%R <> 0%R).
  { pose proof (pos_INR nall). cbn. lra. }
  rewrite div_ok by exact Hden. cbn [Py.bind].
  unfold DATA.the_cols. rewrite Hc. cbn [Py.bind].
  destruct (likes_ok the (COLS.x c) row
              ((INR (length (DATA.rows d)) + The.k the)
               / (INR nall + The.k the * INR 2))) as [ls [E _]].
  { unfold COLS.x. apply Forall_forall. intros col Hin.
    apply filter_In in Hin. destruct Hin as [Hin _].
    destruct (proj1 (Forall_forall _ _) Hrow' col Hin) as [v [Hv Hcell]].
    exists v. split; [exact Hv|]. intros Hmiss.
    destruct col as [n|s]; cbn in Hcell |- *.
    - destruct Hcell as [Hx|[Hx _]]; [exact Hx | congruence].
    - pose proof (pos_INR (SYM.n s)). lra. }
  rewrite E. cbn [Py.bind]. eauto.
Qed.

End WellFormed.

(** ** The loop of smo *)

Lemma alloc_new (hs : Store.t) (d : DATA.t) :
  Store.obj (alloc hs d) (Store.next hs) = d.
Proof. cbn. rewrite Nat.eqb_refl. reflexivity. Qed.

Lemma alloc_old (hs : Store.t) (d : DATA.t) (l : nat) :
  l < Store.next hs -> Store.obj (alloc hs d) l = Store.obj hs l.
Proof.
  intros H. cbn. destruct (Nat.eqb_spec l (Store.next hs)); [lia|reflexivity].
Qed.

Lemma clone_alloc (hs : Store.t) (data0 : nat) (c : COLS.t) (lst : Rows)
    (ord : bool) (d : DATA.t) :
  DATA.cols (Store.obj hs data0) = Some c ->
  DATA.new (COLS.names c :: lst) ord = (d, Ok tt) ->
  Store.clone data0 lst ord hs = (alloc hs d, Ok (Store.next hs)).
Proof.
  intros Hc Hd. unfold Store.clone, Store.bind, Store.read, Store.lift.
  unfold DATA.the_cols. rewrite Hc. unfold Store.new. rewrite Hd.
  reflexivity.
Qed.

Lemma int_round (x : R) : (0 <= x)%R -> Py.int (x + 0.5) = round_half_up x.
Proof.
  intros H. unfold Py.int, round_half_up.
  destruct (Rle_dec 0 (x + 0.5)); [|lra].
  replace (x + 0.5)%R with (x + 1 / 2)%R by lra. reflexivity.
Qed.

Lemma round_half_up_nonneg (x : R) : (0 <= x)%R -> (0 <= round_half_up x)%Z.
Proof. intros H. apply Int_part_nonneg. lra. Qed.

Lemma int_ge_1 (x : R) : (1 <= x)%R -> (1 <= Py.int x)%Z.
Proof.
  intros H. unfold Py.int. destruct (Rle_dec 0 x); [|lra].
  destruct (base_Int_part x) as [X1 X2].
  destruct (Z_le_gt_dec 1 (Int_part x)) as [L|G]; [exact L|].
  exfalso. assert (Hz : (Int_part x <= 0)%Z) by lia.
  apply IZR_le in Hz. lra.
Qed.

Lemma slice_to_incl {A} (l : list A) (k : Z) : incl (slice_to l k) l.
Proof.
  unfold slice_to. intros x Hx.
  destruct (k <? 0)%Z;
    match type of Hx with
    | In _ (firstn ?n _) => rewrite <- (firstn_skipn n l)
    end; apply in_or_app; left; exact Hx.
Qed.

Lemma slice_from_incl {A} (l : list A) (k : Z) : incl (slice_from l k) l.
Proof.
  unfold slice_from. intros x Hx.
  destruct (k <? 0)%Z;
    match type of Hx with
    | In _ (skipn ?n _) => rewrite <- (firstn_skipn n l)
    end; apply in_or_app; right; exact Hx.
Qed.

Lemma slice_to_nonempty {A} (l : list A) (k : Z) :
  l <> [] -> (1 <= k)%Z -> slice_to l k <> [].
Proof.
  intros Hl Hk. unfold slice_to.
  destruct (Z.ltb_spec k 0); [lia|].
  destruct l as [|a l]; [congruence|].
  destruct (Z.to_nat k) eqn:E; [lia|]. discriminate.
Qed.

Lemma iterates_bound (the : The.t) (budget : nat) (hs hs' : Store.t)
    (st st' : Smo.state) :
  iterates the budget hs st hs' st' ->
  length (Smo.done st') <= length (Smo.done st) + budget.
Proof.
  induction 1 as [| |budget hs st hs1 st1 hs' st' n best rest top
                     _ _ _ _ _ _ Hd _ IH]; try lia.
  rewrite Hd, length_app in IH. cbn in IH. lia.
Qed.

Lemma bind_ok {A B} (c : Store.M A) (f : A -> Store.M B) (hs hs1 : Store.t)
    (a : A) :
  c hs = (hs1, Ok a) -> Store.bind c f hs = f a hs1.
Proof. intros H. unfold Store.bind. rewrite H. reflexivity. Qed.

Section SmoCorrect.
Variable the : The.t.
Variable score : R -> R -> R.
Variable names : Row.
Variable cF : COLS.t.
Variable data0 : nat.
Hypothesis Hnew : COLS.new names = Ok cF.
Hypothesis Hgoal : COLS.y cF <> [].
Hypothesis Hk : (0 < The.k the)%R.
Hypothesis Hm : (0 < The.m the)%R.
Hypothesis HTop : (1 / 3 <= The.Top the)%R.

Lemma acquire_ok (hs : Store.t) (best rest : nat) (rows : Rows) :
  data_ok names cF (Store.obj hs best) ->
  data_ok names cF (Store.obj hs rest) ->
  Forall (row_ok (COLS.all cF)) rows ->
  3 <= length rows ->
  exists top todo',
    Smo.acquire the score best rest rows hs = (hs, Ok (top :: todo')) /\
    incl (top :: todo') rows.
Proof.
  intros Hb Hr Hrows Hlen.
  set (key := fun row => lb <- Smo.like the row (Store.obj hs best) ;;
                         lr <- Smo.like the row (Store.obj hs rest) ;;
                         Ok (- score lb lr)%R).
  assert (Hkey : Forall (fun r => exists v, key r = Ok v) rows).
  { apply Forall_forall. intros r Hin.
    pose proof (proj1 (Forall_forall _ _) Hrows r Hin) as Hok.
    unfold key, Smo.like.
    destruct (loglike_ok the names cF (Store.obj hs best) r
                (length (DATA.rows (Store.obj hs best))) Hk Hm Hb Hok)
      as [vb ->].
    destruct (loglike_ok the names cF (Store.obj hs rest) r
                (length (DATA.rows (Store.obj hs rest))) Hk Hm Hr Hok)
      as [vr ->].
    cbn [Py.bind]. eauto. }
  assert (E : Smo.acquire the score best rest rows hs
              = (hs, Ok (slice_to (ranked key rows)
                           (Py.int (INR (length rows) * The.Top the))))).
  { unfold Smo.acquire, Store.bind, Store.read, Store.lift, Store.ret.
    fold key. rewrite (sorted_float key rows Hkey). reflexivity. }
  pose proof (ranked_perm key rows) as Hp.
  assert (Hne : slice_to (ranked key rows)
                  (Py.int (INR (length rows) * The.Top the)) <> []).
  { apply slice_to_nonempty.
    - intros Hnil. rewrite Hnil in Hp.
      apply Permutation_nil in Hp. rewrite Hp in Hlen. cbn in Hlen. lia.
    - apply int_ge_1. apply le_INR in Hlen.
      change (INR 3) with (2 + 1)%R in Hlen. nra. }
  destruct (slice_to (ranked key rows) _) as [|top todo'] eqn:Es;
    [congruence|].
  exists top, todo'. split; [exact E|].
  intros x Hx. apply (Permutation_in _ Hp).
  apply (slice_to_incl (ranked key rows)
           (Py.int (INR (length rows) * The.Top the))).
  rewrite Es. exact Hx.
Qed.

Lemma step_ok (hs : Store.t) (st : Smo.state) :
  smo_inv names cF data0 hs st -> 3 <= length (Smo.todo st) ->
  exists hs1 st1 best rest top,
    Smo.step the score data0 st hs = (hs1, Ok (Some st1)) /\
    smo_inv names cF data0 hs1 st1 /\
    DATA.rows (Store.obj hs1 best)
    = firstn (Z.to_nat (round_half_up
                          (Rpower (INR (length (Smo.done st)))
                                  (The.best the))))
             (DATA.rows (Store.obj hs (Smo.data1 st))) /\
    DATA.rows (Store.obj hs1 rest)
    = skipn (Z.to_nat (round_half_up
                         (Rpower (INR (length (Smo.done st)))
                                 (The.best the))))
            (DATA.rows (Store.obj hs (Smo.data1 st))) /\
    In top (Smo.todo st) /\
    Smo.done st1 = Smo.done st ++ [top].
Proof.
  intros [H0 [[c [Hc Hn]] [H1 [Hd1 [Hrk [Hdone [Htodo Hne]]]]]]] Hlen.
  set (d1 := Store.obj hs (Smo.data1 st)) in *.
  set (p := Rpower (INR (length (Smo.done st))) (The.best the)).
  assert (Hpow : len_pow (length (Smo.done st)) (The.best the) = Ok p).
  { unfold p. destruct (Smo.done st); [congruence | reflexivity]. }
  assert (Hp : (0 < p)%R) by (unfold p, Rpower; apply exp_pos).
  set (z := round_half_up p).
  assert (Hz : (0 <= z)%Z) by (apply round_half_up_nonneg; lra).
  assert (Hto : slice_to (DATA.rows d1) z = firstn (Z.to_nat z) (DATA.rows d1)).
  { unfold slice_to. destruct (Z.ltb_spec z 0); [lia | reflexivity]. }
  assert (Hfrom : slice_from (DATA.rows d1) z
                  = skipn (Z.to_nat z) (DATA.rows d1)).
  { unfold slice_from. destruct (Z.ltb_spec z 0); [lia | reflexivity]. }
  assert (Hrows1 : Forall (row_ok (COLS.all cF)) (DATA.rows d1))
    by (destruct Hd1 as [Hr _]; exact Hr).
  destruct (new_unordered names cF Hnew (slice_to (DATA.rows d1) z))
    as [db [Eb [Hdb Rb]]].
  { apply (incl_Forall (slice_to_incl _ _) Hrows1). }
  destruct (new_unordered names cF Hnew (slice_from (DATA.rows d1) z))
    as [dr [Er [Hdr Rr]]].
  { apply (incl_Forall (slice_from_incl _ _) Hrows1). }
  set (ha := alloc hs db). set (hb := alloc ha dr).
  assert (Oa : Store.obj hb (Store.next hs) = db).
  { unfold hb. rewrite alloc_old by (cbn; lia). apply alloc_new. }
  assert (Ob : Store.obj hb (S (Store.next hs)) = dr).
  { unfold hb. apply (alloc_new ha dr). }
  destruct (acquire_ok hb (Store.next hs) (S (Store.next hs)) (Smo.todo st))
    as [top [todo' [Ea Hincl]]].
  { rewrite Oa. exact Hdb. }
  { rewrite Ob. exact Hdr. }
  { exact Htodo. }
  { exact Hlen. }
  assert (Htop : In top (Smo.todo st)) by (apply Hincl; left; reflexivity).
  assert (Hdone' : Forall (row_ok (COLS.all cF)) (Smo.done st ++ [top])).
  { apply Forall_app. split; [exact Hdone|]. constructor; [|constructor].
    apply (proj1 (Forall_forall _ _) Htodo top Htop). }
  destruct (new_ordered names cF Hnew Hgoal (Smo.done st ++ [top]) Hdone')
    as [dn [En [Hdn [Pn Sn]]]].
  set (hc := alloc hb dn).
  exists hc, {| Smo.done := Smo.done st ++ [top]; Smo.todo := todo';
                Smo.data1 := S (S (Store.next hs)) |},
         (Store.next hs), (S (Store.next hs)), top.
  rewrite <- Hn in Eb, Er, En.
  split.
  { unfold Smo.step. destruct (Nat.ltb_spec (length (Smo.todo st)) 3); [lia|].
    rewrite (bind_ok _ _ hs hs p) by (unfold Store.lift; rewrite Hpow; reflexivity).
    cbv zeta. rewrite (int_round p) by lra. fold z.
    rewrite (bind_ok _ _ hs hs d1) by reflexivity.
    rewrite (bind_ok _ _ hs ha (Store.next hs))
      by (apply (clone_alloc hs data0 c _ false db Hc Eb)).
    rewrite (bind_ok _ _ ha ha d1)
      by (unfold Store.read, ha; rewrite alloc_old by exact H1; reflexivity).
    rewrite (bind_ok _ _ ha hb (S (Store.next hs))).
    2:{ apply (clone_alloc ha data0 c _ false dr); [|exact Er].
        unfold ha. rewrite alloc_old by exact H0. exact Hc. }
    rewrite (bind_ok _ _ hb hb (top :: todo')) by exact Ea.
    rewrite (bind_ok _ _ hb hc (S (S (Store.next hs)))).
    2:{ apply (clone_alloc hb data0 c _ true dn); [|exact En].
        unfold hb, ha. rewrite !alloc_old by (cbn; lia). exact Hc. }
    reflexivity. }
  split.
  { unfold smo_inv. cbn [Smo.done Smo.todo Smo.data1].
    split; [cbn; lia|].
    split.
    { exists c. split; [|exact Hn].
      unfold hc, hb, ha. rewrite !alloc_old by (cbn; lia). exact Hc. }
    split; [cbn; lia|].
    assert (On : Store.obj hc (S (S (Store.next hs))) = dn)
      by (unfold hc; apply (alloc_new hb dn)).
    split; [rewrite On; exact Hdn|].
    split.
    { unfold ranked_done. cbn [Smo.data1 Smo.done]. rewrite On. auto. }
    split; [exact Hdone'|].
    split.
    { apply (incl_Forall (l1 := Smo.todo st)); [|exact Htodo].
      intros x Hx. apply Hincl. right. exact Hx. }
    { destruct (Smo.done st); discriminate. } }
  split.
  { unfold hc. rewrite alloc_old by (cbn; lia). rewrite Oa, Rb. exact Hto. }
  split.
  { unfold hc. rewrite alloc_old by (cbn; lia). rewrite Ob, Rr. exact Hfrom. }
  split; [exact Htop | reflexivity].
Qed.

Lemma loop_ok (budget : nat) :
  forall hs st,
    smo_inv names cF data0 hs st ->
    exists hs' st',
      Smo.loop the score data0 budget st hs = (hs', Ok st') /\
      smo_inv names cF data0 hs' st' /\ iterates the budget hs st hs' st'.
Proof.
  induction budget as [|budget IH]; intros hs st Hinv.
  - exists hs, st. split; [reflexivity|]. split; [exact Hinv|].
    apply iterates_spent.
  - cbn [Smo.loop].
    destruct (Nat.ltb_spec (length (Smo.todo st)) 3) as [Hlt|Hge].
    + exists hs, st.
      assert (E : Smo.step the score data0 st hs = (hs, Ok None)).
      { unfold Smo.step. destruct (Nat.ltb_spec (length (Smo.todo st)) 3);
          [reflexivity | lia]. }
      rewrite (bind_ok _ _ hs hs None E).
      split; [reflexivity|]. split; [exact Hinv|].
      apply iterates_break. exact Hlt.
    + destruct (step_ok hs st Hinv Hge)
        as [hs1 [st1 [best [rest [top [E [Hinv1 [Rb [Rr [Htop Hd]]]]]]]]]].
      rewrite (bind_ok _ _ hs hs1 (Some st1) E).
      destruct (IH hs1 st1 Hinv1) as [hs' [st' [El [Hinv' Hit]]]].
      exists hs', st'. split; [exact El|]. split; [exact Hinv'|].
      destruct Hinv as [_ [_ [_ [_ [Hrk _]]]]].
      apply (iterates_turn the budget hs st hs1 st1 hs' st' _ best rest top
               Hge Hrk eq_refl Rb Rr Htop Hd Hit).
Qed.

End SmoCorrect.

Lemma sorted_head_least {A} (le : A -> A -> Prop) (x : A) (l : list A) :
  (forall a, le a a) -> StronglySorted le (x :: l) ->
  forall y, In y (x :: l) -> le x y.
Proof.
  intros Hrefl Hs y Hy. inversion Hs as [|? ? _ Hall]; subst.
  destruct Hy as [<-|Hy]; [apply Hrefl|].
  apply (proj1 (Forall_forall _ _) Hall y Hy).
Qed.

(** C2. On a dataset whose rows its columns accept, with at least one
    goal column and one row, and settings with [budget0 >= 1], [k > 0],
    [m > 0] and [Top >= 1/3], [smo] returns: its loop makes at most
    [Budget] turns, stops earlier only when fewer than 3 rows remain in
    [todo] (and that is no error), each turn splits the ranked [done]
    into a best prefix of [round(|done|^best)] rows and the rest, and the
    row returned is a row of [done] with the least [d2h], as the dataset
    built from [done] measures it. *)
Theorem smo_best_of_done (the : The.t) (score : R -> R -> R)
    (js : list nat) (data0 : nat) (h : Store.t) (c0 cF : COLS.t) :
  data0 < Store.next h ->
  DATA.cols (Store.obj h data0) = Some c0 ->
  COLS.new (COLS.names c0) = Ok cF ->
  COLS.y cF <> [] ->
  Forall (row_ok (COLS.all cF)) (DATA.rows (Store.obj h data0)) ->
  DATA.rows (Store.obj h data0) <> [] ->
  (1 <= The.budget0 the)%Z ->
  (0 < The.k the)%R -> (0 < The.m the)%R -> (1 / 3 <= The.Top the)%R ->
  let rows0 := shuffle js (DATA.rows (Store.obj h data0)) in
  let done0 := slice_to rows0 (The.budget0 the) in
  let todo0 := slice_from rows0 (The.budget0 the) in
  exists h0 d1 h' st row,
    iterates the (Z.to_nat (The.Budget the)) h0
             {| Smo.done := done0; Smo.todo := todo0; Smo.data1 := d1 |}
             h' st /\
    length (Smo.done st) <= length done0 + Z.to_nat (The.Budget the) /\
    Smo.run the score js data0 h = (h', Ok st) /\
    Smo.smo the score js data0 h = (h', Ok row) /\
    ranked_done h' st /\
    nth_error (DATA.rows (Store.obj h' (Smo.data1 st))) 0 = Some row /\
    In row (Smo.done st) /\
    forall r, In r (Smo.done st) ->
      (d2h_value (Store.obj h' (Smo.data1 st)) row
       <= d2h_value (Store.obj h' (Smo.data1 st)) r)%R.
Proof.
  intros H0 Hc Hnew Hgoal Hrows Hne Hb0 Hk Hm HTop rows0 done0 todo0.
  set (d0 := Store.obj h data0) in *.
  set (h1 := Store.upd h data0 {| DATA.rows := rows0;
                                  DATA.cols := DATA.cols d0 |}).
  assert (O1 : Store.obj h1 data0
               = {| DATA.rows := rows0; DATA.cols := DATA.cols d0 |}).
  { unfold h1. cbn. rewrite Nat.eqb_refl. reflexivity. }
  assert (Hrows0 : Forall (row_ok (COLS.all cF)) rows0).
  { apply (Permutation_Forall
             (Permutation_sym (shuffle_perm js (DATA.rows d0)))).
    exact Hrows. }
  assert (Hdone0 : Forall (row_ok (COLS.all cF)) done0)
    by (apply (incl_Forall (slice_to_incl _ _) Hrows0)).
  assert (Htodo0 : Forall (row_ok (COLS.all cF)) todo0)
    by (apply (incl_Forall (slice_from_incl _ _) Hrows0)).
  assert (Hne0 : done0 <> []).
  { apply slice_to_nonempty; [|exact Hb0].
    intros Hnil. pose proof (shuffle_perm js (DATA.rows d0)) as P.
    fold rows0 in P. rewrite Hnil in P. apply Permutation_nil in P.
    contradiction. }
  destruct (new_ordered (COLS.names c0) cF Hnew Hgoal done0 Hdone0)
    as [dn [En [Hdn [Pn Sn]]]].
  set (hs0 := alloc h1 dn).
  set (st0 := {| Smo.done := done0; Smo.todo := todo0;
                 Smo.data1 := Store.next h1 |}).
  assert (Hinv0 : smo_inv (COLS.names c0) cF data0 hs0 st0).
  { unfold smo_inv, st0. cbn [Smo.done Smo.todo Smo.data1].
    split; [cbn; lia|].
    split.
    { exists c0. split; [|reflexivity].
      unfold hs0. rewrite alloc_old by (cbn; exact H0). rewrite O1.
      exact Hc. }
    split; [cbn; lia|].
    assert (On : Store.obj hs0 (Store.next h1) = dn) by apply alloc_new.
    split; [rewrite On; exact Hdn|].
    split; [unfold ranked_done; cbn [Smo.data1 Smo.done]; rewrite On; auto|].
    auto. }
  destruct (loop_ok the score (COLS.names c0) cF data0 Hnew Hgoal Hk Hm HTop
              (Z.to_nat (The.Budget the)) hs0 st0 Hinv0)
    as [h' [st [El [Hinv Hit]]]].
  assert (Erun : Smo.run the score js data0 h = (h', Ok st)).
  { unfold Smo.run.
    rewrite (bind_ok _ _ h h1 tt) by reflexivity.
    rewrite (bind_ok _ _ h1 h1 (Store.obj h1 data0)) by reflexivity.
    rewrite O1. cbn [DATA.rows]. fold done0 todo0. cbv zeta.
    rewrite (bind_ok _ _ h1 hs0 (Store.next h1)).
    - exact El.
    - apply (clone_alloc h1 data0 c0 done0 true dn); [|exact En].
      rewrite O1. exact Hc. }
  destruct Hinv as [_ [_ [_ [Hd1 [Hrk [_ [_ Hnd]]]]]]].
  pose proof Hrk as [Hperm Hsorted].
  destruct (DATA.rows (Store.obj h' (Smo.data1 st))) as [|row rest] eqn:Er.
  { apply Permutation_nil in Hperm. contradiction. }
  exists hs0, (Store.next h1), h', st, row.
  split; [exact Hit|].
  split; [apply (iterates_bound _ _ _ _ _ _ Hit)|].
  split; [exact Erun|].
  split.
  { unfold Smo.smo. rewrite (bind_ok _ _ h h' st Erun).
    rewrite (bind_ok _ _ h' h' (Store.obj h' (Smo.data1 st))) by reflexivity.
    unfold Store.lift. rewrite Er. reflexivity. }
  split; [exact Hrk|].
  split; [rewrite Er; reflexivity|].
  split; [apply (Permutation_in _ Hperm); left; reflexivity|].
  intros r Hr.
  apply (sorted_head_least
           (fun a b => (d2h_value (Store.obj h' (Smo.data1 st)) a
                        <= d2h_value (Store.obj h' (Smo.data1 st)) b)%R)
           row rest (fun a => Rle_refl _) Hsorted).
  apply (Permutation_in _ (Permutation_sym Hperm)). exact Hr.
Qed.

Lemma cars_fresh_new : COLS.new cars_header = Ok cars_fresh.
Proof. reflexivity. Qed.

Lemma cars_goal : COLS.y cars_fresh <> [].
Proof. cbn. discriminate. Qed.

Lemma cars_rows_ok : Forall (row_ok (COLS.all cars_fresh)) cars_rows.
Proof.
  repeat constructor;
    (eexists; split; [reflexivity|]; cbn;
     first [reflexivity | left; eexists; reflexivity]).
Qed.

Lemma cars_ok : data_ok cars_header cars_fresh cars.
Proof.
  destruct (new_unordered cars_header cars_fresh cars_fresh_new cars_rows
              cars_rows_ok) as [d [E [Hd _]]].
  rewrite cars_built in E. inversion E; subst d. exact Hd.
Qed.

Lemma cars_d2h :
  Forall (fun r => exists v, DATA.d2h cars r = Ok v) (DATA.rows cars).
Proof.
  apply Forall_forall. intros r Hr.
  apply (d2h_ok cars_header cars_fresh cars_goal cars r cars_ok).
  - discriminate.
  - apply (proj1 (Forall_forall _ _) cars_rows_ok r Hr).
Qed.

Lemma order_stable_idempotent_witness :
  exists rs,
    DATA.order cars
    = ({| DATA.rows := rs; DATA.cols := DATA.cols cars |}, Ok rs) /\
    Permutation rs (DATA.rows cars) /\
    StronglySorted (fun a b => (d2h_value cars a <= d2h_value cars b)%R) rs /\
    (forall k, filter (fun r => Reqb (d2h_value cars r) k) rs
               = filter (fun r => Reqb (d2h_value cars r) k)
                        (DATA.rows cars)) /\
    DATA.order (fst (DATA.order cars)) = DATA.order cars /\
    (forall r v, DATA.d2h cars r = Ok v ->
       exists ds,
         Forall2 (fun col dist =>
                    exists x, nth_error r (COL.at_ col) = Some x /\
                              COL.d2h col x = Ok dist)
                 (COLS.y cars_cols) ds /\
         v = root_mean_square ds).
Proof.
  apply (order_stable_idempotent cars cars_cols eq_refl cars_d2h).
Defined.

Lemma smo_best_of_done_witness :
  let rows0 := shuffle [1; 0; 1] (DATA.rows (Store.obj store_cars 0)) in
  let done0 := slice_to rows0 (The.budget0 one_start) in
  let todo0 := slice_from rows0 (The.budget0 one_start) in
  exists h0 d1 h' st row,
    iterates one_start (Z.to_nat (The.Budget one_start)) h0
             {| Smo.done := done0; Smo.todo := todo0; Smo.data1 := d1 |}
             h' st /\
    length (Smo.done st)
    <= length done0 + Z.to_nat (The.Budget one_start) /\
    Smo.run one_start Smo.B_minus_R [1; 0; 1] 0 store_cars = (h', Ok st) /\
    Smo.smo one_start Smo.B_minus_R [1; 0; 1] 0 store_cars = (h', Ok row) /\
    ranked_done h' st /\
    nth_error (DATA.rows (Store.obj h' (Smo.data1 st))) 0 = Some row /\
    In row (Smo.done st) /\
    forall r, In r (Smo.done st) ->
      (d2h_value (Store.obj h' (Smo.data1 st)) row
       <= d2h_value (Store.obj h' (Smo.data1 st)) r)%R.
Proof.
  apply (smo_best_of_done one_start Smo.B_minus_R [1; 0; 1] 0 store_cars
           cars_cols cars_fresh).
  - simpl. lia.
  - reflexivity.
  - exact cars_fresh_new.
  - exact cars_goal.
  - exact cars_rows_ok.
  - discriminate.
  - simpl. lia.
  - simpl. lra.
  - simpl. lra.
  - simpl. lra.
Defined.

(** ** [max(xs, key=...)] and SYM.mid *)

Lemma max_from_first {A} (key : A -> result R) (kv : A -> R) (xs : list A) :
  (forall x, In x xs -> key x = Ok (kv x)) ->
  forall pre mid best,
    (forall x, In x pre -> (kv x < kv best)%R) ->
    (forall x, In x mid -> (kv x <= kv best)%R) ->
    exists b l1 l2,
      Tree.max_from key best (kv best) xs = Ok b /\
      pre ++ best :: mid ++ xs = l1 ++ b :: l2 /\
      (forall x, In x l1 -> (kv x < kv b)%R) /\
      (forall x, In x l2 -> (kv x <= kv b)%R).
Proof.
  induction xs as [|x xs IH]; intros Hk pre mid best Hpre Hmid.
  - exists best, pre, mid. rewrite app_nil_r. auto.
  - cbn [Tree.max_from]. rewrite (Hk x (or_introl eq_refl)). cbn [Py.bind].
    assert (Hk' : forall y, In y xs -> key y = Ok (kv y))
      by (intros y Hy; apply Hk; right; exact Hy).
    destruct (Rltb (kv best) (kv x)) eqn:E.
    + apply Rltb_spec in E.
      destruct (IH Hk' (pre ++ best :: mid) [] x) as [b [l1 [l2 [Hb [Hl H12]]]]].
      * intros y Hy. apply in_app_or in Hy. destruct Hy as [Hy|[<-|Hy]].
        -- specialize (Hpre y Hy). lra.
        -- exact E.
        -- specialize (Hmid y Hy). lra.
      * intros y [].
      * exists b, l1, l2. split; [exact Hb|]. split; [|exact H12].
        rewrite <- Hl. cbn [app]. rewrite <- app_assoc. reflexivity.
    + assert (Hle : (kv x <= kv best)%R).
      { unfold Rltb in E. destruct (Rlt_dec (kv best) (kv x));
          [discriminate | lra]. }
      destruct (IH Hk' pre (mid ++ [x]) best Hpre)
        as [b [l1 [l2 [Hb [Hl H12]]]]].
      * intros y Hy. apply in_app_or in Hy. destruct Hy as [Hy|[<-|[]]].
        -- apply (Hmid y Hy).
        -- exact Hle.
      * exists b, l1, l2. split; [exact Hb|]. split; [|exact H12].
        rewrite <- Hl. rewrite <- app_assoc. reflexivity.
Qed.

(** [max(xs, key=...)] returns the first of the elements with the largest
    key. *)
Lemma max_by_first {A} (key : A -> result R) (kv : A -> R) (xs : list A) :
  (forall x, In x xs -> key x = Ok (kv x)) -> xs <> [] ->
  exists b l1 l2,
    Tree.max_by key xs = Ok b /\ xs = l1 ++ b :: l2 /\
    (forall x, In x l1 -> (kv x < kv b)%R) /\
    (forall x, In x l2 -> (kv x <= kv b)%R).
Proof.
  intros Hk Hne. destruct xs as [|x xs]; [congruence|].
  unfold Tree.max_by. rewrite (Hk x (or_introl eq_refl)). cbn [Py.bind].
  destruct (max_from_first key kv xs) with (pre := @nil A) (mid := @nil A)
    (best := x) as [b [l1 [l2 [Hb [Hl H12]]]]].
  - intros y Hy. apply Hk. right. exact Hy.
  - intros y [].
  - intros y [].
  - exists b, l1, l2. auto.
Qed.

(** X1. [mid()] of a SYM raises ValueError while nothing has been counted;
    otherwise it returns a counted value whose count no other value
    exceeds, and of several such values the one counted first. *)
Theorem SYM_mid_mode (i : SYM.t) :
  (SYM.has i = [] -> SYM_mid i = Err ValueError) /\
  (SYM.has i <> [] ->
   exists v l1 l2,
     SYM_mid i = Ok v /\ map fst (SYM.has i) = l1 ++ v :: l2 /\
     (forall k, In k l1 -> SYM.get i k < SYM.get i v) /\
     (forall k, In k l2 -> SYM.get i k <= SYM.get i v)).
Proof.
  split.
  - intros H. unfold SYM_mid. rewrite H. reflexivity.
  - intros H.
    destruct (max_by_first (fun k => Ok (INR (SYM.get i k)))
                (fun k => INR (SYM.get i k)) (map fst (SYM.has i)))
      as [v [l1 [l2 [Hv [Hl [H1 H2]]]]]].
    + reflexivity.
    + destruct (SYM.has i); [congruence | discriminate].
    + exists v, l1, l2. split; [exact Hv|]. split; [exact Hl|].
      split; intros k Hk.
      * apply INR_lt. apply (H1 k Hk).
      * apply INR_le. apply (H2 k Hk).
Qed.

(** ** grow below the root *)

Lemma grow_empty (the : The.t) (score : R -> R -> R) (best : string)
    (BEST REST : nat) (BINS : list BIN.t) (fuel lvl above : nat) :
  Tree.grow the score best BEST REST BINS fuel [] lvl above = None \/
  exists e, Tree.grow the score best BEST REST BINS fuel [] lvl above
            = Some (Err e).
Proof.
  destruct fuel; [left; reflexivity|]. right. exists KeyError. reflexivity.
Qed.

(** X2. [grow] never builds a split: whatever it is given, a result it
    returns is the leaf of what it was given, and on a node that is not a
    leaf it raises. *)
Theorem grow_never_splits (the : The.t) (score : R -> R -> R)
    (best : string) (BEST REST : nat) (BINS : list BIN.t) (fuel : nat)
    (classes : Classes) (lvl above : nat) :
  (forall t, Tree.grow the score best BEST REST BINS fuel classes lvl above
             = Some (Ok t) -> t = Tree.Leaf classes lvl) /\
  (forall rows,
     getitem classes best = Ok rows ->
     (The.leaf the < Z.of_nat (length rows))%Z -> length rows <> above ->
     exists e, Tree.grow the score best BEST REST BINS (S (S fuel)) classes
                         lvl above = Some (Err e)).
Proof.
  split.
  - intros t H. destruct fuel as [|fuel]; [discriminate|].
    cbn [Tree.grow] in H.
    destruct (getitem classes best) as [rows|e] eqn:Eg; [|discriminate].
    destruct ((Z.of_nat (length rows) <=? The.leaf the)%Z
              || Nat.eqb (length rows) above).
    + inversion H. reflexivity.
    + destruct (Tree.max_by _ BINS) as [bin|e]; [|discriminate].
      destruct (BIN.selectsRejects bin classes) as [[yes no]|e] eqn:Es;
        [|discriminate].
      unfold BIN.selectsRejects in Es.
      apply selectsRejects_from_ok in Es. destruct Es as [Es _].
      inversion Es; subst yes no.
      destruct (grow_empty the score best BEST REST BINS fuel (lvl + 1)
                  (length rows)) as [G0|[e G1]].
      * rewrite G0 in H. discriminate.
      * rewrite G1 in H. discriminate.
  - intros rows Hg Hleaf Habove. cbn [Tree.grow]. rewrite Hg.
    destruct (Z.leb_spec (Z.of_nat (length rows)) (The.leaf the)); [lia|].
    destruct (Nat.eqb_spec (length rows) above); [contradiction|].
    cbn [orb].
    destruct (Tree.max_by _ BINS) as [bin|e]; [|eauto].
    destruct (BIN.selectsRejects bin classes) as [[yes no]|e] eqn:Es;
      [|eauto].
    unfold BIN.selectsRejects in Es.
    apply selectsRejects_from_ok in Es. destruct Es as [Es _].
    inversion Es; subst yes no.
    destruct fuel; cbn; eauto.
Qed.

(** ** What a NUM knows of the numbers it has seen *)

Lemma sum_of_app (xs ys : list R) :
  sum_of (xs ++ ys) = (sum_of xs + sum_of ys)%R.
Proof.
  unfold sum_of. induction xs as [|x xs IH]; cbn [app fold_right]; lra.
Qed.

Lemma squares_about_app (m : R) (xs ys : list R) :
  squares_about m (xs ++ ys)
  = (squares_about m xs + squares_about m ys)%R.
Proof.
  unfold squares_about.
  induction xs as [|x xs IH]; cbn [app fold_right]; lra.
Qed.

Lemma squares_about_expand (m : R) (xs : list R) :
  squares_about m xs
  = (squares_about 0 xs - 2 * m * sum_of xs
     + INR (length xs) * m * m)%R.
Proof.
  induction xs as [|x xs IH]; [cbn; lra|].
  change (squares_about m (x :: xs))
    with ((x - m) * (x - m) + squares_about m xs)%R.
  change (squares_about 0 (x :: xs))
    with ((x - 0) * (x - 0) + squares_about 0 xs)%R.
  change (sum_of (x :: xs)) with (x + sum_of xs)%R.
  change (length (x :: xs)) with (S (length xs)).
  rewrite IH, S_INR. ring.
Qed.

Lemma num_adds_app (i : NUM.t) (xs ys : list R) :
  num_adds i (xs ++ ys) = num_adds (num_adds i xs) ys.
Proof. apply fold_left_app. Qed.

(** The running mean and sum of squares of Welford's method. *)
Lemma num_adds_welford (xs : list R) :
  forall (c : NUM.t) (pre : list R),
    NUM.n c = length pre ->
    (INR (NUM.n c) * NUM.mu c = sum_of pre)%R ->
    (NUM.m2 c = squares_about 0 pre - INR (NUM.n c) * NUM.mu c * NUM.mu c)%R ->
    let c' := num_adds c xs in
    NUM.n c' = length (pre ++ xs) /\
    (INR (NUM.n c') * NUM.mu c' = sum_of (pre ++ xs))%R /\
    (NUM.m2 c' = squares_about 0 (pre ++ xs)
                 - INR (NUM.n c') * NUM.mu c' * NUM.mu c')%R.
Proof.
  induction xs as [|x xs IH]; intros c pre Hn Hmu Hm2.
  - cbn. rewrite app_nil_r. auto.
  - cbn [num_adds fold_left]. fold (num_adds (fst (NUM.add c (CNum x))) xs).
    replace (pre ++ x :: xs) with ((pre ++ [x]) ++ xs)
      by (rewrite <- app_assoc; reflexivity).
    assert (Hpos : (0 < INR (NUM.n c + 1))%R)
      by (apply lt_0_INR; lia).
    assert (HN : INR (NUM.n c + 1) = (INR (NUM.n c) + 1)%R)
      by (rewrite Nat.add_1_r; apply S_INR).
    apply IH; cbn [NUM.add missing fst NUM.n NUM.mu NUM.m2].
    + rewrite length_app. cbn. lia.
    + rewrite sum_of_app. cbn. rewrite <- Hmu. rewrite HN in *. field. lra.
    + rewrite squares_about_app. cbn. rewrite Hm2. rewrite HN in *.
      field. lra.
Qed.

(** X3. A NUM that has been fed numbers holds their count, their mean and
    the sum of the squares of their distances to that mean. *)
Theorem NUM_add_mean_and_spread (at_ : nat) (txt : string) (i : NUM.t)
    (xs : list R) :
  NUM.new at_ txt = Ok i -> xs <> [] ->
  let c := num_adds i xs in
  NUM.n c = length xs /\
  NUM.mid c = (sum_of xs / INR (length xs))%R /\
  NUM.m2 c = squares_about (NUM.mid c) xs.
Proof.
  intros Hnew Hne c.
  assert (H0 : NUM.n i = 0 /\ NUM.mu i = 0%R /\ NUM.m2 i = 0%R).
  { unfold NUM.new in Hnew. destruct (last_char txt); cbn in Hnew;
      [|discriminate]. inversion Hnew. cbn. auto. }
  destruct H0 as [Hn [Hmu Hm2]].
  destruct (num_adds_welford xs i []) as [Hn' [Hmu' Hm2']].
  - rewrite Hn. reflexivity.
  - rewrite Hn, Hmu. cbn. lra.
  - rewrite Hn, Hmu, Hm2. cbn. lra.
  - cbn [app] in *. fold c in Hn', Hmu', Hm2'.
    assert (Hlen : (0 < INR (length xs))%R).
    { apply lt_0_INR. destruct xs; [congruence | cbn; lia]. }
    rewrite Hn' in Hmu', Hm2'. unfold NUM.mid.
    split; [exact Hn'|]. split.
    + rewrite <- Hmu'. field. lra.
    + rewrite Hm2', (squares_about_expand (NUM.mu c) xs), <- Hmu'. ring.
Qed.

Lemma NUM_add_mean_and_spread_witness :
  let c := num_adds fresh_lbs [10; 20; 30]%R in
  NUM.n c = 3 /\
  NUM.mid c = (sum_of [10; 20; 30] / INR 3)%R /\
  NUM.m2 c = squares_about (NUM.mid c) [10; 20; 30]%R.
Proof.
  apply (NUM_add_mean_and_spread 1 "Lbs-" fresh_lbs [10; 20; 30]%R);
    [reflexivity | discriminate].
Defined.

Lemma num_adds_bounds (xs : list R) :
  forall (c : NUM.t) (x : R),
    In x xs \/ (NUM.lo c <= x <= NUM.hi c)%R ->
    (NUM.lo (num_adds c xs) <= x <= NUM.hi (num_adds c xs))%R.
Proof.
  induction xs as [|y xs IH]; intros c x H.
  - destruct H as [[]|H]. exact H.
  - cbn [num_adds fold_left]. fold (num_adds (fst (NUM.add c (CNum y))) xs).
    apply IH. destruct H as [[->|H]|H]; [right | left; exact H | right];
      cbn [NUM.add missing fst NUM.lo NUM.hi].
    + split; [apply Rmin_l | apply Rmax_l].
    + split.
      * eapply Rle_trans; [apply Rmin_r | apply H].
      * eapply Rle_trans; [apply H | apply Rmax_r].
Qed.


Lemma new_heaven (at_ : nat) (txt : string) (i : NUM.t) :
  NUM.new at_ txt = Ok i -> NUM.heaven i = 0%R \/ NUM.heaven i = 1%R.
Proof.
  unfold NUM.new. destruct (last_char txt) as [z|e]; cbn; [|discriminate].
  intros H; inversion H; cbn. destruct (Ascii.eqb z "-"); auto.
Qed.

(** What [norm] and [d2h] give between [lo] and [hi]. *)
Lemma norm_between (c : NUM.t) (x : R) :
  (NUM.lo c <= x <= NUM.hi c)%R ->
  NUM.heaven c = 0%R \/ NUM.heaven c = 1%R ->
  exists q d,
    NUM.norm c (CNum x) = Ok (CNum q) /\ (0 <= q < 1)%R /\
    NUM.d2h c (CNum x) = Ok d /\ (0 <= d <= 1)%R.
Proof.
  intros Hx Hh. pose proof tiny_pos as Ht.
  assert (Hden : (0 < NUM.hi c - NUM.lo c + tiny)%R) by lra.
  exists ((x - NUM.lo c) / (NUM.hi c - NUM.lo c + tiny))%R.
  assert (Hq : (0 <= (x - NUM.lo c) / (NUM.hi c - NUM.lo c + tiny) < 1)%R).
  { split.
    - apply Rmult_le_pos; [lra|]. left. apply Rinv_0_lt_compat. exact Hden.
    - apply (Rmult_lt_reg_r (NUM.hi c - NUM.lo c + tiny)); [exact Hden|].
      unfold Rdiv. rewrite Rmult_assoc, Rinv_l by lra. lra. }
  exists (Rabs ((x - NUM.lo c) / (NUM.hi c - NUM.lo c + tiny)
                - NUM.heaven c)).
  unfold NUM.d2h, NUM.norm. cbn [missing]. rewrite div_ok by lra.
  cbn [Py.bind]. repeat split; try apply Hq; try apply Rabs_pos.
  destruct Hh as [-> | ->]; apply Rabs_le; lra.
Qed.



Lemma SYM_mid_mode_witness :
  exists v l1 l2,
    SYM_mid cars_origin = Ok v /\
    map fst (SYM.has cars_origin) = l1 ++ v :: l2 /\
    (forall k, In k l1 -> SYM.get cars_origin k < SYM.get cars_origin v) /\
    (forall k, In k l2 -> SYM.get cars_origin k <= SYM.get cars_origin v).
Proof.
  apply (proj2 (SYM_mid_mode cars_origin)). discriminate.
Defined.

Lemma grow_never_splits_witness :
  exists e,
    Tree.grow The.defaults Smo.B_minus_R "best" 3 1 cars_bins 2
              cars_classes 0 0 = Some (Err e).
Proof.
  apply (proj2 (grow_never_splits The.defaults Smo.B_minus_R "best" 3 1
                  cars_bins 0 cars_classes 0 0)
           [[CStr "a"; CNum 10]; [CStr "a"; CNum 20]; [CStr "b"; CNum 30]]);
    [reflexivity | reflexivity | discriminate].
Defined.

(** ** What a SYM knows of the cells it has seen *)

Lemma cell_eqb_sym (a b : cell) : cell_eqb a b = cell_eqb b a.
Proof.
  destruct (cell_eqb a b) eqn:E.
  - apply cell_eqb_eq in E. subst. symmetry. apply cell_eqb_refl.
  - destruct (cell_eqb b a) eqn:E'; [|reflexivity].
    apply cell_eqb_eq in E'. subst. rewrite cell_eqb_refl in E. discriminate.
Qed.

Lemma cget_cset {V} (d : list (cell * V)) (k k' : cell) (v : V) :
  cget (cset d k v) k' = if cell_eqb k k' then Some v else cget d k'.
Proof.
  induction d as [|[k0 w] d IH]; cbn [cset cget]; [reflexivity|].
  destruct (cell_eqb k0 k) eqn:E; cbn [cget].
  - apply cell_eqb_eq in E. subst k0.
    destruct (cell_eqb k k'); reflexivity.
  - rewrite IH. destruct (cell_eqb k0 k') eqn:E'; [|reflexivity].
    apply cell_eqb_eq in E'. subst k0. rewrite cell_eqb_sym, E. reflexivity.
Qed.

Lemma cset_keys {V} (d : list (cell * V)) (k : cell) (v : V) :
  NoDup (map fst d) -> NoDup (map fst (cset d k v)).
Proof.
  intros Hnd. destruct (cget d k) as [v0|] eqn:E.
  - destruct (cset_present d k v v0 (fun _ => True) E) as [Hk _].
    rewrite Hk. exact Hnd.
  - rewrite (cset_absent d k v E), map_app. cbn [map fst].
    apply NoDup_app; [exact Hnd | repeat constructor; intros [] |].
    intros x Hx [Hxk|[]]. subst x. exact (cget_None_notin d k E Hx).
Qed.

Lemma cset_sum (d : list (cell * nat)) (k : cell) :
  list_sum (values (cset d k (match cget d k with Some v => v | None => 0 end
                              + 1)))
  = list_sum (values d) + 1.
Proof.
  unfold values. induction d as [|[k0 w] d IH]; cbn [cset cget];
    [reflexivity|].
  destruct (cell_eqb k0 k); cbn [map snd]; rewrite !list_sum_cons; lia.
Qed.

Lemma sym_add_get (c : SYM.t) (v w : cell) :
  missing v = false ->
  SYM.get (SYM.add c v) w = SYM.get c w + (if cell_eqb v w then 1 else 0).
Proof.
  intros Hv. unfold SYM.add. rewrite Hv. unfold SYM.get at 1. cbn [SYM.has].
  rewrite cget_cset. destruct (cell_eqb v w) eqn:E.
  - apply cell_eqb_eq in E. subst. reflexivity.
  - fold (SYM.get c w). lia.
Qed.

Lemma sym_adds_counts (vs : list cell) :
  forall c : SYM.t,
    NoDup (map fst (SYM.has c)) ->
    list_sum (values (SYM.has c)) = SYM.n c ->
    let c' := sym_adds c vs in
    SYM.n c' = SYM.n c + length (present vs) /\
    (forall v, SYM.get c' v = SYM.get c v + occurrences v (present vs)) /\
    list_sum (values (SYM.has c')) = SYM.n c' /\
    NoDup (map fst (SYM.has c')).
Proof.
  induction vs as [|x vs IH]; intros c Hnd Hsum.
  - cbn. repeat split; auto; intros; lia.
  - cbn [sym_adds fold_left]. fold (sym_adds (SYM.add c x) vs).
    unfold present, occurrences. cbn [filter].
    destruct (missing x) eqn:Hx; cbn [negb].
    + unfold SYM.add. rewrite Hx. apply IH; assumption.
    + destruct (IH (SYM.add c x)) as [Hn [Hg [Hs Hk]]].
      * unfold SYM.add. rewrite Hx. cbn [SYM.has]. apply cset_keys.
        exact Hnd.
      * unfold SYM.add, SYM.get. rewrite Hx. cbn [SYM.has SYM.n].
        rewrite cset_sum. lia.
      * split; [|split; [|split]]; try assumption.
        -- rewrite Hn. unfold SYM.add. rewrite Hx. cbn [SYM.n length].
           unfold present. lia.
        -- intros v. rewrite Hg, (sym_add_get c x v Hx).
           unfold occurrences, present. cbn [filter].
           destruct (cell_eqb x v); cbn [length]; lia.
Qed.

(** X5. A SYM that has been fed cells holds, for every cell, how often it
    has come among those that are not the missing mark; [n] is the number
    of those and the sum of the counts, and no value is kept twice. *)
Theorem SYM_add_counts (at_ : nat) (txt : string) (vs : list cell) :
  let c := sym_adds (SYM.new at_ txt) vs in
  SYM.n c = length (present vs) /\
  (forall v, SYM.get c v = occurrences v (present vs)) /\
  list_sum (values (SYM.has c)) = SYM.n c /\
  NoDup (map fst (SYM.has c)).
Proof.
  destruct (sym_adds_counts vs (SYM.new at_ txt)) as [Hn [Hg [Hs Hk]]].
  - constructor.
  - reflexivity.
  - cbn. repeat split; assumption.
Qed.

(** ** entropy *)

Lemma in_list_sum_le (n : nat) (l : list nat) : In n l -> n <= list_sum l.
Proof.
  induction l as [|m l IH]; [intros []|].
  rewrite list_sum_cons. intros [->|H]; [lia|]. specialize (IH H). lia.
Qed.

Lemma sum_of_nonpos (l : list R) :
  Forall (fun t => (t <= 0)%R) l -> (fold_right Rplus 0 l <= 0)%R.
Proof.
  induction 1 as [|t l Ht _ IH]; cbn [fold_right]; lra.
Qed.

Lemma sum_of_zero (l : list R) :
  Forall (fun t => t = 0%R) l -> fold_right Rplus 0%R l = 0%R.
Proof.
  induction 1 as [|t l Ht _ IH]; cbn [fold_right]; lra.
Qed.

Lemma ln_2_pos : (0 < ln 2)%R.
Proof. rewrite <- ln_1. apply ln_increasing; lra. Qed.

(** X6. [entropy] returns the sum of the counts as [N] and an entropy
    that is never negative; the entropy is 0 when no count or a single
    one is positive. *)
Theorem entropy_total_and_sign (vals : list nat) :
  snd (entropy vals) = list_sum vals /\
  (0 <= fst (entropy vals))%R /\
  ((forall n, In n vals -> n = 0 \/ n = list_sum vals) ->
   fst (entropy vals) = 0%R).
Proof.
  unfold entropy. cbn [fst snd]. rewrite list_sum_filter_pos.
  split; [reflexivity|]. rewrite sum_fold_right.
  set (N := list_sum vals).
  assert (Hpos : forall n, In n (filter (fun n => 0 <? n) vals) ->
                           0 < n <= N).
  { intros n Hn. apply filter_In in Hn. destruct Hn as [Hin Hn].
    apply Nat.ltb_lt in Hn. split; [exact Hn|].
    apply in_list_sum_le. exact Hin. }
  split.
  - apply Ropp_0_ge_le_contravar, Rle_ge, sum_of_nonpos.
    rewrite Forall_map. apply Forall_forall. intros n Hn.
    destruct (Hpos n Hn) as [H0 HN].
    assert (Hn0 : (0 < INR n)%R) by (apply lt_0_INR; exact H0).
    assert (HnN : (INR n <= INR N)%R) by (apply le_INR; exact HN).
    assert (Hp : (0 < INR n / INR N <= 1)%R).
    { split.
      - apply Rdiv_lt_0_compat; lra.
      - apply (Rmult_le_reg_r (INR N)); [lra|].
        unfold Rdiv. rewrite Rmult_assoc, Rinv_l by lra. lra. }
    assert (Hln : (ln (INR n / INR N) <= 0)%R).
    { rewrite <- ln_1. destruct Hp as [Hp0 [Hp1 | Hp1]].
      - left. apply ln_increasing; assumption.
      - rewrite Hp1. lra. }
    pose proof ln_2_pos as H2.
    assert (Hl : (log2 (INR n / INR N) <= 0)%R).
    { unfold log2, Rdiv. 
      replace 0%R with (0 * / ln 2)%R by ring.
      apply Rmult_le_compat_r; [|exact Hln].
      left. apply Rinv_0_lt_compat. exact H2. }
    replace 0%R with (INR n / INR N * 0)%R by ring.
    apply Rmult_le_compat_l; [lra | exact Hl].
  - intros Hone. rewrite sum_of_zero; [ring|].
    rewrite Forall_map. apply Forall_forall. intros n Hn.
    destruct (Hpos n Hn) as [H0 HN].
    apply filter_In in Hn. destruct (Hone n (proj1 Hn)) as [Hz|Hz]; [lia|].
    fold N in Hz. rewrite Hz.
    assert (HN0 : (0 < INR N)%R) by (apply lt_0_INR; lia).
    unfold Rdiv. rewrite Rinv_r by lra. unfold log2. rewrite ln_1.
    unfold Rdiv. ring.
Qed.

Lemma entropy_total_and_sign_witness :
  fst (entropy [0; 4; 0]) = 0%R.
Proof.
  apply (proj2 (proj2 (entropy_total_and_sign [0; 4; 0]))).
  cbn. intros n [<-|[<-|[<-|[]]]]; auto.
Defined.

(** ** merges: the list it returns *)

Lemma merges_pass_length (mg : BIN.t -> BIN.t -> result (option BIN.t)) :
  forall n l now, length l = n -> merges_pass mg l = Ok now ->
    length now <= length l /\ (l <> [] -> now <> []).
Proof.
  induction n as [n IH] using lt_wf_ind; intros l now Hn H.
  destruct l as [|a [|b rest]].
  - inversion H; subst. split; [lia | auto].
  - inversion H; subst. split; [lia | auto].
  - rewrite merges_pass_pair in H.
    destruct (mg a b) as [[ab|]|e]; cbn [Py.bind] in H; [| |discriminate].
    + destruct (merges_pass mg rest) as [nw|e] eqn:E; cbn [Py.bind] in H;
        [|discriminate].
      inversion H; subst now.
      destruct (IH (length rest) ltac:(subst n; cbn; lia) rest nw eq_refl E)
        as [Hl _].
      split; [cbn; lia | discriminate].
    + destruct (merges_pass mg (b :: rest)) as [nw|e] eqn:E;
        cbn [Py.bind] in H; [|discriminate].
      inversion H; subst now.
      destruct (IH (length (b :: rest)) ltac:(subst n; cbn; lia) (b :: rest)
                  nw eq_refl E) as [Hl _].
      split; [cbn in *; lia | discriminate].
Qed.

(** A pass that returns as many bins as it was given has merged none. *)
Lemma merges_pass_settled (mg : BIN.t -> BIN.t -> result (option BIN.t)) :
  forall l now, merges_pass mg l = Ok now -> length now = length l ->
    forall i a b, nth_error l i = Some a -> nth_error l (S i) = Some b ->
                  mg a b = Ok None.
Proof.
  induction l as [|a0 l IH]; intros now H Hlen i a b Ha Hb.
  - destruct i; discriminate.
  - destruct l as [|b0 rest]; [destruct i; discriminate|].
    rewrite merges_pass_pair in H.
    destruct (mg a0 b0) as [[ab|]|e] eqn:Em; cbn [Py.bind] in H;
      [| |discriminate].
    + destruct (merges_pass mg rest) as [nw|e] eqn:E; cbn [Py.bind] in H;
        [|discriminate].
      inversion H; subst now.
      destruct (merges_pass_length mg (length rest) rest nw eq_refl E)
        as [Hl _].
      cbn in Hlen. lia.
    + destruct (merges_pass mg (b0 :: rest)) as [nw|e] eqn:E;
        cbn [Py.bind] in H; [|discriminate].
      inversion H; subst now. cbn [length] in Hlen.
      destruct i as [|i].
      * cbn in Ha, Hb. inversion Ha; inversion Hb; subst. exact Em.
      * apply (IH nw eq_refl ltac:(cbn [length]; lia) i a b Ha Hb).
Qed.

(** X7. The list that [merges] returns is settled: no two neighbours in
    it merge, [merges] maps it to itself, and it is no longer than the
    list given. *)
Theorem merges_settled (mg : BIN.t -> BIN.t -> result (option BIN.t))
    (b4 r : list BIN.t) :
  merges mg b4 = Ok r ->
  (forall i a b, nth_error r i = Some a -> nth_error r (S i) = Some b ->
                 mg a b = Ok None) /\
  merges mg r = Ok r /\
  length r <= length b4 /\
  (b4 <> [] -> r <> []).
Proof.
  remember (length b4) as n eqn:Hn. revert b4 r Hn.
  induction n as [n IH] using lt_wf_ind; intros b4 r Hn H.
  pose proof H as H'. rewrite merges_step in H.
  destruct (merges_pass mg b4) as [now|e] eqn:E; [|discriminate].
  destruct (merges_pass_length mg (length b4) b4 now eq_refl E) as [Hl Hne].
  destruct (Nat.eqb (length now) (length b4)) eqn:El.
  - inversion H; subst r. apply Nat.eqb_eq in El.
    split; [exact (merges_pass_settled mg b4 now E El)|].
    split; [exact H'|]. split; [lia | auto].
  - apply Nat.eqb_neq in El.
    destruct (IH (length now) ltac:(lia) now r eq_refl H)
      as [H1 [H2 [H3 H4]]].
    split; [exact H1|]. split; [exact H2|]. split; [lia|].
    intros Hb. apply H4. apply Hne. exact Hb.
Qed.

Lemma merges_settled_witness :
  let mg := fun a b : BIN.t => Ok (Some a) in
  (forall i a b, nth_error [bin_1_3] i = Some a ->
                 nth_error [bin_1_3] (S i) = Some b -> mg a b = Ok None) /\
  merges mg [bin_1_3] = Ok [bin_1_3] /\
  length [bin_1_3] <= length [bin_1_3; bin_4_9] /\
  ([bin_1_3; bin_4_9] <> [] -> [bin_1_3] <> []).
Proof.
  apply (merges_settled (fun a b => Ok (Some a)) [bin_1_3; bin_4_9]
           [bin_1_3]).
  rewrite merges_step. cbn [merges_pass Py.bind length Nat.eqb].
  rewrite merges_step. reflexivity.
Defined.

(** ** The likelihoods are probabilities *)


Lemma occurrences_le (v : cell) (vs : list cell) :
  occurrences v vs <= length vs.
Proof. unfold occurrences. apply filter_length_le. Qed.

(** X9. [like] of a SYM that has been fed cells is at least 0 and at most
    1 for a prior between 0 and 1, when [the.m] is not negative and one
    of [the.m] and the number of cells seen is not 0. *)
Theorem SYM_like_in_unit (the : The.t) (at_ : nat) (txt : string)
    (vs : list cell) (x : cell) (prior : R) :
  (0 <= The.m the)%R -> (0 <= prior <= 1)%R ->
  (0 < INR (length (present vs)) + The.m the)%R ->
  exists l, SYM.like the (sym_adds (SYM.new at_ txt) vs) x prior = Ok l /\
            (0 <= l <= 1)%R.
Proof.
  intros Hm Hp Hpos.
  destruct (sym_adds_counts vs (SYM.new at_ txt)) as [Hn [Hg _]];
    [constructor | reflexivity |].
  cbn [SYM.new SYM.n Nat.add] in Hn.
  unfold SYM.like. rewrite Hn, Hg.
  change (SYM.get (SYM.new at_ txt) x) with 0. cbn [Nat.add].
  rewrite div_ok by lra. eexists. split; [reflexivity|].
  pose proof (pos_INR (occurrences x (present vs))) as H0.
  pose proof (le_INR _ _ (occurrences_le x (present vs))) as H1.
  assert (Hmp : (0 <= The.m the * prior <= The.m the)%R) by nra.
  split.
  - apply Rmult_le_pos; [lra|]. left. apply Rinv_0_lt_compat. exact Hpos.
  - apply (Rmult_le_reg_r (INR (length (present vs)) + The.m the));
      [exact Hpos|].
    unfold Rdiv. rewrite Rmult_assoc, Rinv_l by lra. lra.
Qed.

Lemma SYM_like_in_unit_witness :
  exists l,
    SYM.like The.defaults
             (sym_adds (SYM.new 0 "origin") [CStr "a"; CStr "?"; CStr "b"])
             (CStr "a") (1 / 2) = Ok l /\ (0 <= l <= 1)%R.
Proof.
  apply (SYM_like_in_unit The.defaults 0 "origin"
           [CStr "a"; CStr "?"; CStr "b"] (CStr "a") (1 / 2)%R).
  - cbn. lra.
  - lra.
  - cbn. lra.
Defined.

(** ** The columns that a header gives *)

Lemma new_col_spec (at_ : nat) (name : cell) (col : COL.t) :
  COLS.new_col at_ name = Ok col ->
  exists txt a z,
    name = CStr txt /\ first_char txt = Ok a /\ last_char txt = Ok z /\
    COL.at_ col = at_ /\ COL.txt col = txt /\ COL.n col = 0 /\
    ((exists c, col = COL.Num c) <-> COLS.isupper a = true).
Proof.
  unfold COLS.new_col. destruct name as [x|txt]; [discriminate|].
  destruct (first_char txt) as [a|e] eqn:Ea; cbn [Py.bind]; [|discriminate].
  destruct (last_char txt) as [z|e] eqn:Ez; cbn [Py.bind]; [|discriminate].
  intros H. exists txt, a, z.
  destruct (COLS.isupper a).
  - unfold NUM.new in H. rewrite Ez in H. cbn [Py.bind] in H.
    inversion H; subst col. cbn. repeat split; eauto.
  - inversion H; subst col. cbn. repeat split; auto; try discriminate.
    intros [c Hc]. discriminate.
Qed.

Lemma new_cols_spec (names : Row) :
  forall k cs, COLS.new_cols k names = Ok cs ->
    forall i col, nth_error cs i = Some col ->
      exists name, nth_error names i = Some name /\
                   COLS.new_col (k + i) name = Ok col.
Proof.
  induction names as [|name names IH]; intros k cs H i col Hn;
    cbn [COLS.new_cols] in H.
  - inversion H; subst. destruct i; discriminate.
  - destruct (COLS.new_col k name) as [c|e] eqn:Ec; cbn [Py.bind] in H;
      [|discriminate].
    destruct (COLS.new_cols (S k) names) as [cs'|e] eqn:Ecs;
      cbn [Py.bind] in H; [|discriminate].
    inversion H; subst cs. destruct i as [|i]; cbn in Hn.
    + inversion Hn; subst col. exists name. rewrite Nat.add_0_r. auto.
    + destruct (IH _ _ Ecs i col Hn) as [nm [Hnm Hc]].
      exists nm. split; [exact Hnm|].
      replace (k + S i) with (S k + i) by lia. exact Hc.
Qed.

(** X10. [COLS(names)] builds one column per name, at the name's index and
    not yet fed: a NUM when the name starts with an upper-case letter, a
    SYM otherwise. A column is in [y] when its name ends in "!", "+" or
    "-", in [x] when it ends in anything else but "X", and in neither when
    it ends in "X". *)
Theorem COLS_new_roles (names : Row) (c : COLS.t) :
  COLS.new names = Ok c ->
  COLS.names c = names /\
  length (COLS.all c) = length names /\
  forall i col, nth_error (COLS.all c) i = Some col ->
    exists txt a z,
      nth_error names i = Some (CStr txt) /\
      first_char txt = Ok a /\ last_char txt = Ok z /\
      COL.at_ col = i /\ COL.txt col = txt /\ COL.n col = 0 /\
      ((exists n, col = COL.Num n) <-> COLS.isupper a = true) /\
      (In col (COLS.x c) <->
       z <> "X"%char /\ COLS.is_goal_char z = false) /\
      (In col (COLS.y c) <->
       z <> "X"%char /\ COLS.is_goal_char z = true).
Proof.
  intros H. pose proof (new_positioned names c H) as [Hlen _].
  unfold COLS.new in H.
  destruct (COLS.new_cols 0 names) as [cs|e] eqn:E; cbn [Py.bind] in H;
    [|discriminate].
  inversion H; subst c. cbn [COLS.names COLS.all] in *.
  split; [reflexivity|]. split; [exact Hlen|].
  intros i col Hn.
  destruct (new_cols_spec names 0 cs E i col Hn) as [name [Hname Hcol]].
  destruct (new_col_spec _ _ _ Hcol)
    as [txt [a [z [-> [Ha [Hz [Hat [Htxt [Hn0 Hk]]]]]]]]].
  exists txt, a, z. repeat (split; [assumption|]).
  assert (Hin : In col cs) by (eapply nth_error_In; exact Hn).
  assert (HX : Ascii.eqb z "X" = false <-> z <> "X"%char)
    by apply Ascii.eqb_neq.
  unfold COLS.x, COLS.y. cbn [COLS.all]. rewrite !filter_In.
  unfold COLS.in_x, COLS.in_y. rewrite Htxt, Hz.
  destruct (Ascii.eqb z "X"); destruct (COLS.is_goal_char z); cbn;
    intuition congruence.
Qed.

Lemma COLS_new_roles_witness :
  exists c, COLS.new cars_header = Ok c /\ COLS.names c = cars_header /\
            length (COLS.all c) = 2.
Proof.
  exists cars_fresh.
  assert (H : COLS.new cars_header = Ok cars_fresh) by reflexivity.
  split; [exact H|].
  destruct (COLS_new_roles cars_header cars_fresh H) as [Hn [Hl _]].
  split; [exact Hn | exact Hl].
Defined.

(** ** A merged bin that ends at 0 *)

(** X11. When the larger of the upper bounds of two bins that merge is 0,
    the constructor takes it for a bound not given: the merged bin ends
    where it starts, and it rejects every number but that one. *)
Theorem merge_upper_bound_0 (i j k : BIN.t) (small l : R) :
  BIN.merge i j small = Ok (Some k) ->
  cell_max (BIN.hi i) (BIN.hi j) = Ok (CNum 0) ->
  BIN.lo k = CNum l ->
  BIN.hi k = CNum l /\
  forall row x, nth_error row (BIN.at_ k) = Some (CNum x) -> x <> l ->
                BIN.selects k row = Ok false.
Proof.
  intros H Hmax Hlo.
  assert (Hhi : BIN.hi k = BIN.lo k).
  { unfold BIN.merge in H.
    destruct (Nat.eqb (BIN.at_ i) (BIN.at_ j)); [|discriminate].
    destruct (cell_min (BIN.lo i) (BIN.lo j)) as [lo'|e]; cbn [Py.bind] in H;
      [|discriminate].
    rewrite Hmax in H. cbn [Py.bind] in H.
    destruct (entropy (values (BIN.ys i))) as [ei ni].
    destruct (entropy (values (BIN.ys j))) as [ej nj].
    destruct (entropy _) as [ek nk].
    assert (Hk : k = BIN.new (BIN.at_ i) (BIN.txt i) lo' (Some (CNum 0))
                       (Some (counter_add (BIN.ys i) (BIN.ys j)))).
    { destruct (Rltb (INR ni) small || Rltb (INR nj) small);
        [congruence|].
      destruct (Py.div _ _) as [avg|e]; cbn [Py.bind] in H; [|discriminate].
      destruct (Rleb ek avg); [congruence | discriminate]. }
    rewrite Hk. unfold BIN.new. cbn [BIN.hi BIN.lo falsy].
    rewrite Reqb_true by reflexivity. reflexivity. }
  rewrite Hlo in Hhi. split; [exact Hhi|].
  intros row x Hx Hne. unfold BIN.selects, index. rewrite Hx, Hlo, Hhi.
  cbn [Py.bind missing cell_eqb cell_leb cell_ltb].
  rewrite (Reqb_false l x) by congruence. cbn [andb].
  destruct (Rle_dec l x) as [Hle|Hgt].
  - rewrite Rleb_true by exact Hle. rewrite Rltb_false by exact Hle.
    reflexivity.
  - rewrite Rleb_false by lra. reflexivity.
Qed.

Lemma merge_upper_bound_0_witness :
  BIN.hi bin_merged_at_0 = CNum (-5) /\
  forall row x, nth_error row (BIN.at_ bin_merged_at_0) = Some (CNum x) ->
                x <> (-5)%R ->
                BIN.selects bin_merged_at_0 row = Ok false.
Proof.
  apply (merge_upper_bound_0 bin_below_0 bin_up_to_0 bin_merged_at_0 2
           (-5)%R).
  - unfold BIN.merge, cell_min, cell_max, bin_below_0, bin_up_to_0.
    cbn [BIN.at_ BIN.lo BIN.hi BIN.txt BIN.ys Nat.eqb cell_ltb Py.bind].
    rewrite (Rltb_false (-2) (-5)) by lra.
    rewrite (Rltb_true (-3) 0) by lra.
    unfold entropy at 1 2. cbn [values map snd filter Nat.ltb Nat.leb
                                list_sum fold_right Nat.add].
    rewrite (Rltb_true (INR 1) 2) by (cbn; lra). cbn [orb].
    destruct (entropy _) as [ek nk].
    unfold BIN.new, bin_merged_at_0. cbn [falsy].
    rewrite Reqb_true by reflexivity. reflexivity.
  - unfold cell_max, bin_below_0, bin_up_to_0.
    cbn [BIN.hi cell_ltb Py.bind]. rewrite Rltb_true by lra. reflexivity.
  - reflexivity.
Defined.

(** ** The columns of a DATA and its rows *)

Lemma col_grown_nil (a : COL.t) : col_grown [] a a.
Proof.
  unfold col_grown, seen. cbn [filter length].
  split; [reflexivity|]. split; [reflexivity|]. split; [lia|].
  destruct a; [|exact I].
  split; [lra|]. split; [lra|]. split; [reflexivity|]. intros row v [].
Qed.

Lemma seen_app (at_ : nat) (r1 r2 : Rows) :
  seen at_ (r1 ++ r2) = seen at_ r1 + seen at_ r2.
Proof. unfold seen. rewrite filter_app, length_app. reflexivity. Qed.

Lemma col_grown_app (r1 r2 : Rows) (a b c : COL.t) :
  col_grown r1 a b -> col_grown r2 b c -> col_grown (r1 ++ r2) a c.
Proof.
  intros [Ha [Ht [Hn Hk]]] [Ha' [Ht' [Hn' Hk']]].
  unfold col_grown. rewrite seen_app.
  split; [congruence|]. split; [congruence|].
  split; [rewrite Hn', Hn, Ha; lia|].
  destruct a as [x|x]; destruct b as [y|y]; try contradiction;
    destruct c as [z|z]; try contradiction; [|exact I].
  destruct Hk as [L1 [H1 [E1 C1]]]. destruct Hk' as [L2 [H2 [E2 C2]]].
  cbn [COL.at_] in Ha.
  split; [lra|]. split; [lra|]. split; [congruence|].
  intros row v Hin Hv. apply in_app_or in Hin. destruct Hin as [Hin|Hin].
  - specialize (C1 row v Hin Hv). lra.
  - rewrite <- Ha in Hv. exact (C2 row v Hin Hv).
Qed.

Lemma col_add_grown (c c' : COL.t) (row : Row) (v : cell) :
  nth_error row (COL.at_ c) = Some v ->
  (if missing v then (c, Ok tt) else COL.add c v) = (c', Ok tt) ->
  col_grown [row] c c'.
Proof.
  intros Hv H. unfold col_grown, seen, has_value. cbn [filter].
  rewrite Hv. destruct (missing v) eqn:Hm; cbn [negb length].
  - inversion H; subst c'.
    split; [reflexivity|]. split; [reflexivity|]. split; [lia|].
    destruct c as [x|x]; [|exact I].
    split; [lra|]. split; [lra|]. split; [reflexivity|].
    intros r w [<-|[]] Hw. cbn [COL.at_] in Hv. rewrite Hv in Hw.
    inversion Hw; subst v. discriminate.
  - destruct c as [x|x]; cbn [COL.add] in H.
    + unfold NUM.add in H. rewrite Hm in H.
      destruct v as [w|s]; [|inversion H].
      inversion H; subst c'. cbn [COL.at_ COL.txt COL.n NUM.at_ NUM.txt
                                   NUM.n NUM.lo NUM.hi NUM.heaven] in *.
      split; [reflexivity|]. split; [reflexivity|]. split; [reflexivity|].
      split; [apply Rmin_r|]. split; [apply Rmax_r|].
      split; [reflexivity|].
      intros r u [<-|[]] Hu. rewrite Hv in Hu. inversion Hu; subst.
      split; [apply Rmin_l | apply Rmax_l].
    + inversion H; subst c'. unfold SYM.add. rewrite Hm.
      cbn [COL.at_ COL.txt COL.n SYM.at_ SYM.txt SYM.n].
      split; [reflexivity|]. split; [reflexivity|]. split; [reflexivity|].
      exact I.
Qed.

Lemma add_cols_grown (row : Row) (cs : list COL.t) :
  forall cs', COLS.add_cols cs row = (cs', Ok tt) ->
              Forall2 (col_grown [row]) cs cs'.
Proof.
  induction cs as [|c cs IH]; intros cs' H; cbn [COLS.add_cols] in H.
  - inversion H. constructor.
  - unfold index in H.
    destruct (nth_error row (COL.at_ c)) as [v|] eqn:Hv; [|discriminate].
    destruct (if missing v then (c, Ok tt) else COL.add c v) as [c1 r] eqn:E.
    destruct r as [[]|e]; [|discriminate].
    destruct (COLS.add_cols cs row) as [cs1 r1]. inversion H; subst.
    constructor; [|apply IH; reflexivity].
    apply (col_add_grown c c1 row v Hv E).
Qed.

Lemma Forall2_grown_app (r1 r2 : Rows) (xs ys zs : list COL.t) :
  Forall2 (col_grown r1) xs ys -> Forall2 (col_grown r2) ys zs ->
  Forall2 (col_grown (r1 ++ r2)) xs zs.
Proof.
  intros H. revert zs. induction H as [|x y xs ys Hxy _ IH]; intros zs Hz.
  - inversion Hz. constructor.
  - inversion Hz; subst. constructor; [|apply IH; assumption].
    eapply col_grown_app; eassumption.
Qed.

Lemma Forall2_grown_nil (xs : list COL.t) : Forall2 (col_grown []) xs xs.
Proof. induction xs; constructor; [apply col_grown_nil | assumption]. Qed.

Lemma adds_grown (lst : Rows) :
  forall d d' c, DATA.cols d = Some c -> DATA.adds d lst = (d', Ok tt) ->
    DATA.rows d' = DATA.rows d ++ lst /\
    exists c', DATA.cols d' = Some c' /\ COLS.names c' = COLS.names c /\
               Forall2 (col_grown lst) (COLS.all c) (COLS.all c').
Proof.
  induction lst as [|row lst IH]; intros d d' c Hc H; cbn [DATA.adds] in H.
  - inversion H; subst d'. rewrite app_nil_r. split; [reflexivity|].
    exists c. split; [exact Hc|]. split; [reflexivity|].
    apply Forall2_grown_nil.
  - destruct (DATA.add d row) as [d1 r] eqn:E.
    destruct r as [[]|e]; [|inversion H].
    unfold DATA.add in E. rewrite Hc in E. unfold COLS.add in E.
    destruct (COLS.add_cols (COLS.all c) row) as [cs1 r1] eqn:Ea.
    destruct r1 as [[]|e]; [|inversion E].
    inversion E; subst d1. clear E.
    destruct (IH {| DATA.rows := DATA.rows d ++ [row];
                    DATA.cols := Some {| COLS.all := cs1;
                                         COLS.names := COLS.names c |} |}
                 d' {| COLS.all := cs1; COLS.names := COLS.names c |}
                 eq_refl H) as [Hr [c' [Hc' [Hn' Hg]]]].
    cbn [DATA.rows COLS.names COLS.all] in *.
    split; [rewrite Hr, <- app_assoc; reflexivity|].
    exists c'. split; [exact Hc'|]. split; [exact Hn'|].
    apply (Forall2_grown_app [row] lst _ cs1); [|exact Hg].
    apply add_cols_grown. exact Ea.
Qed.

Lemma sorted_perm (key : Row -> result R) (xs rs : Rows) :
  sorted float_ltb key xs = Ok rs -> Permutation rs xs.
Proof.
  intros H.
  assert (Hall : Forall (fun x => exists v, key x = Ok v) xs).
  { unfold sorted in H.
    destruct (mapM (fun x => k <- key x ;; Ok (k, x)) xs) as [ks|e] eqn:E;
      [|discriminate].
    apply mapM_Forall2 in E. clear H.
    induction E as [|x y xs ys Hxy _ IH]; constructor; [|exact IH].
    destruct (key x) as [v|e]; [eauto | discriminate]. }
  rewrite (sorted_float key xs Hall) in H. inversion H.
  apply ranked_perm.
Qed.

(** What the constructor leaves when it returns. *)
Lemma new_grown (header : Row) (lst : Rows) (ord : bool) (d : DATA.t) :
  DATA.new (header :: lst) ord = (d, Ok tt) ->
  Permutation (DATA.rows d) lst /\
  (ord = false -> DATA.rows d = lst) /\
  exists c0 c, COLS.new header = Ok c0 /\ DATA.cols d = Some c /\
               COLS.names c = header /\
               Forall2 (col_grown lst) (COLS.all c0) (COLS.all c).
Proof.
  unfold DATA.new. cbn [DATA.adds]. unfold DATA.add at 1.
  cbn [DATA.cols DATA.empty].
  destruct (COLS.new header) as [c0|e] eqn:E0; [|discriminate].
  destruct (DATA.adds _ lst) as [d1 r] eqn:Ea.
  destruct r as [[]|e]; [|discriminate].
  destruct (adds_grown lst {| DATA.rows := []; DATA.cols := Some c0 |} d1 c0
              eq_refl Ea) as [Hr [c [Hc [Hn Hg]]]].
  cbn [DATA.rows DATA.empty app] in Hr.
  assert (Hn0 : COLS.names c0 = header).
  { unfold COLS.new in E0. destruct (COLS.new_cols 0 header);
      cbn [Py.bind] in E0; [|discriminate]. inversion E0. reflexivity. }
  destruct ord.
  - unfold DATA.order.
    destruct (sorted float_ltb (DATA.d2h d1) (DATA.rows d1)) as [rs|e] eqn:Es;
      [|discriminate].
    intros H; inversion H; subst d. cbn [DATA.rows DATA.cols].
    split; [rewrite <- Hr; apply (sorted_perm _ _ _ Es)|].
    split; [discriminate|]. exists c0, c.
    split; [reflexivity|]. split; [exact Hc|]. split; [congruence|].
    exact Hg.
  - intros H; inversion H; subst d. rewrite Hr.
    split; [reflexivity|]. split; [reflexivity|].
    exists c0, c.
    split; [reflexivity|]. split; [exact Hc|]. split; [congruence|].
    exact Hg.
Qed.

Lemma seen_perm (at_ : nat) (r1 r2 : Rows) :
  Permutation r1 r2 -> seen at_ r1 = seen at_ r2.
Proof.
  intros H. unfold seen. apply Permutation_length.
  induction H; cbn [filter].
  - constructor.
  - destruct (has_value at_ x); [constructor|]; assumption.
  - destruct (has_value at_ x); destruct (has_value at_ y);
      try reflexivity. apply perm_swap.
  - etransitivity; eassumption.
Qed.

Lemma Forall2_nth_right {A B} (P : A -> B -> Prop) (xs : list A)
    (ys : list B) :
  Forall2 P xs ys ->
  forall i y, nth_error ys i = Some y ->
              exists x, nth_error xs i = Some x /\ P x y.
Proof.
  induction 1 as [|x y xs ys Hxy _ IH]; intros i b Hi.
  - destruct i; discriminate.
  - destruct i as [|i]; cbn in Hi.
    + inversion Hi; subst. exists x. auto.
    + apply IH. exact Hi.
Qed.

(** X12. When [DATA(src)] returns, the first row of [src] is the header and
    the others are the rows, reordered if [order] was asked; there is one
    column for each name of the header, at the name's index, and the [n]
    of each column is the number of rows that have a value there. *)
Theorem DATA_new_in_sync (header : Row) (lst : Rows) (ord : bool)
    (d : DATA.t) :
  DATA.new (header :: lst) ord = (d, Ok tt) ->
  Permutation (DATA.rows d) lst /\
  (ord = false -> DATA.rows d = lst) /\
  exists c, DATA.cols d = Some c /\ COLS.names c = header /\
            length (COLS.all c) = length header /\
            forall i col, nth_error (COLS.all c) i = Some col ->
              COL.at_ col = i /\
              COL.n col = seen i (DATA.rows d).
Proof.
  intros H. destruct (new_grown header lst ord d H)
    as [Hp [Hf [c0 [c [E0 [Hc [Hn Hg]]]]]]].
  split; [exact Hp|]. split; [exact Hf|].
  exists c. split; [exact Hc|]. split; [exact Hn|].
  pose proof (new_positioned header c0 E0) as [Hlen Hat].
  assert (Hn0 : COLS.names c0 = header).
  { unfold COLS.new in E0. destruct (COLS.new_cols 0 header);
      cbn [Py.bind] in E0; [|discriminate]. inversion E0. reflexivity. }
  rewrite Hn0 in Hlen.
  split; [rewrite <- (Forall2_length Hg); exact Hlen|].
  intros i col Hi.
  assert (Hfresh : forall j cj, nth_error (COLS.all c0) j = Some cj ->
                                COL.n cj = 0).
  { intros j cj Hj. unfold COLS.new in E0.
    destruct (COLS.new_cols 0 header) as [cs|e] eqn:Ecs; cbn [Py.bind] in E0;
      [|discriminate].
    inversion E0; subst c0. cbn [COLS.all] in Hj.
    destruct (new_cols_spec header 0 cs Ecs j cj Hj) as [nm [_ Hcj]].
    destruct (new_col_spec _ _ _ Hcj) as [t [a [z [_ [_ [_ [_ [_ [H0 _]]]]]]]]].
    exact H0. }
  destruct (Forall2_nth_right _ _ _ Hg i col Hi) as [c1 [H1 [Ha [_ [Hk _]]]]].
  rewrite Ha, Hk, (Hat i c1 H1), (Hfresh i c1 H1).
  rewrite (seen_perm i _ _ Hp). split; reflexivity.
Qed.

Lemma DATA_new_in_sync_witness :
  Permutation (DATA.rows cars) cars_rows /\
  (false = false -> DATA.rows cars = cars_rows) /\
  exists c, DATA.cols cars = Some c /\ COLS.names c = cars_header /\
            length (COLS.all c) = length cars_header /\
            forall i col, nth_error (COLS.all c) i = Some col ->
              COL.at_ col = i /\
              COL.n col = seen i (DATA.rows cars).
Proof.
  apply (DATA_new_in_sync cars_header cars_rows false cars). reflexivity.
Defined.

Lemma Forall2_In_right {A B} (P : A -> B -> Prop) (xs : list A)
    (ys : list B) :
  Forall2 P xs ys -> forall y, In y ys -> exists x, In x xs /\ P x y.
Proof.
  induction 1 as [|x y xs ys Hxy _ IH]; intros b Hb; [destruct Hb|].
  destruct Hb as [<-|Hb].
  - exists x. split; [left; reflexivity | exact Hxy].
  - destruct (IH b Hb) as [a [Ha Hab]]. exists a. split; [right|]; assumption.
Qed.

Lemma new_cols_heaven (names : Row) (c0 : COLS.t) (x : NUM.t) :
  COLS.new names = Ok c0 -> In (COL.Num x) (COLS.all c0) ->
  NUM.heaven x = 0%R \/ NUM.heaven x = 1%R.
Proof.
  intros H Hin. unfold COLS.new in H.
  destruct (COLS.new_cols 0 names) as [cs|e] eqn:E; cbn [Py.bind] in H;
    [|discriminate].
  inversion H; subst c0. cbn [COLS.all] in Hin.
  apply In_nth_error in Hin. destruct Hin as [i Hi].
  destruct (new_cols_spec names 0 cs E i _ Hi) as [name [_ Hc]].
  unfold COLS.new_col in Hc. destruct name as [w|txt]; [discriminate|].
  destruct (first_char txt) as [a|e]; cbn [Py.bind] in Hc; [|discriminate].
  destruct (last_char txt) as [z|e]; cbn [Py.bind] in Hc; [|discriminate].
  destruct (COLS.isupper a); [|discriminate].
  destruct (NUM.new (0 + i) txt) as [n|e] eqn:En; cbn [Py.bind] in Hc;
    [|discriminate].
  inversion Hc; subst n. exact (new_heaven _ _ _ En).
Qed.

Lemma sum_of_unit (ds : list R) :
  Forall (fun s => (0 <= s <= 1)%R) ds ->
  (0 <= fold_right Rplus 0 ds <= INR (length ds))%R.
Proof.
  induction 1 as [|s ds Hs _ IH]; [cbn; lra|].
  cbn [fold_right]. change (length (s :: ds)) with (S (length ds)).
  rewrite S_INR. lra.
Qed.

(** X13. In a dataset that [DATA(src)] has built, the distance to heaven
    of each of its rows, where [d2h] returns one, lies between 0 and 1. *)
Theorem DATA_d2h_in_unit (header : Row) (lst : Rows) (ord : bool)
    (d : DATA.t) (row : Row) (v : R) :
  DATA.new (header :: lst) ord = (d, Ok tt) ->
  In row (DATA.rows d) ->
  DATA.d2h d row = Ok v ->
  (0 <= v <= 1)%R.
Proof.
  intros Hnew Hin Hd.
  destruct (new_grown header lst ord d Hnew)
    as [Hp [_ [c0 [c [E0 [Hc [_ Hg]]]]]]].
  assert (Hrow : In row lst) by (apply (Permutation_in _ Hp); exact Hin).
  unfold DATA.d2h, DATA.the_cols in Hd. rewrite Hc in Hd.
  cbn [Py.bind] in Hd.
  destruct (mapM _ (COLS.y c)) as [ds|e] eqn:Em; cbn [Py.bind] in Hd;
    [|discriminate].
  apply mapM_Forall2 in Em.
  assert (Hds : Forall (fun s => (0 <= s <= 1)%R) ds).
  { assert (Hy : Forall (fun col => In col (COLS.all c)) (COLS.y c)).
    { apply Forall_forall. intros col Hcol. unfold COLS.y in Hcol.
      apply filter_In in Hcol. apply Hcol. }
    clear Hd. revert Hy. revert Em. generalize (COLS.y c) as cols.
    intros cols Em. induction Em as [|col s cols ds Hs _ IH]; intros Hy; [constructor|].
    inversion Hy as [|? ? Hcol Hy']; subst.
    constructor; [|apply IH; exact Hy'].
    unfold index in Hs.
    destruct (nth_error row (COL.at_ col)) as [w|] eqn:Ew;
      cbn [Py.bind] in Hs; [|discriminate].
    destruct (COL.d2h col w) as [d0|e] eqn:Ed; cbn [Py.bind] in Hs;
      [|discriminate].
    inversion Hs; subst s.
    destruct col as [y|y]; [|discriminate]. cbn [COL.d2h COL.at_] in *.
    destruct (Forall2_In_right _ _ _ Hg _ Hcol) as [col0 [Hin0 Hgr]].
    destruct Hgr as [Hat [_ [_ Hk]]].
    destruct col0 as [x|x]; [|contradiction].
    destruct Hk as [_ [_ [Hh Hb]]]. cbn [COL.at_] in Hat.
    assert (Hw : exists u, w = CNum u).
    { unfold NUM.d2h, NUM.norm in Ed. destruct w as [u|s]; [eauto|].
      destruct (missing (CStr s)); discriminate. }
    destruct Hw as [u ->].
    rewrite Hat in Ew. specialize (Hb row u Hrow Ew).
    destruct (norm_between y u Hb) as [q [d1 [_ [_ [Hd1 Hr]]]]].
    { rewrite Hh. apply (new_cols_heaven header c0 x E0 Hin0). }
    rewrite Hd1 in Ed. inversion Ed; subst d1. unfold sq. nra. }
  rewrite sum_fold_right in Hd.
  pose proof (sum_of_unit ds Hds) as Hsum.
  rewrite <- (Forall2_length Em) in Hsum.
  unfold Py.div in Hd.
  destruct (Req_dec_T (INR (length (COLS.y c))) 0) as [|Hne];
    [discriminate|].
  cbn [Py.bind] in Hd. inversion Hd; subst v. unfold pow_half.
  pose proof (pos_INR (length (COLS.y c))) as Hlen.
  assert (Hq : (0 <= fold_right Rplus 0 ds / INR (length (COLS.y c)) <= 1)%R).
  { split.
    - apply Rmult_le_pos; [lra|]. left. apply Rinv_0_lt_compat. lra.
    - apply (Rmult_le_reg_r (INR (length (COLS.y c)))); [lra|].
      unfold Rdiv. rewrite Rmult_assoc, Rinv_l by lra. lra. }
  split; [apply sqrt_pos|].
  rewrite <- sqrt_1. apply sqrt_le_1_alt. lra.
Qed.

Lemma DATA_d2h_in_unit_witness :
  exists v, DATA.d2h cars [CStr "a"; CNum 20] = Ok v /\ (0 <= v <= 1)%R.
Proof.
  destruct (proj1 (Forall_forall _ _) cars_d2h [CStr "a"; CNum 20])
    as [v Hv]; [cbn; auto|].
  exists v. split; [exact Hv|].
  apply (DATA_d2h_in_unit cars_header cars_rows false cars
           [CStr "a"; CNum 20] v);
    [reflexivity | cbn; auto | exact Hv].
Defined.

(** ** NB: the rows that the visitor sees *)

Lemma add_row_grown (d d' : DATA.t) (c : COLS.t) (row : Row) :
  DATA.cols d = Some c -> DATA.add d row = (d', Ok tt) ->
  DATA.rows d' = DATA.rows d ++ [row] /\
  exists c', DATA.cols d' = Some c' /\ COLS.names c' = COLS.names c /\
             Forall2 (col_grown [row]) (COLS.all c) (COLS.all c').
Proof.
  intros Hc H. apply (adds_grown [row] d d' c Hc).
  cbn [DATA.adds]. rewrite H. reflexivity.
Qed.

Lemma last_map_Some {A B} (f : A -> B) (l : list A) :
  option_map f (last (map Some l) None) = last (map Some (map f l)) None.
Proof.
  induction l as [|a l IH]; [reflexivity|].
  destruct l as [|b l]; [reflexivity|]. exact IH.
Qed.

Lemma klass_at_grown (rows : Rows) (xs ys : list COL.t) :
  Forall2 (col_grown rows) xs ys -> klass_at xs = klass_at ys.
Proof.
  intros H. unfold klass_at. rewrite !last_map_Some. f_equal. f_equal.
  induction H as [|x y xs ys [Ha [Ht _]] _ IH]; [reflexivity|].
  assert (Hk : COLS.is_klass y = COLS.is_klass x)
    by (unfold COLS.is_klass; rewrite Ht; reflexivity).
  cbn [filter]. rewrite Hk. destruct (COLS.is_klass x); [|exact IH].
  cbn [map]. rewrite Ha, IH. reflexivity.
Qed.

Lemma clone_fresh (data d : DATA.t) :
  DATA_clone data [] false = Ok d ->
  DATA.rows d = [] /\ DATA.cols d <> None.
Proof.
  unfold DATA_clone. destruct (DATA.the_cols data) as [c|e];
    cbn [Py.bind]; [|discriminate].
  destruct (DATA.new [COLS.names c] false) as [d1 r] eqn:E.
  destruct r as [[]|e]; cbn [Py.bind]; [|discriminate].
  intros H; inversion H; subst d1.
  destruct (new_grown _ _ _ _ E) as [_ [Hr [c0 [c1 [_ [Hc _]]]]]].
  split; [apply Hr; reflexivity | congruence].
Qed.

Lemma filter_app_one {A} (f : A -> bool) (l : list A) (x : A) :
  filter f (l ++ [x]) = filter f l ++ (if f x then [x] else []).
Proof. rewrite filter_app. reflexivity. Qed.

(** One visit. *)
Lemma run_inv (the : The.t) (nb nb' : NB.t) (data : DATA.t) (c : COLS.t)
    (row : Row) (seen : Rows) :
  DATA.cols data = Some c ->
  NB.run the nb data row = (nb', Ok tt) ->
  nb_counts seen nb ->
  nb_counts (seen ++ [row]) nb' /\
  exists at_, klass_at (COLS.all c) = Some at_ /\
              (nb_datas at_ seen nb -> nb_datas at_ (seen ++ [row]) nb').
Proof.
  intros Hc H [Hn Ha]. unfold NB.run in H.
  destruct (NB.want_of data row) as [want|e] eqn:Ew; [|discriminate].
  unfold NB.want_of, DATA.the_cols in Ew. rewrite Hc in Ew.
  cbn [Py.bind] in Ew.
  destruct (COLS.klass c) as [kc|] eqn:Ek; [|discriminate].
  unfold index in Ew.
  destruct (nth_error row (COL.at_ kc)) as [w|] eqn:Er; [|discriminate].
  inversion Ew; subst w. clear Ew.
  cbn [NB.nall NB.datas NB.acc] in H.
  destruct (if 10 <? NB.nall nb + 1
            then got <- NB.classify the _ data row ;;
                 Ok (NB.acc nb + (if cell_eqb want got then 1 else 0))
            else Ok (NB.acc nb)) as [acc'|e] eqn:Eacc; [|discriminate].
  assert (Hacc : acc' <= length (seen ++ [row]) - 10).
  { rewrite length_app. cbn [length].
    destruct (10 <? NB.nall nb + 1) eqn:E10.
    - apply Nat.ltb_lt in E10.
      destruct (NB.classify the _ data row) as [got|e];
        cbn [Py.bind] in Eacc; [|discriminate].
      inversion Eacc. destruct (cell_eqb want got); lia.
    - inversion Eacc. lia. }
  destruct (match cget (NB.datas nb) want with
            | Some d => Ok (NB.datas nb, d)
            | None => d <- DATA_clone data [] false ;;
                      Ok (cset (NB.datas nb) want d, d)
            end) as [[ds d]|e] eqn:Ed; [|discriminate].
  destruct (DATA.add d row) as [d' r] eqn:Eadd.
  inversion H; subst nb' r. clear H.
  split.
  { split; cbn [NB.nall NB.acc]; [|exact Hacc].
    rewrite length_app. cbn [length]. lia. }
  exists (COL.at_ kc). split.
  { unfold klass_at. unfold COLS.klass in Ek. rewrite Ek. reflexivity. }
  intros Hd.
  assert (Hold : DATA.cols d <> None /\
                 DATA.rows d = filter (labelled (COL.at_ kc) want) seen /\
                 forall k, cget (cset ds want d') k
                           = if cell_eqb want k then Some d'
                             else cget (NB.datas nb) k).
  { pose proof (Hd want) as Hw.
    destruct (cget (NB.datas nb) want) as [d0|] eqn:Eg.
    - inversion Ed; subst ds d0. destruct Hw as [H1 [H2 _]].
      split; [exact H1|]. split; [exact H2|].
      intros k. apply cget_cset.
    - destruct (DATA_clone data [] false) as [d0|e] eqn:Ecl;
        cbn [Py.bind] in Ed; [|discriminate].
      inversion Ed; subst ds d0.
      destruct (clone_fresh data d Ecl) as [H1 H2].
      split; [exact H2|]. split; [rewrite H1, Hw; reflexivity|].
      intros k. rewrite !cget_cset.
      destruct (cell_eqb want k); reflexivity. }
  destruct Hold as [Hcols [Hrows Hget]].
  destruct (DATA.cols d) as [cd|] eqn:Ecd; [|congruence].
  destruct (add_row_grown d d' cd row Ecd Eadd) as [Hr' [cd' [Hcd' _]]].
  intros k. cbn [NB.datas]. rewrite Hget, filter_app_one.
  unfold labelled at 2 4. rewrite Er.
  destruct (cell_eqb want k) eqn:Ewk.
  - apply cell_eqb_eq in Ewk. subst k.
    split; [congruence|]. split.
    + rewrite Hr', Hrows. reflexivity.
    + rewrite Hr'. intros Hnil. apply app_eq_nil in Hnil.
      destruct Hnil as [_ Hnil]. discriminate.
  - rewrite app_nil_r. apply (Hd k).
Qed.

Lemma data_adds_inv (the : The.t) (src : Rows) :
  forall nb d c seen nb' d',
    DATA.cols d = Some c -> DATA.rows d = seen -> nb_counts seen nb ->
    NB.data_adds the nb d src = ((nb', d'), Ok tt) ->
    DATA.rows d' = seen ++ src /\ nb_counts (seen ++ src) nb' /\
    exists c', DATA.cols d' = Some c' /\
               COLS.names c' = COLS.names c /\
               klass_at (COLS.all c') = klass_at (COLS.all c) /\
               (src <> [] -> klass_at (COLS.all c) <> None) /\
               forall at_, klass_at (COLS.all c) = Some at_ ->
                           nb_datas at_ seen nb ->
                           nb_datas at_ (seen ++ src) nb'.
Proof.
  induction src as [|row src IH]; intros nb d c seen nb' d' Hc Hr Hn H;
    cbn [NB.data_adds] in H.
  - inversion H; subst nb' d'. rewrite app_nil_r.
    split; [exact Hr|]. split; [exact Hn|]. exists c.
    split; [exact Hc|]. split; [reflexivity|]. split; [reflexivity|].
    split; [congruence | auto].
  - unfold NB.data_add in H. rewrite Hc in H.
    destruct (NB.run the nb d row) as [nb1 r1] eqn:Erun.
    destruct r1 as [[]|e]; [|inversion H].
    destruct (DATA.add d row) as [d1 r2] eqn:Eadd.
    destruct r2 as [[]|e]; [|inversion H].
    cbn [fst snd] in H.
    destruct (run_inv the nb nb1 d c row seen Hc Erun Hn)
      as [Hn1 [at0 [Hat0 Hd1]]].
    destruct (add_row_grown d d1 c row Hc Eadd) as [Hr1 [c1 [Hc1 [Hm1 Hg1]]]].
    rewrite Hr in Hr1.
    pose proof (klass_at_grown _ _ _ Hg1) as Hk1.
    destruct (IH nb1 d1 c1 (seen ++ [row]) nb' d' Hc1 Hr1 Hn1 H)
      as [Hr' [Hn' [c' [Hc' [Hm' [Hk' [_ Hd']]]]]]].
    rewrite <- app_assoc in Hr', Hn'. cbn [app] in Hr', Hn'.
    split; [exact Hr'|]. split; [exact Hn'|]. exists c'.
    split; [exact Hc'|]. split; [congruence|]. split; [congruence|].
    split; [congruence|].
    intros at_ Hat Hd.
    replace (seen ++ row :: src) with ((seen ++ [row]) ++ src)
      by (rewrite <- app_assoc; reflexivity).
    apply Hd'; [congruence|].
    assert (at0 = at_) by congruence. subst at0. apply Hd1. exact Hd.
Qed.

(** X14. When [DATA(src, fun=nb.run)] returns for a new NB, the NB has
    visited each row once, in the order of [src]: [nall] is the number of
    rows, [acc] counts at most the rows after the tenth, and for each
    label the NB keeps a dataset with exactly the rows of that label, in
    that order, and none for a label that has not come. *)
Theorem NB_visits_each_row (the : The.t) (header : Row) (rows : Rows)
    (ord : bool) (nb : NB.t) (d : DATA.t) :
  NB.data_new the NB.new (header :: rows) ord = ((nb, d), Ok tt) ->
  Permutation (DATA.rows d) rows /\
  NB.nall nb = length rows /\
  NB.acc nb <= length rows - 10 /\
  exists c, DATA.cols d = Some c /\ COLS.names c = header /\
            (rows <> [] -> klass_at (COLS.all c) <> None) /\
            forall at_ k,
              klass_at (COLS.all c) = Some at_ ->
              match cget (NB.datas nb) k with
              | Some dk => DATA.rows dk = filter (labelled at_ k) rows /\
                           DATA.rows dk <> []
              | None => filter (labelled at_ k) rows = []
              end.
Proof.
  unfold NB.data_new. cbn [NB.data_adds]. unfold NB.data_add at 1.
  cbn [DATA.cols DATA.empty]. unfold DATA.add at 1.
  cbn [DATA.cols DATA.empty DATA.rows].
  destruct (COLS.new header) as [c0|e] eqn:E0; [|discriminate].
  cbn [fst snd].
  destruct (NB.data_adds the NB.new _ rows) as [[nb1 d1] r] eqn:Ea.
  destruct r as [[]|e]; [|discriminate].
  destruct (data_adds_inv the rows NB.new
              {| DATA.rows := []; DATA.cols := Some c0 |} c0 [] nb1 d1
              eq_refl eq_refl ltac:(split; cbn; lia) Ea)
    as [Hr [[Hn Ha] [c [Hc [Hm [Hk [Hne Hd]]]]]]].
  cbn [app] in *.
  assert (Hn0 : COLS.names c0 = header).
  { unfold COLS.new in E0. destruct (COLS.new_cols 0 header);
      cbn [Py.bind] in E0; [|discriminate]. inversion E0. reflexivity. }
  assert (Hd0 : nb_datas 0 [] NB.new /\ forall a, nb_datas a [] NB.new).
  { split; intros; intros k; reflexivity. }
  assert (G : forall d', DATA.cols d' = Some c ->
                         Permutation (DATA.rows d') rows ->
                         Permutation (DATA.rows d') rows /\
                         NB.nall nb1 = length rows /\
                         NB.acc nb1 <= length rows - 10 /\
                         exists c, DATA.cols d' = Some c /\
                           COLS.names c = header /\
                           (rows <> [] -> klass_at (COLS.all c) <> None) /\
                           forall at_ k,
                             klass_at (COLS.all c) = Some at_ ->
                             match cget (NB.datas nb1) k with
                             | Some dk =>
                                 DATA.rows dk = filter (labelled at_ k) rows /\
                                 DATA.rows dk <> []
                             | None => filter (labelled at_ k) rows = []
                             end).
  { intros d' Hc' Hp. split; [exact Hp|]. split; [exact Hn|].
    split; [exact Ha|]. exists c. split; [exact Hc'|].
    split; [congruence|]. split; [rewrite Hk; exact Hne|].
    intros at_ k Hat. rewrite Hk in Hat.
    pose proof (Hd at_ Hat (proj2 Hd0 at_) k) as Hk'.
    destruct (cget (NB.datas nb1) k); [|exact Hk'].
    destruct Hk' as [_ Hk']. exact Hk'. }
  destruct ord.
  - cbn [fst snd]. unfold DATA.order.
    destruct (sorted float_ltb (DATA.d2h d1) (DATA.rows d1)) as [rs|e] eqn:Es;
      [|intros H; inversion H].
    intros H. assert (Hnb : nb1 = nb) by congruence.
    assert (Hdd : {| DATA.rows := rs; DATA.cols := DATA.cols d1 |} = d)
      by congruence.
    rewrite <- Hnb, <- Hdd. apply G; [exact Hc|].
    cbn [DATA.rows]. rewrite <- Hr. apply (sorted_perm _ _ _ Es).
  - intros H. assert (Hnb : nb1 = nb) by congruence.
    assert (Hdd : d1 = d) by congruence.
    rewrite <- Hnb, <- Hdd. apply G; [exact Hc|].
    rewrite Hr. reflexivity.
Qed.


Lemma pets_visited :
  NB.data_new The.defaults NB.new (pets_header :: pets_rows) false
  = (fst (NB.data_new The.defaults NB.new (pets_header :: pets_rows) false),
     Ok tt).
Proof. reflexivity. Qed.

Lemma NB_visits_each_row_witness :
  exists nb d,
    NB.data_new The.defaults NB.new (pets_header :: pets_rows) false
    = ((nb, d), Ok tt) /\
    Permutation (DATA.rows d) pets_rows /\
    NB.nall nb = length pets_rows /\
    NB.acc nb <= length pets_rows - 10.
Proof.
  destruct (NB.data_new The.defaults NB.new (pets_header :: pets_rows) false)
    as [[nb d] r] eqn:E.
  pose proof pets_visited as H. rewrite E in H. cbn [fst] in H.
  inversion H; subst r.
  exists nb, d. split; [reflexivity|].
  destruct (NB_visits_each_row The.defaults pets_header pets_rows false
              nb d E) as [Hp [Hn [Ha _]]].
  auto.
Defined.

(** ** NUM.bin and NUM.div on the numbers seen *)

Lemma num_adds_spread (at_ : nat) (txt : string) (i : NUM.t) (xs : list R)
    (x : R) :
  NUM.new at_ txt = Ok i -> In x xs ->
  (0 < NUM.hi (num_adds i xs) - NUM.lo (num_adds i xs) + tiny)%R.
Proof.
  intros _ Hin. pose proof tiny_pos.
  pose proof (num_adds_bounds xs i x (or_introl Hin)). lra.
Qed.

(** X15. [bin] gives each number that a NUM has been fed a key from 0 to
    [the.Bins - 1], and a larger number a key that is not smaller. *)
Theorem NUM_bin_in_range (the : The.t) (at_ : nat) (txt : string)
    (i : NUM.t) (xs : list R) (x y : R) :
  NUM.new at_ txt = Ok i -> In x xs -> In y xs ->
  (0 < The.Bins the)%Z ->
  let c := num_adds i xs in
  exists kx ky,
    NUM.bin the c (CNum x) = Ok kx /\ NUM.bin the c (CNum y) = Ok ky /\
    (0 <= kx <= The.Bins the - 1)%Z /\
    ((x <= y)%R -> (kx <= ky)%Z).
Proof.
  intros Hnew Hx Hy HB c.
  pose proof (num_adds_spread at_ txt i xs x Hnew Hx) as Hd. fold c in Hd.
  assert (E : forall v, NUM.bin the c (CNum v) = Ok (zkey the c v)).
  { intros v. unfold NUM.bin, NUM.norm. cbn [missing].
    rewrite div_ok by lra. reflexivity. }
  exists (zkey the c x), (zkey the c y).
  split; [apply E|]. split; [apply E|]. split.
  - unfold zkey. split; [|apply Z.le_min_l].
    apply Z.min_glb; [lia|].
    assert (Hb : (NUM.lo c <= x <= NUM.hi c)%R)
      by (apply num_adds_bounds; left; exact Hx).
    assert (H0 : (0 <= IZR (The.Bins the)
                       * ((x - NUM.lo c) / (NUM.hi c - NUM.lo c + tiny)))%R).
    { apply Rmult_le_pos; [apply IZR_le; lia|].
      apply Rmult_le_pos; [lra|]. left. apply Rinv_0_lt_compat. exact Hd. }
    unfold Py.int. destruct (Rle_dec 0 _) as [_|Hn]; [|contradiction].
    apply Int_part_nonneg. exact H0.
  - intros Hxy. apply zkey_mono; assumption.
Qed.

Lemma NUM_bin_in_range_witness :
  let c := num_adds fresh_lbs [10; 20; 30]%R in
  exists kx ky,
    NUM.bin The.defaults c (CNum 10) = Ok kx /\
    NUM.bin The.defaults c (CNum 30) = Ok ky /\
    (0 <= kx <= The.Bins The.defaults - 1)%Z /\
    ((10 <= 30)%R -> (kx <= ky)%Z).
Proof.
  apply (NUM_bin_in_range The.defaults 1 "Lbs-" fresh_lbs [10; 20; 30]%R
           10%R 30%R);
    [reflexivity | cbn; auto | cbn; auto | reflexivity].
Defined.

Lemma squares_about_same (a : R) (xs : list R) :
  Forall (fun x => x = a) xs -> squares_about a xs = 0%R.
Proof.
  induction 1 as [|x xs Hx _ IH]; [reflexivity|].
  change (squares_about a (x :: xs))
    with ((x - a) * (x - a) + squares_about a xs)%R.
  rewrite IH, Hx. ring.
Qed.

Lemma sum_of_same (a : R) (xs : list R) :
  Forall (fun x => x = a) xs -> sum_of xs = (INR (length xs) * a)%R.
Proof.
  induction 1 as [|x xs Hx _ IH]; [cbn; lra|].
  change (sum_of (x :: xs)) with (x + sum_of xs)%R.
  change (length (x :: xs)) with (S (length xs)).
  rewrite IH, Hx, S_INR. ring.
Qed.

(** X16. [div] of a NUM that has been fed fewer than two numbers is 0;
    from two numbers on it is their sample standard deviation, which is
    never negative and is 0 when the numbers are all the same. *)
Theorem NUM_div_sample_deviation (at_ : nat) (txt : string) (i : NUM.t)
    (xs : list R) :
  NUM.new at_ txt = Ok i ->
  let c := num_adds i xs in
  let mean := (sum_of xs / INR (length xs))%R in
  (length xs < 2 -> NUM.div c = 0%R) /\
  (2 <= length xs ->
   NUM.div c = sqrt (squares_about mean xs / (INR (length xs) - 1))) /\
  (0 <= NUM.div c)%R /\
  (forall a, Forall (fun x => x = a) xs -> NUM.div c = 0%R).
Proof.
  intros Hnew c mean.
  assert (H0 : NUM.n i = 0 /\ NUM.mu i = 0%R /\ NUM.m2 i = 0%R).
  { unfold NUM.new in Hnew. destruct (last_char txt); cbn in Hnew;
      [|discriminate]. inversion Hnew. cbn. auto. }
  destruct H0 as [Hn [Hmu Hm2]].
  destruct (num_adds_welford xs i []) as [Hn' [Hmu' Hm2']];
    [rewrite Hn; reflexivity | rewrite Hn, Hmu; cbn; lra
     | rewrite Hn, Hmu, Hm2; cbn; lra |].
  cbn [app] in *. fold c in Hn', Hmu', Hm2'.
  assert (Hsd : 2 <= length xs ->
                NUM.div c
                = sqrt (squares_about mean xs / (INR (length xs) - 1))).
  { intros H2. unfold NUM.div, pow_half. rewrite Hn'.
    destruct (Nat.ltb_spec (length xs) 2) as [|_]; [lia|].
    assert (Hlen : (0 < INR (length xs))%R) by (apply lt_0_INR; lia).
    assert (Hmean : NUM.mu c = mean).
    { unfold mean. rewrite <- Hmu', Hn'. field. lra. }
    f_equal. f_equal.
    rewrite Hm2', (squares_about_expand mean xs), Hmean, Hn'.
    unfold mean. field. lra. }
  assert (Hlt : length xs < 2 -> NUM.div c = 0%R).
  { intros H2. unfold NUM.div. rewrite Hn'.
    destruct (Nat.ltb_spec (length xs) 2); [reflexivity | lia]. }
  split; [exact Hlt|]. split; [exact Hsd|]. split.
  - destruct (Nat.lt_ge_cases (length xs) 2) as [H2|H2].
    + rewrite (Hlt H2). lra.
    + rewrite (Hsd H2). apply sqrt_pos.
  - intros a Ha. destruct (Nat.lt_ge_cases (length xs) 2) as [H2|H2];
      [exact (Hlt H2)|].
    rewrite (Hsd H2).
    assert (Hlen : (0 < INR (length xs))%R) by (apply lt_0_INR; lia).
    assert (Hmean : mean = a).
    { unfold mean. rewrite (sum_of_same a xs Ha). field. lra. }
    rewrite Hmean, (squares_about_same a xs Ha).
    unfold Rdiv. rewrite Rmult_0_l. apply sqrt_0.
Qed.

Lemma NUM_div_sample_deviation_witness :
  NUM.div (num_adds fresh_lbs [10; 20; 30]%R)
  = sqrt (squares_about (sum_of [10; 20; 30]%R / INR 3) [10; 20; 30]%R
          / (INR 3 - 1)).
Proof.
  apply (proj1 (proj2 (NUM_div_sample_deviation 1 "Lbs-" fresh_lbs
                         [10; 20; 30]%R eq_refl))).
  cbn. lia.
Defined.

(** ** smo: the rows that [acquire] keeps *)

(** X17. When [acquire] returns, it has left the store as it was and
    returns the start of a ranking of the rows given: the returned rows
    and those left out are together a permutation of the rows given, and
    along the returned rows followed by the others the key, the negated
    score of a row's two likelihoods, never goes down. *)
Theorem acquire_keeps_the_top (the : The.t) (score : R -> R -> R)
    (best rest : nat) (rows kept : Rows) (hs hs' : Store.t) :
  Smo.acquire the score best rest rows hs = (hs', Ok kept) ->
  let key := fun row => lb <- Smo.like the row (Store.obj hs best) ;;
                        lr <- Smo.like the row (Store.obj hs rest) ;;
                        Ok (- score lb lr)%R in
  hs' = hs /\
  exists left_out,
    Permutation (kept ++ left_out) rows /\
    StronglySorted (fun a b => (key_value key a <= key_value key b)%R)
                   (kept ++ left_out).
Proof.
  intros H key. unfold Smo.acquire, Store.bind, Store.read, Store.lift,
    Store.ret in H. fold key in H.
  destruct (sorted float_ltb key rows) as [s|e] eqn:Es; [|inversion H].
  inversion H; subst hs' kept. split; [reflexivity|].
  assert (Hall : Forall (fun x => exists v, key x = Ok v) rows).
  { unfold sorted in Es.
    destruct (mapM (fun x => k <- key x ;; Ok (k, x)) rows) as [ks|e] eqn:E;
      [|discriminate].
    apply mapM_Forall2 in E. clear Es H.
    induction E as [|x y xs ys Hxy _ IH]; constructor; [|exact IH].
    destruct (key x) as [v|e]; [eauto | discriminate]. }
  rewrite (sorted_float key rows Hall) in Es. inversion Es; subst s.
  fold (ranked key rows).
  assert (Hs : exists n, slice_to (ranked key rows)
                           (Py.int (INR (length rows) * The.Top the))
                         = firstn n (ranked key rows)).
  { unfold slice_to. destruct (_ <? 0)%Z; eauto. }
  destruct Hs as [n ->]. exists (skipn n (ranked key rows)).
  rewrite firstn_skipn. split; [apply ranked_perm | apply ranked_sorted].
Qed.

Lemma acquire_keeps_the_top_witness :
  exists kept left_out,
    kept <> [] /\
    Permutation (kept ++ left_out) cars_rows /\
    StronglySorted
      (fun a b =>
         (key_value (fun row =>
                       lb <- Smo.like The.defaults row cars ;;
                       lr <- Smo.like The.defaults row cars ;;
                       Ok (- Smo.B_minus_R lb lr)%R) a
          <= key_value (fun row =>
                          lb <- Smo.like The.defaults row cars ;;
                          lr <- Smo.like The.defaults row cars ;;
                          Ok (- Smo.B_minus_R lb lr)%R) b)%R)
      (kept ++ left_out).
Proof.
  destruct (acquire_ok The.defaults Smo.B_minus_R cars_header cars_fresh
              ltac:(simpl; lra) ltac:(simpl; lra) ltac:(simpl; lra)
              store_cars 0 0 cars_rows cars_ok cars_ok cars_rows_ok
              ltac:(simpl; lia)) as [top [todo' [E _]]].
  destruct (acquire_keeps_the_top The.defaults Smo.B_minus_R 0 0 cars_rows
              (top :: todo') store_cars store_cars E)
    as [_ [left_out [Hp Hs]]].
  exists (top :: todo'), left_out.
  split; [discriminate|]. split; [exact Hp | exact Hs].
Defined.

(** ** The bins of a symbolic column *)

Lemma cell_min_same (x r : cell) : cell_min x x = Ok r -> r = x.
Proof.
  unfold cell_min. destruct (cell_ltb x x) as [[]|e]; cbn [Py.bind];
    intros H; inversion H; reflexivity.
Qed.

Lemma cell_max_same (x r : cell) : cell_max x x = Ok r -> r = x.
Proof.
  unfold cell_max. destruct (cell_ltb x x) as [[]|e]; cbn [Py.bind];
    intros H; inversion H; reflexivity.
Qed.

Lemma cget_Some_key {V} (d : list (cell * V)) (k : cell) (v : V) :
  cget d k = Some v -> In k (map fst d).
Proof.
  intros H. apply cget_Some_In in H. apply (in_map fst) in H. exact H.
Qed.

Lemma sym_send2bin (the : The.t) (c : SYM.t) (out out' : list (cell * BIN.t))
    (x : cell) (y : string) :
  missing x = false ->
  Forall (sym_entry (SYM.at_ c)) out -> NoDup (map fst out) ->
  COL.send2bin the (COL.Sym c) out x y = Ok out' ->
  Forall (sym_entry (SYM.at_ c)) out' /\ NoDup (map fst out') /\
  forall k, In k (map fst out') <-> k = x \/ In k (map fst out).
Proof.
  intros Hx HF HN H. unfold COL.send2bin in H.
  cbn [COL.bin Py.bind COL.at_ COL.txt] in H. unfold SYM.bin in H.
  set (b := match cget out x with
            | Some b => b
            | None => BIN.new (SYM.at_ c) (SYM.txt c) x None None
            end) in H.
  assert (Hb : BIN.at_ b = SYM.at_ c /\ BIN.lo b = x /\ BIN.hi b = x).
  { unfold b. destruct (cget out x) as [b0|] eqn:E.
    - apply cget_Some_In in E.
      destruct (proj1 (Forall_forall _ _) HF _ E) as [H1 [H2 [H3 _]]].
      auto.
    - cbn. auto. }
  destruct Hb as [Ha [Hl Hh]].
  unfold BIN.add in H. rewrite Hl, Hh in H.
  destruct (cell_min x x) as [lo'|e] eqn:El; cbn [Py.bind] in H;
    [|discriminate].
  destruct (cell_max x x) as [hi'|e] eqn:Eh; cbn [Py.bind] in H;
    [|discriminate].
  apply cell_min_same in El. apply cell_max_same in Eh. subst lo' hi'.
  inversion H; subst out'. clear H.
  set (b' := {| BIN.at_ := BIN.at_ b; BIN.txt := BIN.txt b; BIN.lo := x;
                BIN.hi := x; BIN.ys := incr (BIN.ys b) y |}).
  assert (Hb' : sym_entry (SYM.at_ c) (x, b')).
  { unfold sym_entry. cbn [fst snd BIN.at_ BIN.lo BIN.hi BIN.ys b'].
    split; [exact Ha|]. split; [reflexivity|]. split; [reflexivity|].
    split; [exact Hx | apply total_count_incr]. }
  split; [|split; [apply cset_keys; exact HN|]].
  - destruct (cget out x) as [b0|] eqn:E.
    + apply (cset_present out x b' b0 (sym_entry (SYM.at_ c)) E);
        assumption.
    + rewrite (cset_absent out x b' E). apply Forall_app.
      split; [exact HF | constructor; [exact Hb' | constructor]].
  - intros k. destruct (cget out x) as [b0|] eqn:E.
    + destruct (cset_present out x b' b0 (fun _ => True) E) as [Hk _].
      rewrite Hk. split; [auto|].
      intros [->|Hin]; [apply (cget_Some_key out x b0 E) | exact Hin].
    + rewrite (cset_absent out x b' E), map_app, in_app_iff.
      cbn [map fst In]. split.
      * intros [Hin|[<-|[]]]; auto.
      * intros [->|Hin]; auto.
Qed.

Lemma sym_send_rows (the : The.t) (c : SYM.t) (y : string) (lst : Rows) :
  forall out out',
    Forall (sym_entry (SYM.at_ c)) out -> NoDup (map fst out) ->
    COL.send_rows the (COL.Sym c) y lst out = Ok out' ->
    Forall (sym_entry (SYM.at_ c)) out' /\ NoDup (map fst out') /\
    forall k, In k (map fst out') <->
              value_of_rows (SYM.at_ c) lst k \/ In k (map fst out).
Proof.
  induction lst as [|row lst IH]; intros out out' HF HN H;
    cbn [COL.send_rows] in H.
  - inversion H; subst out'. split; [exact HF|]. split; [exact HN|].
    intros k. split; [auto|]. intros [[_ [r [[] _]]]|Hk]. exact Hk.
  - unfold index in H. cbn [COL.at_] in H.
    destruct (nth_error row (SYM.at_ c)) as [x|] eqn:Ex;
      cbn [Py.bind] in H; [|discriminate].
    destruct (missing x) eqn:Hx.
    + cbn [Py.bind] in H. destruct (IH out out' HF HN H) as [F' [N' K']].
      split; [exact F'|]. split; [exact N'|].
      intros k. rewrite K'. split.
      * intros [[Hm [r [Hr Hn]]]|Hk]; [left|right; exact Hk].
        split; [exact Hm|]. exists r. split; [right; exact Hr | exact Hn].
      * intros [[Hm [r [[<-|Hr] Hn]]]|Hk]; [| |right; exact Hk].
        -- rewrite Ex in Hn. inversion Hn; subst. congruence.
        -- left. split; [exact Hm|]. exists r. auto.
    + destruct (COL.send2bin the (COL.Sym c) out x y) as [out1|e] eqn:E1;
        cbn [Py.bind] in H; [|discriminate].
      destruct (sym_send2bin the c out out1 x y Hx HF HN E1) as [F1 [N1 K1]].
      destruct (IH out1 out' F1 N1 H) as [F' [N' K']].
      split; [exact F'|]. split; [exact N'|].
      intros k. rewrite K', K1. split.
      * intros [[Hm [r [Hr Hn]]]|[->|Hk]].
        -- left. split; [exact Hm|]. exists r. split; [right|]; assumption.
        -- left. split; [exact Hx|]. exists row. split; [left|]; auto.
        -- right. exact Hk.
      * intros [[Hm [r [[<-|Hr] Hn]]]|Hk].
        -- right. left. congruence.
        -- left. split; [exact Hm|]. exists r. auto.
        -- right. right. exact Hk.
Qed.

Lemma sym_send_classes (the : The.t) (c : SYM.t) (classes : Classes) :
  forall out out',
    Forall (sym_entry (SYM.at_ c)) out -> NoDup (map fst out) ->
    COL.send_classes the (COL.Sym c) classes out = Ok out' ->
    Forall (sym_entry (SYM.at_ c)) out' /\ NoDup (map fst out') /\
    forall k, In k (map fst out') <->
              value_of_classes (SYM.at_ c) classes k \/ In k (map fst out).
Proof.
  induction classes as [|[y lst] classes IH]; intros out out' HF HN H;
    cbn [COL.send_classes] in H.
  - inversion H; subst out'. split; [exact HF|]. split; [exact HN|].
    intros k. split; [auto|]. intros [[y [rows [[] _]]]|Hk]. exact Hk.
  - destruct (COL.send_rows the (COL.Sym c) y lst out) as [out1|e] eqn:E1;
      cbn [Py.bind] in H; [|discriminate].
    destruct (sym_send_rows the c y lst out out1 HF HN E1) as [F1 [N1 K1]].
    destruct (IH out1 out' F1 N1 H) as [F' [N' K']].
    split; [exact F'|]. split; [exact N'|].
    intros k. rewrite K', K1. split.
    + intros [[y' [rows [Hin Hv]]]|[Hv|Hk]].
      * left. exists y', rows. split; [right|]; assumption.
      * left. exists y, lst. split; [left; reflexivity | exact Hv].
      * right. exact Hk.
    + intros [[y' [rows [[Heq|Hin] Hv]]]|Hk].
      * inversion Heq; subst. right. left. exact Hv.
      * left. exists y', rows. auto.
      * right. right. exact Hk.
Qed.

Lemma insert_by_perm {A K} (ltb : K -> K -> result bool) (x : K * A)
    (l s : list (K * A)) :
  insert_by ltb x l = Ok s -> Permutation s (x :: l).
Proof.
  revert s. induction l as [|y l IH]; intros s H; cbn [insert_by] in H.
  - inversion H. reflexivity.
  - destruct (ltb (fst y) (fst x)) as [[]|e]; cbn [Py.bind] in H;
      [| |discriminate].
    + destruct (insert_by ltb x l) as [l'|e]; cbn [Py.bind] in H;
        [|discriminate].
      inversion H; subst s. rewrite (IH l' eq_refl). apply perm_swap.
    + inversion H. reflexivity.
Qed.

Lemma sort_by_perm {A K} (ltb : K -> K -> result bool) (l s : list (K * A)) :
  sort_by ltb l = Ok s -> Permutation s l.
Proof.
  revert s. induction l as [|x l IH]; intros s H; cbn [sort_by] in H.
  - inversion H. reflexivity.
  - destruct (sort_by ltb l) as [s'|e]; cbn [Py.bind] in H; [|discriminate].
    rewrite (insert_by_perm ltb x s' s H). constructor. apply IH.
    reflexivity.
Qed.

Lemma sorted_total_perm {A K} (ltb : K -> K -> result bool) (f : A -> K)
    (l s : list A) :
  sorted ltb (fun z => Ok (f z)) l = Ok s -> Permutation s l.
Proof.
  unfold sorted. intros H.
  change (mapM _ l) with (mapM (fun x : A => Ok (f x, x)) l) in H.
  rewrite (mapM_total f l) in H. cbn [Py.bind] in H.
  destruct (sort_by ltb _) as [s'|e] eqn:E; cbn [Py.bind] in H;
    [|discriminate].
  inversion H; subst s. apply sort_by_perm in E.
  rewrite (Permutation_map snd E), map_map. cbn [snd]. rewrite map_id.
  reflexivity.
Qed.

Lemma selects_one_value (b : BIN.t) (row : Row) (v : cell) :
  BIN.hi b = BIN.lo b -> nth_error row (BIN.at_ b) = Some v ->
  missing v = false ->
  (BIN.lo b = v -> BIN.selects b row = Ok true) /\
  (BIN.lo b <> v -> same_kind (BIN.lo b) v = true ->
   BIN.selects b row = Ok false).
Proof.
  intros Hh Hv Hm. unfold BIN.selects, index. rewrite Hv.
  cbn [Py.bind]. rewrite Hm, Hh. split.
  - intros ->. rewrite cell_eqb_refl. reflexivity.
  - intros Hne Hk.
    assert (E : cell_eqb (BIN.lo b) v = false).
    { destruct (cell_eqb (BIN.lo b) v) eqn:E; [|reflexivity].
      apply cell_eqb_eq in E. contradiction. }
    rewrite E. cbn [andb].
    destruct (BIN.lo b) as [l|s]; destruct v as [x|t]; try discriminate;
      cbn [cell_leb cell_ltb Py.bind].
    + destruct (Rle_dec l x) as [Hle|Hgt].
      * rewrite Rleb_true by exact Hle. rewrite Rltb_false by exact Hle.
        reflexivity.
      * rewrite Rleb_false by lra. reflexivity.
    + unfold String.leb, String.ltb. rewrite (String.compare_antisym t s).
      destruct (String.compare s t); reflexivity.
Qed.

(** X18. When [bins] returns for a symbolic column, it returns one bin for
    each value, the missing mark apart, that the partition has in that
    column, and no other: the bin starts and ends at the value and has
    counted a row. It selects each row with that value, and rejects each
    row with another value of the same kind. *)
Theorem SYM_bins_one_per_value (the : The.t) (c : SYM.t) (classes : Classes)
    (small : option R) (bins : list BIN.t) :
  COL.bins the (COL.Sym c) classes small = Ok bins ->
  NoDup (map BIN.lo bins) /\
  (forall v, In v (map BIN.lo bins) <->
             value_of_classes (SYM.at_ c) classes v) /\
  (forall b, In b bins ->
     BIN.at_ b = SYM.at_ c /\ BIN.hi b = BIN.lo b /\
     0 < total_count (BIN.ys b) /\
     forall row v, nth_error row (SYM.at_ c) = Some v -> missing v = false ->
       (BIN.lo b = v -> BIN.selects b row = Ok true) /\
       (BIN.lo b <> v -> same_kind (BIN.lo b) v = true ->
        BIN.selects b row = Ok false)).
Proof.
  intros H. unfold COL.bins in H.
  destruct (COL.send_classes the (COL.Sym c) classes []) as [out|e] eqn:E;
    cbn [Py.bind] in H; [|discriminate].
  destruct (sorted cell_ltb (fun z => Ok (BIN.lo z)) (values out))
    as [srt|e] eqn:Es; cbn [Py.bind] in H; [|discriminate].
  destruct (COL.small_or the classes small) as [sm|e]; cbn [Py.bind] in H;
    [|discriminate].
  cbn [COL.binsComplete SYM.binsComplete] in H. inversion H; subst bins.
  destruct (sym_send_classes the c classes [] out) as [HF [HN HK]];
    [constructor | constructor | exact E |].
  pose proof (sorted_total_perm cell_ltb BIN.lo (values out) srt Es) as Hp.
  assert (Hlo : map BIN.lo (values out) = map fst out).
  { unfold values. rewrite map_map. apply map_ext_in. intros kb Hkb.
    apply (proj1 (Forall_forall _ _) HF kb Hkb). }
  split; [|split].
  - apply (Permutation_NoDup (Permutation_sym (Permutation_map BIN.lo Hp))).
    rewrite Hlo. exact HN.
  - intros v.
    assert (Hin : In v (map BIN.lo srt) <-> In v (map fst out)).
    { rewrite <- Hlo. split; apply Permutation_in;
        [|apply Permutation_sym]; apply Permutation_map; exact Hp. }
    rewrite Hin, (HK v). cbn [map In]. tauto.
  - intros b Hb. apply (Permutation_in _ Hp) in Hb.
    unfold values in Hb. apply in_map_iff in Hb.
    destruct Hb as [[k b0] [Hkb Hin]]. cbn [snd] in Hkb. subst b0.
    destruct (proj1 (Forall_forall _ _) HF _ Hin) as [Ha [Hl [Hh [_ Hc]]]].
    cbn [fst snd] in *.
    split; [exact Ha|]. split; [congruence|]. split; [exact Hc|].
    intros row v Hv Hm. apply selects_one_value; [congruence | | exact Hm].
    rewrite Ha. exact Hv.
Qed.

Lemma cars_origin_bins :
  COL.bins The.defaults (COL.Sym cars_origin) cars_classes None
  = Ok cars_bins.
Proof.
  cbn. unfold COL.small_or. cbn. rewrite div_ok by lra. reflexivity.
Qed.

Lemma SYM_bins_one_per_value_witness :
  NoDup (map BIN.lo cars_bins) /\
  (forall v, In v (map BIN.lo cars_bins) <->
             value_of_classes (SYM.at_ cars_origin) cars_classes v) /\
  (forall b, In b cars_bins ->
     BIN.at_ b = SYM.at_ cars_origin /\ BIN.hi b = BIN.lo b /\
     0 < total_count (BIN.ys b) /\
     forall row v,
       nth_error row (SYM.at_ cars_origin) = Some v -> missing v = false ->
       (BIN.lo b = v -> BIN.selects b row = Ok true) /\
       (BIN.lo b <> v -> same_kind (BIN.lo b) v = true ->
        BIN.selects b row = Ok false)).
Proof.
  apply (SYM_bins_one_per_value The.defaults cars_origin cars_classes None
           cars_bins cars_origin_bins).
Defined.

(** ** clone *)

(** X19. A dataset that [DATA(src)] has built is what [clone] rebuilds
    from its rows: cloning it with its own rows gives an equal dataset,
    and cloning it with no rows gives the empty dataset over its header,
    with the columns as [COLS] first makes them. *)
Theorem clone_rebuilds (header : Row) (lst : Rows) (d : DATA.t) :
  DATA.new (header :: lst) false = (d, Ok tt) ->
  DATA_clone d (DATA.rows d) false = Ok d /\
  exists c0, COLS.new header = Ok c0 /\
             DATA_clone d [] false
             = Ok {| DATA.rows := []; DATA.cols := Some c0 |}.
Proof.
  intros H.
  destruct (new_grown header lst false d H)
    as [_ [Hr [c0 [c [E0 [Hc [Hn _]]]]]]].
  specialize (Hr eq_refl).
  unfold DATA_clone, DATA.the_cols. rewrite Hc. cbn [Py.bind].
  rewrite Hn, Hr, H. split; [reflexivity|].
  exists c0. split; [exact E0|].
  unfold DATA.new. cbn [DATA.adds]. unfold DATA.add.
  cbn [DATA.cols DATA.empty DATA.rows]. rewrite E0. reflexivity.
Qed.

Lemma clone_rebuilds_witness :
  DATA_clone cars (DATA.rows cars) false = Ok cars /\
  exists c0, COLS.new cars_header = Ok c0 /\
             DATA_clone cars [] false
             = Ok {| DATA.rows := []; DATA.cols := Some c0 |}.
Proof.
  apply (clone_rebuilds cars_header cars_rows cars). reflexivity.
Defined.

(** ** NB.classify *)

(** X20. [classify] raises ValueError while the NB keeps no dataset; when
    the log-likelihood of the row is defined under each dataset, it
    returns the label whose dataset gives the largest one, and of several
    such labels the first that the NB met. *)
Theorem NB_classify_most_likely (the : The.t) (i : NB.t) (data : DATA.t)
    (row : Row) :
  let key := fun k => d <- NB.data_of i k ;;
                      DATA.loglike the d row (NB.nall i)
                                   (length (NB.datas i)) in
  (NB.datas i = [] -> NB.classify the i data row = Err ValueError) /\
  (NB.datas i <> [] ->
   (forall k, In k (map fst (NB.datas i)) -> exists v, key k = Ok v) ->
   exists got l1 l2,
     NB.classify the i data row = Ok got /\
     map fst (NB.datas i) = l1 ++ got :: l2 /\
     (forall k, In k l1 -> (key_value key k < key_value key got)%R) /\
     (forall k, In k l2 -> (key_value key k <= key_value key got)%R)).
Proof.
  intros key. split.
  - intros H. unfold NB.classify. rewrite H. reflexivity.
  - intros Hne Hdef.
    apply (max_by_first key (key_value key) (map fst (NB.datas i))).
    + intros k Hk. destruct (Hdef k Hk) as [v Hv].
      unfold key_value. rewrite Hv. reflexivity.
    + destruct (NB.datas i); [congruence | discriminate].
Qed.

Lemma NB_classify_most_likely_witness :
  let key := fun k => d <- NB.data_of nb_cars k ;;
                      DATA.loglike The.defaults d [CStr "a"; CNum 10] 11 2 in
  exists got l1 l2,
    NB.classify The.defaults nb_cars cars [CStr "a"; CNum 10] = Ok got /\
    [CStr "a"; CStr "b"] = l1 ++ got :: l2 /\
    (forall k, In k l1 -> (key_value key k < key_value key got)%R) /\
    (forall k, In k l2 -> (key_value key k <= key_value key got)%R).
Proof.
  apply (proj2 (NB_classify_most_likely The.defaults nb_cars cars
                  [CStr "a"; CNum 10])).
  - discriminate.
  - assert (H : exists v, DATA.loglike The.defaults cars [CStr "a"; CNum 10]
                            11 2 = Ok v).
    { apply (loglike_ok The.defaults cars_header cars_fresh cars
               [CStr "a"; CNum 10] 11);
        [simpl; lra | simpl; lra | exact cars_ok |].
      apply (proj1 (Forall_forall _ _) cars_rows_ok). cbn. auto. }
    intros k [<-|[<-|[]]]; exact H.
Defined.

(** ** The bins of a column without a value *)

Lemma send_rows_missing (the : The.t) (col : COL.t) (y : string)
    (lst : Rows) (out : list (cell * BIN.t)) :
  Forall (fun row => exists v, nth_error row (COL.at_ col) = Some v /\
                               missing v = true) lst ->
  COL.send_rows the col y lst out = Ok out.
Proof.
  induction 1 as [|row lst [v [Hv Hm]] _ IH]; [reflexivity|].
  cbn [COL.send_rows]. unfold index. rewrite Hv. cbn [Py.bind].
  rewrite Hm. cbn [Py.bind]. exact IH.
Qed.

Lemma send_classes_missing (the : The.t) (col : COL.t) (classes : Classes)
    (out : list (cell * BIN.t)) :
  all_missing (COL.at_ col) classes ->
  COL.send_classes the col classes out = Ok out.
Proof.
  induction classes as [|[y lst] classes IH]; intros H; [reflexivity|].
  cbn [COL.send_classes]. rewrite send_rows_missing.
  - cbn [Py.bind]. apply IH. intros k rows row Hin Hr.
    apply (H k rows row); [right|]; assumption.
  - apply Forall_forall. intros row Hr.
    apply (H y lst row); [left; reflexivity | exact Hr].
Qed.

(** X21. On a partition whose rows all have the missing mark in a column,
    [bins] returns no bin for a symbolic column and raises IndexError for
    a numeric one, which has no first bin to stretch to [-big]. *)
Theorem bins_without_a_value (the : The.t) (col : COL.t) (classes : Classes)
    (small : option R) :
  (0 < The.Bins the)%Z ->
  all_missing (COL.at_ col) classes ->
  COL.bins the col classes small
  = match col with
    | COL.Sym _ => Ok []
    | COL.Num _ => Err IndexError
    end.
Proof.
  intros HB H. unfold COL.bins.
  rewrite (send_classes_missing the col classes [] H). cbn [Py.bind].
  change (sorted cell_ltb (fun z => Ok (BIN.lo z)) (values [])) with
    (@Ok (list BIN.t) []).
  cbn [Py.bind]. destruct (small_or_ok the classes small HB) as [s ->].
  cbn [Py.bind]. destruct col as [c|c]; [|reflexivity].
  cbn [COL.binsComplete]. unfold NUM.binsComplete.
  rewrite merges_step. reflexivity.
Qed.

Lemma bins_without_a_value_witness :
  COL.bins The.defaults (COL.Num fresh_lbs) classes_no_lbs None
  = Err IndexError.
Proof.
  apply (bins_without_a_value The.defaults (COL.Num fresh_lbs)
           classes_no_lbs None); [reflexivity|].
  intros k rows row [Hk|[Hk|[]]] Hr; inversion Hk; subst;
    destruct Hr as [<-|[]]; eexists; split; reflexivity.
Defined.

(** ** The rows that the bins of a column have counted *)

Lemma total_count_incr_S (c : Counter) (y : string) :
  total_count (incr c y) = S (total_count c).
Proof.
  rewrite !total_count_sum. unfold values.
  induction c as [|[k n] c IH]; cbn [incr]; [reflexivity|].
  destruct (String.eqb k y); cbn [map snd]; rewrite !list_sum_cons; lia.
Qed.

Lemma incr_keys (c : Counter) (y k : string) :
  In k (map fst (incr c y)) -> k = y \/ In k (map fst c).
Proof.
  induction c as [|[k' n] c IH]; cbn [incr].
  - intros [H|[]]. left. symmetry. exact H.
  - destruct (String.eqb k' y); cbn [map fst In]; [tauto|].
    intros [H|H]; [tauto|]. destruct (IH H); tauto.
Qed.

Lemma incr_NoDup (c : Counter) (y : string) :
  NoDup (map fst c) -> NoDup (map fst (incr c y)).
Proof.
  induction c as [|[k n] c IH]; cbn [incr]; intros H.
  - repeat constructor. intros [].
  - inversion H as [|? ? Hn Hd]; subst.
    destruct (String.eqb_spec k y) as [->|Hne]; cbn [map fst].
    + constructor; assumption.
    + constructor; [|apply IH; exact Hd].
      intros Hin. apply incr_keys in Hin. destruct Hin; [congruence|].
      contradiction.
Qed.

Lemma filter_keys_NoDup {K V} (keep : K * V -> bool) (d : list (K * V)) :
  NoDup (map fst d) -> NoDup (map fst (filter keep d)).
Proof.
  induction d as [|kv d IH]; cbn [map filter]; intros H; [exact H|].
  inversion H as [|? ? Hn Hd]; subst.
  destruct (keep kv); [|apply IH; exact Hd].
  cbn [map]. constructor; [|apply IH; exact Hd].
  intros Hin. apply Hn. apply in_map_iff in Hin.
  destruct Hin as [x [Hx Hin]]. apply filter_In in Hin.
  apply in_map_iff. exists x. tauto.
Qed.

Lemma counter_add_NoDup (a b : Counter) :
  NoDup (map fst a) -> NoDup (map fst b) ->
  NoDup (map fst (counter_add a b)).
Proof.
  intros Ha Hb. unfold counter_add. rewrite map_app.
  apply NoDup_app.
  - apply filter_keys_NoDup. rewrite map_map. cbn [fst]. exact Ha.
  - apply filter_keys_NoDup. exact Hb.
  - intros k H1 H2.
    apply in_map_iff in H1. destruct H1 as [[k1 n1] [E1 H1]].
    apply filter_In in H1. destruct H1 as [H1 _].
    apply in_map_iff in H1. destruct H1 as [[k0 n0] [E0 H1]].
    inversion E0; subst k1 n1. cbn [fst] in E1. subst k0.
    apply in_map_iff in H2. destruct H2 as [[k2 n2] [E2 H2]].
    apply filter_In in H2. destruct H2 as [_ H2]. cbn [fst] in *. subst k2.
    destruct (lookup a k) eqn:El; [discriminate|].
    assert (Hin : In k (map fst a)) by (apply in_map_iff; exists (k, n0); auto).
    apply lookup_In in Hin. destruct Hin as [v Hv]. congruence.
Qed.

Lemma list_sum_perm (l l' : list nat) :
  Permutation l l' -> list_sum l = list_sum l'.
Proof.
  induction 1; rewrite ?list_sum_cons; lia.
Qed.

Lemma counted_perm (l l' : list BIN.t) :
  Permutation l l' -> counted l = counted l'.
Proof.
  intros H. unfold counted. apply list_sum_perm.
  apply Permutation_map. exact H.
Qed.

Lemma counted_cons (b : BIN.t) (l : list BIN.t) :
  counted (b :: l) = total_count (BIN.ys b) + counted l.
Proof. reflexivity. Qed.

Lemma counted_app (l1 l2 : list BIN.t) :
  counted (l1 ++ l2) = counted l1 + counted l2.
Proof. unfold counted. rewrite map_app. apply list_sum_app. Qed.

Lemma cset_counted (d : list (cell * BIN.t)) (k : cell) (b b0 : BIN.t) :
  cget d k = Some b0 ->
  counted (values (cset d k b)) + total_count (BIN.ys b0)
  = counted (values d) + total_count (BIN.ys b).
Proof.
  unfold values. induction d as [|[k' w] d IH]; cbn [cget cset];
    [discriminate|].
  destruct (cell_eqb k' k).
  - intros H; inversion H; subst w. cbn [map snd].
    rewrite !counted_cons. lia.
  - intros H. specialize (IH H). cbn [map snd]. rewrite !counted_cons. lia.
Qed.

Lemma send2bin_counted (the : The.t) (col : COL.t)
    (out out' : list (cell * BIN.t)) (x : cell) (y : string) :
  Forall tidy (values out) ->
  COL.send2bin the col out x y = Ok out' ->
  Forall tidy (values out') /\
  counted (values out') = S (counted (values out)).
Proof.
  intros HT H. unfold COL.send2bin in H.
  destruct (COL.bin the col x) as [k|e]; cbn [Py.bind] in H; [|discriminate].
  set (b := match cget out k with
            | Some b => b
            | None => BIN.new (COL.at_ col) (COL.txt col) x None None
            end) in H.
  destruct (BIN.add b x y) as [b'|e] eqn:Eb; cbn [Py.bind] in H;
    [|discriminate].
  inversion H; subst out'. clear H.
  assert (Hys : BIN.ys b' = incr (BIN.ys b) y).
  { unfold BIN.add in Eb.
    destruct (cell_min x (BIN.lo b)); cbn [Py.bind] in Eb; [|discriminate].
    destruct (cell_max x (BIN.hi b)); cbn [Py.bind] in Eb; [|discriminate].
    inversion Eb. reflexivity. }
  destruct (cget out k) as [b0|] eqn:E.
  - assert (Hb0 : tidy b0).
    { apply (proj1 (Forall_forall _ _) HT). unfold values.
      apply in_map_iff. exists (k, b0). split; [reflexivity|].
      apply cget_Some_In. exact E. }
    split.
    + unfold values. rewrite Forall_map.
      apply (cset_present out k b' b0 (fun kb => tidy (snd kb)) E).
      * unfold values in HT. rewrite Forall_map in HT. exact HT.
      * cbn [snd]. unfold tidy. rewrite Hys. apply incr_NoDup. exact Hb0.
    + pose proof (cset_counted out k b' b0 E) as Hc.
      rewrite Hys, total_count_incr_S in Hc. unfold b in Hc. lia.
  - rewrite (cset_absent out k b' E). unfold values. rewrite map_app.
    fold (values out). cbn [map snd]. split.
    + apply Forall_app. split; [exact HT|]. constructor; [|constructor].
      unfold tidy. rewrite Hys. apply incr_NoDup. unfold b. cbn.
      constructor.
    + rewrite counted_app, counted_cons, Hys, total_count_incr_S.
      unfold b. cbn. lia.
Qed.

Lemma send_rows_counted (the : The.t) (col : COL.t) (y : string)
    (lst : Rows) :
  forall out out',
    Forall tidy (values out) ->
    COL.send_rows the col y lst out = Ok out' ->
    Forall tidy (values out') /\
    counted (values out') = counted (values out) + seen (COL.at_ col) lst.
Proof.
  induction lst as [|row lst IH]; intros out out' HT H;
    cbn [COL.send_rows] in H.
  - inversion H; subst out'. split; [exact HT|]. unfold seen. cbn. lia.
  - unfold index in H.
    destruct (nth_error row (COL.at_ col)) as [x|] eqn:Ex;
      cbn [Py.bind] in H; [|discriminate].
    unfold seen. cbn [filter]. unfold has_value at 1. rewrite Ex.
    fold (seen (COL.at_ col) lst).
    destruct (missing x) eqn:Hx; cbn [negb].
    + cbn [Py.bind] in H. apply (IH out out' HT H).
    + destruct (COL.send2bin the col out x y) as [out1|e] eqn:E1;
        cbn [Py.bind] in H; [|discriminate].
      destruct (send2bin_counted the col out out1 x y HT E1) as [T1 C1].
      destruct (IH out1 out' T1 H) as [T' C'].
      split; [exact T'|]. rewrite C', C1. cbn [length].
      unfold seen. lia.
Qed.

Lemma send_classes_counted (the : The.t) (col : COL.t) (classes : Classes) :
  forall out out',
    Forall tidy (values out) ->
    COL.send_classes the col classes out = Ok out' ->
    Forall tidy (values out') /\
    counted (values out')
    = counted (values out) + valued (COL.at_ col) classes.
Proof.
  induction classes as [|[y lst] classes IH]; intros out out' HT H;
    cbn [COL.send_classes] in H.
  - inversion H; subst out'. split; [exact HT|]. unfold valued. cbn. lia.
  - destruct (COL.send_rows the col y lst out) as [out1|e] eqn:E1;
      cbn [Py.bind] in H; [|discriminate].
    destruct (send_rows_counted the col y lst out out1 HT E1) as [T1 C1].
    destruct (IH out1 out' T1 H) as [T' C'].
    split; [exact T'|]. rewrite C', C1. unfold valued. cbn [map snd].
    rewrite list_sum_cons. lia.
Qed.

Lemma merge_counted (a b k : BIN.t) (small : R) :
  tidy a -> tidy b -> BIN.merge a b small = Ok (Some k) ->
  tidy k /\
  total_count (BIN.ys k) = total_count (BIN.ys a) + total_count (BIN.ys b).
Proof.
  intros Ta Tb H.
  assert (Hys : BIN.ys k = counter_add (BIN.ys a) (BIN.ys b)).
  { unfold BIN.merge in H.
    destruct (Nat.eqb (BIN.at_ a) (BIN.at_ b)); [|discriminate].
    destruct (cell_min (BIN.lo a) (BIN.lo b)) as [lo'|e]; cbn [Py.bind] in H;
      [|discriminate].
    destruct (cell_max (BIN.hi a) (BIN.hi b)) as [hi'|e]; cbn [Py.bind] in H;
      [|discriminate].
    destruct (entropy (values (BIN.ys a))) as [ei ni].
    destruct (entropy (values (BIN.ys b))) as [ej nj].
    destruct (entropy _) as [ek nk].
    destruct (Rltb (INR ni) small || Rltb (INR nj) small).
    - inversion H. reflexivity.
    - destruct (Py.div _ _) as [avg|e]; cbn [Py.bind] in H; [|discriminate].
      destruct (Rleb ek avg); [|discriminate]. inversion H. reflexivity. }
  unfold tidy. rewrite Hys. split.
  - apply counter_add_NoDup; assumption.
  - apply counter_add_total; assumption.
Qed.

Lemma merges_pass_counted (small : R) :
  forall n l now, length l = n -> Forall tidy l ->
    merges_pass (fun x y => BIN.merge x y small) l = Ok now ->
    Forall tidy now /\ counted now = counted l.
Proof.
  induction n as [n IH] using lt_wf_ind; intros l now Hn HT H.
  destruct l as [|a [|b rest]].
  - inversion H; subst. auto.
  - inversion H; subst. auto.
  - rewrite merges_pass_pair in H.
    inversion HT as [|? ? Ta HT1]; subst.
    inversion HT1 as [|? ? Tb HT2]; subst.
    destruct (BIN.merge a b small) as [[ab|]|e] eqn:Em; cbn [Py.bind] in H;
      [| |discriminate].
    + destruct (merges_pass _ rest) as [nw|e] eqn:E; cbn [Py.bind] in H;
        [|discriminate].
      inversion H; subst now.
      destruct (IH (length rest) ltac:(cbn; lia) rest nw eq_refl HT2 E)
        as [Tn Cn].
      destruct (merge_counted a b ab small Ta Tb Em) as [Tk Ck].
      split; [constructor; assumption|].
      rewrite !counted_cons, Cn, Ck. lia.
    + destruct (merges_pass _ (b :: rest)) as [nw|e] eqn:E;
        cbn [Py.bind] in H; [|discriminate].
      inversion H; subst now.
      destruct (IH (length (b :: rest)) ltac:(cbn; lia) (b :: rest) nw
                  eq_refl HT1 E) as [Tn Cn].
      split; [constructor; assumption|].
      rewrite !counted_cons, Cn, counted_cons. reflexivity.
Qed.

Lemma merges_counted (small : R) :
  forall n l r, length l = n -> Forall tidy l ->
    merges (fun x y => BIN.merge x y small) l = Ok r ->
    counted r = counted l.
Proof.
  induction n as [n IH] using lt_wf_ind; intros l r Hn HT H.
  rewrite merges_step in H.
  destruct (merges_pass _ l) as [now|e] eqn:E; [|discriminate].
  destruct (merges_pass_counted small (length l) l now eq_refl HT E)
    as [Tn Cn].
  destruct (merges_pass_length _ (length l) l now eq_refl E) as [Hl _].
  destruct (Nat.eqb (length now) (length l)) eqn:El.
  - inversion H. reflexivity.
  - apply Nat.eqb_neq in El.
    rewrite (IH (length now) ltac:(lia) now r eq_refl Tn H). exact Cn.
Qed.

Lemma set_last_hi_counted (l : list BIN.t) :
  counted (NUM.set_last_hi l) = counted l.
Proof.
  induction l as [|b l IH]; [reflexivity|].
  cbn [NUM.set_last_hi]. destruct l as [|b' l]; [reflexivity|].
  rewrite !counted_cons, IH. reflexivity.
Qed.

Lemma stitch_counted (l : list BIN.t) :
  forall prev, counted (NUM.stitch prev l) = counted l.
Proof.
  induction l as [|b l IH]; intros prev; [reflexivity|].
  cbn [NUM.stitch]. rewrite !counted_cons, IH. reflexivity.
Qed.

Lemma binsComplete_counted (c : NUM.t) (l r : list BIN.t) (small : R) :
  Forall tidy l -> NUM.binsComplete c l small = Ok r ->
  counted r = counted l.
Proof.
  intros HT H. unfold NUM.binsComplete in H.
  destruct (merges _ l) as [b1|e] eqn:E1; cbn [Py.bind] in H; [|discriminate].
  rewrite <- (merges_counted small (length l) l b1 eq_refl HT E1).
  destruct b1 as [|b bs]; [discriminate|]. cbn [NUM.set_first_lo Py.bind] in H.
  assert (HX : counted (NUM.set_lo b (CNum (- big)) :: bs)
               = counted (b :: bs)) by reflexivity.
  rewrite <- HX, <- (set_last_hi_counted (NUM.set_lo b (CNum (- big)) :: bs)).
  destruct (NUM.set_last_hi _) as [|b' bs'].
  - inversion H; subst r. reflexivity.
  - inversion H; subst r. rewrite !counted_cons, stitch_counted.
    reflexivity.
Qed.

(** X22. When [bins] returns, for a column of either kind, no row has
    been lost and none counted twice: the counts of the returned bins add
    up to the number of rows of the partition that have a value, not the
    missing mark, in the column. *)
Theorem bins_count_every_row (the : The.t) (col : COL.t) (classes : Classes)
    (small : option R) (bins : list BIN.t) :
  COL.bins the col classes small = Ok bins ->
  counted bins = valued (COL.at_ col) classes.
Proof.
  intros H. unfold COL.bins in H.
  destruct (COL.send_classes the col classes []) as [out|e] eqn:E;
    cbn [Py.bind] in H; [|discriminate].
  destruct (sorted cell_ltb (fun z => Ok (BIN.lo z)) (values out))
    as [srt|e] eqn:Es; cbn [Py.bind] in H; [|discriminate].
  destruct (COL.small_or the classes small) as [sm|e]; cbn [Py.bind] in H;
    [|discriminate].
  destruct (send_classes_counted the col classes [] out) as [HT HC];
    [constructor | exact E |].
  pose proof (sorted_total_perm cell_ltb BIN.lo (values out) srt Es) as Hp.
  rewrite <- (counted_perm _ _ Hp) in HC. cbn in HC.
  destruct col as [c|c]; cbn [COL.binsComplete] in H.
  - rewrite (binsComplete_counted c srt bins sm); [exact HC | | exact H].
    apply (Permutation_Forall (Permutation_sym Hp)). exact HT.
  - inversion H; subst bins. exact HC.
Qed.

Lemma bins_count_every_row_witness :
  counted cars_bins = valued (COL.at_ (COL.Sym cars_origin)) cars_classes.
Proof.
  apply (bins_count_every_row The.defaults (COL.Sym cars_origin)
           cars_classes None cars_bins cars_origin_bins).
Defined.

(** ** Datasets that [d2h] cannot measure *)

Lemma mapM_err {A B} (f : A -> result B) (xs : list A) (x : A) :
  In x xs -> (exists e, f x = Err e) -> exists e, mapM f xs = Err e.
Proof.
  induction xs as [|a xs IH]; intros Hin Hx; [destruct Hin|].
  cbn [mapM]. destruct (f a) as [b|e] eqn:Ea; cbn [Py.bind]; [|eauto].
  destruct Hin as [->|Hin].
  - destruct Hx as [e He]. congruence.
  - destruct (IH Hin Hx) as [e ->]. cbn [Py.bind]. eauto.
Qed.

(** X23. [d2h] never returns a distance for a dataset that has a symbolic
    goal column, such as a class column whose name starts in lower case,
    or that has no goal column at all: it raises, ZeroDivisionError in
    the second case, and [order] raises with it as soon as there is a
    row to rank. *)
Theorem d2h_needs_numeric_goals (d : DATA.t) (c : COLS.t) (row : Row) :
  DATA.cols d = Some c ->
  (COLS.y c = [] -> DATA.d2h d row = Err ZeroDivisionError) /\
  ((exists s, In (COL.Sym s) (COLS.y c)) ->
   (exists e, DATA.d2h d row = Err e) /\
   (DATA.rows d <> [] -> exists e, DATA.order d = (d, Err e))).
Proof.
  intros Hc. split.
  - intros Hy. unfold DATA.d2h, DATA.the_cols. rewrite Hc.
    cbn [Py.bind]. rewrite Hy.
    cbn [Py.bind mapM length INR]. unfold Py.sum. cbn [fold_left].
    rewrite div_zero. reflexivity.
  - intros [s Hs].
    assert (Hd : forall r, exists e, DATA.d2h d r = Err e).
    { intros r. unfold DATA.d2h, DATA.the_cols. rewrite Hc. cbn [Py.bind].
      destruct (mapM_err (fun col => v <- index r (COL.at_ col) ;;
                                     d0 <- COL.d2h col v ;; Ok (sq d0))
                  (COLS.y c) (COL.Sym s) Hs) as [e ->].
      - destruct (index r (COL.at_ (COL.Sym s))) as [v|e]; cbn; eauto.
      - cbn [Py.bind]. eauto. }
    split; [apply Hd|].
    intros Hne. unfold DATA.order, sorted.
    destruct (DATA.rows d) as [|r rs]; [congruence|].
    cbn [mapM]. destruct (Hd r) as [e ->]. cbn [Py.bind]. eauto.
Qed.

Lemma d2h_needs_numeric_goals_witness :
  exists e, DATA.d2h pets [CStr "short"; CStr "dog"] = Err e.
Proof.
  apply (proj2 (d2h_needs_numeric_goals pets pets_cols
                  [CStr "short"; CStr "dog"] eq_refl)).
  exists (SYM.add (SYM.add (SYM.add (SYM.new 1 "kind!") (CStr "dog"))
                     (CStr "cat")) (CStr "dog")).
  cbn. auto.
Defined.

(** ** The sign of the log-likelihood *)

Lemma col_add_bounded (c c' : COL.t) (v : cell) (r : result unit) :
  col_bounded c ->
  (if missing v then (c, Ok tt) else COL.add c v) = (c', r) ->
  col_bounded c'.
Proof.
  intros Hb H. destruct (missing v) eqn:Hm.
  - inversion H; subst. exact Hb.
  - destruct c as [x|x]; cbn [COL.add] in H.
    + destruct (NUM.add x v). inversion H. exact I.
    + inversion H; subst c'. cbn [col_bounded] in *. intros w.
      rewrite (sym_add_get x v w Hm). unfold SYM.add. rewrite Hm.
      cbn [SYM.n]. specialize (Hb w). destruct (cell_eqb v w); lia.
Qed.

Lemma add_cols_bounded (row : Row) (cs : list COL.t) :
  forall cs' r, Forall col_bounded cs ->
    COLS.add_cols cs row = (cs', r) -> Forall col_bounded cs'.
Proof.
  induction cs as [|c cs IH]; intros cs' r HB H; cbn [COLS.add_cols] in H.
  - inversion H. constructor.
  - inversion HB as [|? ? Hc HB']; subst.
    destruct (index row (COL.at_ c)) as [v|e]; [|inversion H; exact HB].
    destruct (if missing v then (c, Ok tt) else COL.add c v) as [c1 r1] eqn:E.
    pose proof (col_add_bounded c c1 v r1 Hc E) as Hc1.
    destruct r1 as [[]|e].
    + destruct (COLS.add_cols cs row) as [cs1 r2] eqn:E2.
      inversion H; subst. constructor; [exact Hc1|].
      apply (IH cs1 _ HB' eq_refl).
    + inversion H; subst. constructor; assumption.
Qed.

Lemma adds_bounded (lst : Rows) :
  forall d d' r c, DATA.cols d = Some c -> Forall col_bounded (COLS.all c) ->
    DATA.adds d lst = (d', r) ->
    exists c', DATA.cols d' = Some c' /\ Forall col_bounded (COLS.all c').
Proof.
  induction lst as [|row lst IH]; intros d d' r c Hc HB H;
    cbn [DATA.adds] in H.
  - inversion H; subst. eauto.
  - destruct (DATA.add d row) as [d1 r1] eqn:E.
    unfold DATA.add in E. rewrite Hc in E. unfold COLS.add in E.
    destruct (COLS.add_cols (COLS.all c) row) as [cs1 r2] eqn:Ea.
    pose proof (add_cols_bounded row (COLS.all c) cs1 r2 HB Ea) as HB1.
    destruct r2 as [[]|e]; inversion E; subst d1 r1; clear E.
    + apply (IH {| DATA.rows := DATA.rows d ++ [row];
                   DATA.cols := Some {| COLS.all := cs1;
                                        COLS.names := COLS.names c |} |}
                d' r {| COLS.all := cs1; COLS.names := COLS.names c |}
                eq_refl HB1 H).
    + inversion H; subst. eexists. split; [reflexivity | exact HB1].
Qed.

Lemma new_cols_bounded (names : Row) (c0 : COLS.t) :
  COLS.new names = Ok c0 -> Forall col_bounded (COLS.all c0).
Proof.
  intros H. apply Forall_forall. intros col Hin.
  unfold COLS.new in H.
  destruct (COLS.new_cols 0 names) as [cs|e] eqn:E; cbn [Py.bind] in H;
    [|discriminate].
  inversion H; subst c0. cbn [COLS.all] in Hin.
  apply In_nth_error in Hin. destruct Hin as [i Hi].
  destruct (new_cols_spec names 0 cs E i col Hi) as [name [_ Hc]].
  unfold COLS.new_col in Hc. destruct name as [w|txt]; [discriminate|].
  destruct (first_char txt) as [a|e]; cbn [Py.bind] in Hc; [|discriminate].
  destruct (last_char txt) as [z|e]; cbn [Py.bind] in Hc; [|discriminate].
  destruct (COLS.isupper a).
  - destruct (NUM.new (0 + i) txt); cbn [Py.bind] in Hc; [|discriminate].
    inversion Hc. exact I.
  - inversion Hc. intros v. cbn. lia.
Qed.

Lemma new_bounded (header : Row) (lst : Rows) (ord : bool) (d : DATA.t)
    (c : COLS.t) :
  DATA.new (header :: lst) ord = (d, Ok tt) -> DATA.cols d = Some c ->
  Forall col_bounded (COLS.all c).
Proof.
  unfold DATA.new. cbn [DATA.adds]. unfold DATA.add at 1.
  cbn [DATA.cols DATA.empty].
  destruct (COLS.new header) as [c0|e] eqn:E0; [|discriminate].
  destruct (DATA.adds _ lst) as [d1 r] eqn:Ea.
  destruct (adds_bounded lst {| DATA.rows := []; DATA.cols := Some c0 |}
              d1 r c0 eq_refl (new_cols_bounded header c0 E0) Ea)
    as [c1 [Hc1 HB]].
  destruct r as [[]|e]; [|discriminate].
  destruct ord.
  - unfold DATA.order. destruct (sorted _ _ _); [|discriminate].
    intros H Hc. inversion H; subst d. cbn [DATA.cols] in Hc. congruence.
  - intros H Hc. inversion H; subst d. congruence.
Qed.

Lemma likes_at_most_1 (the : The.t) (row : Row) (prior : R) (xs : list COL.t) :
  (0 <= The.m the)%R -> (0 <= prior <= 1)%R ->
  Forall col_bounded xs ->
  forall ls, DATA.likes the xs row prior = Ok ls ->
             Forall (fun l => (l <= 1)%R) ls.
Proof.
  intros Hm Hp. induction 1 as [|col xs Hc _ IH]; intros ls H;
    cbn [DATA.likes] in H.
  - inversion H. constructor.
  - destruct (index row (COL.at_ col)) as [v|e]; cbn [Py.bind] in H;
      [|discriminate].
    destruct (missing v); [apply IH; exact H|].
    destruct (COL.like the col v prior) as [l|e] eqn:El; cbn [Py.bind] in H;
      [|discriminate].
    destruct (DATA.likes the xs row prior) as [ls'|e]; cbn [Py.bind] in H;
      [|discriminate].
    inversion H; subst ls. constructor; [|apply IH; reflexivity].
    destruct col as [x|x]; cbn [COL.like] in El.
    + unfold NUM.like in El. destruct v as [w|s]; [|discriminate].
      destruct (Py.div _ _); cbn [Py.bind] in El; [|discriminate].
      destruct (Py.div _ _); cbn [Py.bind] in El; [|discriminate].
      inversion El. apply Rmin_l.
    + unfold SYM.like, Py.div in El.
      destruct (Req_dec_T (INR (SYM.n x) + The.m the) 0) as [|Hne];
        [discriminate|].
      inversion El. cbn [col_bounded] in Hc.
      pose proof (le_INR _ _ (Hc v)) as Hle.
      pose proof (pos_INR (SYM.n x)) as Hn.
      assert (Hden : (0 < INR (SYM.n x) + The.m the)%R) by lra.
      apply (Rmult_le_reg_r (INR (SYM.n x) + The.m the)); [exact Hden|].
      unfold Rdiv. rewrite Rmult_assoc, Rinv_l by lra. nra.
Qed.

(** X24. In a dataset that [DATA(src)] has built, the log-likelihood that
    [loglike] returns for a row is never positive, when [the.k] and
    [the.m] are not negative, the dataset holds at most [nall] rows and
    there is at least one class. *)
Theorem loglike_never_positive (the : The.t) (header : Row) (lst : Rows)
    (ord : bool) (d : DATA.t) (row : Row) (nall nh : nat) (v : R) :
  DATA.new (header :: lst) ord = (d, Ok tt) ->
  (0 <= The.k the)%R -> (0 <= The.m the)%R ->
  length (DATA.rows d) <= nall -> 1 <= nh ->
  DATA.loglike the d row nall nh = Ok v ->
  (v <= 0)%R.
Proof.
  intros Hnew Hk Hm Hlen Hnh H. unfold DATA.loglike, Py.div in H.
  destruct (Req_dec_T (INR nall + The.k the * INR nh) 0) as [|Hne];
    [discriminate|].
  cbn [Py.bind] in H.
  set (prior := ((INR (length (DATA.rows d)) + The.k the)
                 / (INR nall + The.k the * INR nh))%R) in H.
  destruct (DATA.the_cols d) as [c|e] eqn:Ec; cbn [Py.bind] in H;
    [|discriminate].
  destruct (DATA.likes the (COLS.x c) row prior) as [ls|e] eqn:El;
    cbn [Py.bind] in H; [|discriminate].
  inversion H; subst v. clear H.
  assert (Hp : (0 <= prior <= 1)%R).
  { pose proof (pos_INR nall) as H1. pose proof (pos_INR (length (DATA.rows d))).
    pose proof (le_INR _ _ Hlen) as H2. pose proof (le_INR _ _ Hnh) as H3.
    change (INR 1) with 1%R in H3.
    assert (Hden : (0 < INR nall + The.k the * INR nh)%R) by nra.
    unfold prior. split.
    - apply Rmult_le_pos; [lra|]. left. apply Rinv_0_lt_compat. exact Hden.
    - apply (Rmult_le_reg_r (INR nall + The.k the * INR nh)); [exact Hden|].
      unfold Rdiv. rewrite Rmult_assoc, Rinv_l by lra. nra. }
  assert (Hc : DATA.cols d = Some c).
  { unfold DATA.the_cols in Ec. destruct (DATA.cols d); [|discriminate].
    inversion Ec. reflexivity. }
  assert (Hx : Forall col_bounded (COLS.x c)).
  { apply (incl_Forall (l1 := COLS.all c));
      [|exact (new_bounded header lst ord d c Hnew Hc)].
    intros col Hin. unfold COLS.x in Hin. apply filter_In in Hin.
    apply Hin. }
  pose proof (likes_at_most_1 the row prior (COLS.x c) Hm Hp Hx ls El) as Hls.
  rewrite sum_fold_right. apply sum_of_nonpos.
  rewrite Forall_map. apply Forall_forall. intros l Hin.
  apply filter_In in Hin. destruct Hin as [Hin Hpos].
  apply Rltb_spec in Hpos.
  assert (Hl1 : (l <= 1)%R).
  { apply in_app_or in Hin. destruct Hin as [Hin|[<-|[]]]; [|apply Hp].
    apply (proj1 (Forall_forall _ _) Hls l Hin). }
  rewrite <- ln_1. destruct Hl1 as [Hlt|Heq].
  - left. apply ln_increasing; assumption.
  - rewrite Heq. lra.
Qed.

Lemma loglike_never_positive_witness :
  exists v, DATA.loglike The.defaults cars [CStr "a"; CNum 10] 4 2 = Ok v /\
            (v <= 0)%R.
Proof.
  destruct (loglike_ok The.defaults cars_header cars_fresh cars
              [CStr "a"; CNum 10] 4) as [v Hv];
    [simpl; lra | simpl; lra | exact cars_ok | |].
  - apply (proj1 (Forall_forall _ _) cars_rows_ok). cbn. auto.
  - exists v. split; [exact Hv|].
    apply (loglike_never_positive The.defaults cars_header cars_rows false
             cars [CStr "a"; CNum 10] 4 2 v);
      [reflexivity | simpl; lra | simpl; lra | cbn; lia | lia | exact Hv].
Defined.

(** ** smo: a [Top] that is too small *)

Lemma int_below_1 (x : R) : (0 <= x < 1)%R -> Py.int x = 0%Z.
Proof.
  intros [H0 H1]. unfold Py.int. destruct (Rle_dec 0 x); [|contradiction].
  symmetry. apply Int_part_spec. cbn. lra.
Qed.

(** X25. A turn of the loop of [smo] that finds three or more rows still to
    do, but so small a [the.Top] that the product of their number and
    [the.Top] is below 1, never ends well: [acquire] keeps no row, and
    unpacking its empty result raises ValueError unless an earlier step
    has raised already. *)
Theorem step_needs_a_top_row (the : The.t) (score : R -> R -> R)
    (data0 : nat) (st : Smo.state) (hs : Store.t) :
  3 <= length (Smo.todo st) ->
  (0 <= INR (length (Smo.todo st)) * The.Top the < 1)%R ->
  exists e, snd (Smo.step the score data0 st hs) = Err e.
Proof.
  intros H3 HT. unfold Smo.step.
  destruct (Nat.ltb_spec (length (Smo.todo st)) 3) as [|_]; [lia|].
  unfold Store.bind at 1.
  destruct (Store.lift (len_pow _ _) hs) as [h1 [p|e]]; [|cbn; eauto].
  unfold Store.bind at 1.
  destruct (Store.read (Smo.data1 st) h1) as [h2 [d1|e]]; [|cbn; eauto].
  unfold Store.bind at 1.
  destruct (Store.clone data0 _ false h2) as [h3 [best|e]]; [|cbn; eauto].
  unfold Store.bind at 1.
  destruct (Store.read (Smo.data1 st) h3) as [h4 [d1'|e]]; [|cbn; eauto].
  unfold Store.bind at 1.
  destruct (Store.clone data0 _ false h4) as [h5 [rest|e]]; [|cbn; eauto].
  unfold Store.bind at 1.
  destruct (Smo.acquire the score best rest (Smo.todo st) h5)
    as [h6 [acq|e]] eqn:Ea; [|cbn; eauto].
  assert (Hacq : acq = []).
  { unfold Smo.acquire, Store.bind, Store.read, Store.lift, Store.ret in Ea.
    destruct (sorted float_ltb _ (Smo.todo st)) as [s|e]; [|inversion Ea].
    inversion Ea. rewrite (int_below_1 _ HT). reflexivity. }
  rewrite Hacq. cbn. eauto.
Qed.

Lemma step_needs_a_top_row_witness :
  exists e, snd (Smo.step small_top Smo.B_minus_R 0 three_to_do store_cars)
            = Err e.
Proof.
  apply (step_needs_a_top_row small_top Smo.B_minus_R 0 three_to_do
           store_cars); cbn; [lia | lra].
Defined.
